(** * wmctrllike: window registry, identity, focus cycling and launch tracking

    A shallow embedding of [extension.js] (the variant that carries the
    focus-cycle operations, [FocusByCls] and [LaunchHere]) together with the
    properties its design document states about it.

    Conventions of the embedding.
    - A JavaScript Number that holds an integer is a [Z].  The host only hands
      out integral values (X11 ids, sequence numbers, workspace indices,
      millisecond clocks), and on integers below 2^53 the arithmetic used here
      ([-], [%], comparison, [toString(16)], [parseInt]) is exact.
    - A JavaScript string is a [string] of 8-bit code units; [toLowerCase]
      and the white-space class are those of the Latin-1 range.
    - A method of a host object is a [method A]: it may be missing
      ([typeof o.m !== 'function']), raise when called, or return a value.
    - An operation that calls mutating primitives of the window system is a
      computation in [M]: it logs every primitive it calls and finishes with
      a value or with an escaped exception.
    - The launch tracker lives across turns of the event loop: what
      [_launchHere] registers is a [LaunchWatch], and [step] is one callback
      of it reacting to one event.

    The file has three parts: the embedding of the source, function by
    function under the names of the source; the vocabulary in which the
    properties are stated, with a small desktop to run the operations on;
    and the properties themselves, C1 to C10. *)

From Stdlib Require Import ZArith NArith List String Ascii Bool Lia DecimalString.
From Stdlib Require Import Permutation Sorting.Sorted.
Import ListNotations.

Local Open Scope string_scope.
Local Open Scope Z_scope.

(* ===================================================================== *)
(** ** The JavaScript runtime functions the extension relies on          *)
(* ===================================================================== *)

Module JS.

(** [StrWhiteSpaceChar] restricted to 8-bit code units: TAB, LF, VT, FF,
    CR, SP and NBSP. *)
Definition isWhiteSpace (c : ascii) : bool :=
  let n := N_of_ascii c in
  ((9 <=? n) && (n <=? 13) || (n =? 32) || (n =? 160))%N.

(** The characters [toLowerCase] changes: A-Z, and in the upper half the
    accented capitals (all of 192-222 but the multiplication sign). *)
Definition isUpper (c : ascii) : bool :=
  let n := N_of_ascii c in
  ((65 <=? n) && (n <=? 90)
   || (192 <=? n) && (n <=? 222) && negb (n =? 215))%N.

Definition lowerChar (c : ascii) : ascii :=
  if isUpper c then ascii_of_N (N_of_ascii c + 32) else c.

(** [String.prototype.toLowerCase] *)
Fixpoint toLowerCase (s : string) : string :=
  match s with
  | EmptyString => EmptyString
  | String c r => String (lowerChar c) (toLowerCase r)
  end.

Fixpoint trimStart (s : string) : string :=
  match s with
  | EmptyString => EmptyString
  | String c r => if isWhiteSpace c then trimStart r else s
  end.

Fixpoint trimEnd (s : string) : string :=
  match s with
  | EmptyString => EmptyString
  | String c r =>
      match trimEnd r with
      | EmptyString => if isWhiteSpace c then EmptyString else String c EmptyString
      | r' => String c r'
      end
  end.

(** [String.prototype.trim] *)
Definition trim (s : string) : string := trimEnd (trimStart s).

(** [s.startsWith(p)] *)
Fixpoint startsWith (p s : string) : bool :=
  match p, s with
  | EmptyString, _ => true
  | String _ _, EmptyString => false
  | String a p', String b s' => Ascii.eqb a b && startsWith p' s'
  end.

(** [s.slice(n)] for [0 <= n] *)
Fixpoint slice (n : nat) (s : string) : string :=
  match n, s with
  | O, _ => s
  | S _, EmptyString => EmptyString
  | S k, String _ r => slice k r
  end.

(** [s.includes(p)] *)
Fixpoint includes (p s : string) : bool :=
  startsWith p s
  || match s with
     | EmptyString => false
     | String _ r => includes p r
     end.

(** Value of a digit in radix 16, either case. *)
Definition hexDigitValue (c : ascii) : option Z :=
  let n := N_of_ascii c in
  if ((48 <=? n) && (n <=? 57))%N then Some (Z.of_N n - 48)
  else if ((97 <=? n) && (n <=? 102))%N then Some (Z.of_N n - 87)
  else if ((65 <=? n) && (n <=? 70))%N then Some (Z.of_N n - 55)
  else None.

(** The longest prefix of radix-16 digits, accumulated left to right. *)
Fixpoint digitsFrom (s : string) (acc : Z) : Z :=
  match s with
  | EmptyString => acc
  | String c r =>
      match hexDigitValue c with
      | Some d => digitsFrom r (16 * acc + d)
      | None => acc
      end
  end.

Definition digits16 (s : string) : option Z :=
  match s with
  | EmptyString => None
  | String c r =>
      match hexDigitValue c with
      | Some d => Some (digitsFrom r d)
      | None => None
      end
  end.

(** [Number.parseInt(s, 16)]; [None] is [NaN].  Leading white space is
    skipped, one sign is read, one [0x]/[0X] prefix is dropped (radix 16),
    then the longest run of digits is read; what follows is ignored. *)
Definition parseInt16 (s : string) : option Z :=
  let s1 := trimStart s in
  let '(sign, s2) :=
    match s1 with
    | String c r =>
        if Ascii.eqb c "-" then (-1, r)
        else if Ascii.eqb c "+" then (1, r)
        else (1, s1)
    | EmptyString => (1, s1)
    end in
  let s3 := if startsWith "0x" s2 || startsWith "0X" s2 then slice 2 s2 else s2 in
  option_map (Z.mul sign) (digits16 s3).

Definition hexDigitChar (d : N) : ascii :=
  if (d <? 10)%N then ascii_of_N (48 + d) else ascii_of_N (87 + d).

(** Digits of [n] in radix 16, most significant first, put in front of
    [acc].  [fuel] bounds the number of digits. *)
Fixpoint hexDigits (fuel : nat) (n : N) (acc : string) : string :=
  match fuel with
  | O => acc
  | S f =>
      let acc' := String (hexDigitChar (n mod 16)) acc in
      if (n / 16 =? 0)%N then acc' else hexDigits f (n / 16) acc'
  end.

Definition hexN (n : N) : string :=
  hexDigits (S (N.to_nat (N.log2 n))) n EmptyString.

(** [Number.prototype.toString(16)] on an integer. *)
Definition toString16 (n : Z) : string :=
  match n with
  | Z0 => "0"
  | Zpos p => hexN (Npos p)
  | Zneg p => String "-" (hexN (Npos p))
  end.

(** [ToInt32], the coercion behind [Number(x) | 0]. *)
Definition toInt32 (n : Z) : Z :=
  let m := n mod 4294967296 in
  if m <? 2147483648 then m else m - 4294967296.

(** JavaScript's [%] truncates towards zero. *)
Definition rem (a b : Z) : Z := Z.rem a b.

(** Truthiness of a possibly-null string: [null] and [''] are falsy. *)
Definition truthy (s : option string) : bool :=
  match s with
  | Some (String _ _) => true
  | _ => false
  end.

End JS.

(* ===================================================================== *)
(** ** The window system, as the extension sees it                       *)
(* ===================================================================== *)

(** What probing and calling [o.m] can give: [typeof o.m !== 'function'],
    an exception, or a value.  A property that is read rather than called
    uses the same three cases ([Absent] is [undefined]). *)
Inductive method (A : Type) : Type :=
| Absent
| Raises
| Returns (a : A).
Arguments Absent {A}.
Arguments Raises {A}.
Arguments Returns {A} a.

(** [Meta.WindowType] *)
Inductive WindowType : Type :=
| NORMAL | DESKTOP | DOCK | DIALOG | MODAL_DIALOG | TOOLBAR | MENU | UTILITY
| SPLASHSCREEN | OVERRIDE_OTHER.

Definition isDesktopOrDock (wt : WindowType) : bool :=
  match wt with
  | DESKTOP | DOCK => true
  | _ => false
  end.

(** A [Meta.Workspace].  [ws_ref] is the identity of the object. *)
Record Workspace : Type := {
  ws_ref : nat;
  ws_index : method Z;         (* ws.index() *)
  ws_activate : method unit;   (* ws.activate(timestamp) *)
}.

(** A [Meta.Rectangle]; a coordinate is [None] when it is not a number. *)
Record Rectangle : Type := {
  rect_x : option Z;
  rect_y : option Z;
}.

(** A [Meta.Window].  [win_ref] is the identity of the object; every other
    field is what the corresponding method or property gives when the
    extension uses it.  [window_app_id] stands for the whole chain
    [Shell.WindowTracker.get_default().get_window_app(w).get_id()]:
    [Returns None] when there is no application, [Raises] when any link
    raises. *)
Record MetaWindow : Type := {
  win_ref : nat;
  get_xwindow : method Z;
  get_stable_sequence : method Z;
  get_id : method Z;
  hash : method Z;
  get_wm_class_instance : method (option string);
  get_wm_class : method (option string);
  window_app_id : method (option string);
  is_on_all_workspaces : method bool;
  get_workspace : method (option Workspace);
  skip_taskbar : method bool;
  get_window_type : method WindowType;
  get_title : method (option string);
  get_frame_rect : method (option Rectangle);
  minimized : bool;
  unminimize : method unit;
  activate : method unit;
  activate_full : method unit;
  move_resize_frame : method unit;
  change_workspace_by_index : method unit;
  change_workspace : method unit;
}.

(** [global.workspace_manager], or [global.screen] on older shells. *)
Record WorkspaceManager : Type := {
  get_active_workspace : method (option Workspace);
  get_workspace_by_index : Z -> method (option Workspace);
  wm_get_workspace : Z -> method (option Workspace);
}.

(** [global.display] *)
Record Display : Type := {
  get_focus_window : method (option MetaWindow);
  focus_window : method (option MetaWindow);
  get_current_time_roundtrip : method Z;
  activate_workspace : method unit;
  get_current_monitor : method Z;
  get_monitor_geometry : Z -> method (Z * Z);   (* width, height *)
  connect_window_created : method unit;         (* display.connect('window-created', f) *)
}.

(** The ambient objects: [global], [Clutter], [GLib] and the clock.  An
    actor of [get_window_actors] is given by its [meta_window], [None] when
    that is null. *)
Record Global : Type := {
  get_window_actors : method (list (option MetaWindow));
  workspace_manager : option WorkspaceManager;
  screen : option WorkspaceManager;
  display : option Display;
  get_current_time : method Z;
  clutter_get_current_event_time : method Z;
  spawn_command_line_async : string -> method unit;
  date_now : Z;
}.

(** Calls of mutating primitives, in the order they are made. *)
Inductive Effect : Type :=
| WsActivate (ws : nat) (timestamp : Z)
| DisplayActivateWorkspace (ws : nat) (timestamp : Z)
| Unminimize (w : nat)
| Activate (w : nat) (timestamp : Z)
| ActivateFull (w : nat) (timestamp : Z) (user_time : Z)
| MoveResizeFrame (w : nat) (user_op : bool) (x y width height : Z)
| ChangeWorkspaceByIndex (w : nat) (index : Z) (append : bool)
| ChangeWorkspace (w : nat) (ws : nat)
| Spawn (path : string)
| ConnectWindowCreated
| TimeoutAddSeconds (seconds : Z)
| TimeoutAddResize (milliseconds : Z) (w : nat) (screenW screenH : Z).

(* ===================================================================== *)
(** ** Computations that log primitive calls and may raise               *)
(* ===================================================================== *)

Inductive outcome (A : Type) : Type :=
| Ret (a : A)
| Throw.
Arguments Ret {A} a.
Arguments Throw {A}.

Definition M (A : Type) : Type := (list Effect * outcome A)%type.

Definition ret {A : Type} (a : A) : M A := ([], Ret a).

Definition throw {A : Type} : M A := ([], Throw).

Definition bind {A B : Type} (m : M A) (k : A -> M B) : M B :=
  match m with
  | (l, Ret a) => let '(l', r) := k a in ((l ++ l')%list, r)
  | (l, Throw) => (l, Throw)
  end.

(** [try { m } catch (e) { h }] *)
Definition try_catch {A : Type} (m : M A) (h : M A) : M A :=
  match m with
  | (l, Throw) => let '(l', r) := h in ((l ++ l')%list, r)
  | (l, Ret a) => (l, Ret a)
  end.

(** Reading through a method that has no effect on the window system. *)
Definition read {A : Type} (m : method A) : M A :=
  match m with
  | Returns a => ret a
  | _ => throw
  end.

(** Calling a mutating primitive [e]: calling what is not a function
    raises before anything happens. *)
Definition call (e : Effect) (m : method unit) : M unit :=
  match m with
  | Absent => throw
  | Raises => ([e], Throw)
  | Returns _ => ([e], Ret tt)
  end.

Definition isFunction {A : Type} (m : method A) : bool :=
  match m with
  | Absent => false
  | _ => true
  end.

Declare Scope js_scope.
Delimit Scope js_scope with js.
Notation "x <- m ;; k" := (bind m (fun x => k))
  (at level 61, m at next level, right associativity) : js_scope.
Notation "m ;;; k" := (bind m (fun _ => k))
  (at level 61, right associativity) : js_scope.
Local Open Scope js_scope.

(* ===================================================================== *)
(** ** Identity, classification and placement of one window              *)
(* ===================================================================== *)

(** [_toHexId(w)] *)
Definition _toHexId (g : Global) (w : MetaWindow) : string :=
  let bySequence :=
    let seq :=
      match get_stable_sequence w with
      | Returns k => k
      | Raises => 0
      | Absent =>
          match get_id w with
          | Returns k => k
          | _ => 0
          end
      end in
    let seq :=
      if seq =? 0 then
        match hash w with
        | Returns h => Z.abs h
        | _ => date_now g
        end
      else seq in
    "0x" ++ JS.toString16 seq in
  match get_xwindow w with
  | Returns xid => if negb (xid =? 0) then "0x" ++ JS.toString16 xid else bySequence
  | _ => bySequence
  end.

(** [_classInstance(w)] *)
Definition _classInstance (w : MetaWindow) : string :=
  let inst := match get_wm_class_instance w with Returns v => v | _ => None end in
  let cls := match get_wm_class w with Returns v => v | _ => None end in
  let '(inst, cls) :=
    if negb (JS.truthy inst) || negb (JS.truthy cls) then
      match window_app_id w with
      | Returns (Some appId) =>
          (if JS.truthy inst then inst else Some appId,
           if JS.truthy cls then cls else Some appId)
      | _ => (inst, cls)
      end
    else (inst, cls) in
  let inst := match inst with Some (String c r) => String c r | _ => "unknown" end in
  let cls := match cls with Some (String c r) => String c r | _ => "unknown" end in
  JS.toLowerCase inst ++ "." ++ JS.toLowerCase cls.

(** [_creationOrderKey(w)] *)
Definition _creationOrderKey (g : Global) (w : MetaWindow) : Z :=
  let fromHex :=
    let hex := _toHexId g w in
    let s := if JS.startsWith "0x" hex then JS.slice 2 hex else hex in
    match JS.parseInt16 s with
    | Some n => n
    | None => 0
    end in
  let fromId :=
    match get_id w with
    | Returns k => if 0 <? k then k else fromHex
    | _ => fromHex
    end in
  match get_stable_sequence w with
  | Returns k => if 0 <? k then k else fromId
  | _ => fromId
  end.

(** [_workspaceIndex(w)] *)
Definition _workspaceIndex (w : MetaWindow) : Z :=
  let byWorkspace :=
    match get_workspace w with
    | Returns (Some ws) =>
        match ws_index ws with
        | Returns i => i
        | _ => 0
        end
    | _ => 0
    end in
  match is_on_all_workspaces w with
  | Returns true => -1
  | _ => byWorkspace
  end.

(** The workspace object both [_activeWorkspaceIndex] and
    [_activateWindowById] look up: [global.workspace_manager] when it has
    [get_active_workspace], else [global.screen].  [Absent]: neither has
    it, the variable stays [null]. *)
Definition activeWorkspaceObject (g : Global) : method (option Workspace) :=
  let viaScreen :=
    match screen g with
    | Some sc => get_active_workspace sc
    | None => Absent
    end in
  match workspace_manager g with
  | Some wm =>
      match get_active_workspace wm with
      | Absent => viaScreen
      | r => r
      end
  | None => viaScreen
  end.

(** [_activeWorkspaceIndex()] *)
Definition _activeWorkspaceIndex (g : Global) : Z :=
  match activeWorkspaceObject g with
  | Returns (Some ws) =>
      match ws_index ws with
      | Returns i => i
      | _ => 0
      end
  | _ => 0
  end.

(** The window [_activeWindowId] settles on: [get_focus_window()], and when
    that gives nothing, the [focus_window] property. *)
Definition focusWindow (g : Global) : option MetaWindow :=
  match display g with
  | None => None
  | Some d =>
      let w := match get_focus_window d with Returns w => w | _ => None end in
      match w with
      | Some _ => w
      | None => match focus_window d with Returns w' => w' | _ => None end
      end
  end.

(** [_activeWindowId()] *)
Definition _activeWindowId (g : Global) : string :=
  match focusWindow g with
  | None => ""
  | Some w => _toHexId g w
  end.

(** [_isTasklistWindow(w)] *)
Definition _isTasklistWindow (w : MetaWindow) : bool :=
  match skip_taskbar w with
  | Returns true => false
  | Raises => true
  | _ =>
      match get_window_type w with
      | Returns wt => negb (isDesktopOrDock wt)
      | _ => true
      end
  end.

(* ===================================================================== *)
(** ** The registry: one sorted snapshot per request                     *)
(* ===================================================================== *)

(** A window record of the snapshot, with the field names of the source. *)
Module Item.
Record t : Type := {
  key : Z;
  id : string;
  desk : Z;
  cls : string;
  title : string;
}.
End Item.

(** [Array.prototype.sort(cmp)].  The language fixes the result for a
    consistent comparator: the stable ordering.  It is embedded as the
    stable insertion sort. *)
Section ArraySort.
Context {A : Type} (cmp : A -> A -> Z).

Fixpoint insertSorted (x : A) (l : list A) : list A :=
  match l with
  | [] => [x]
  | y :: r => if cmp x y <=? 0 then x :: y :: r else y :: insertSorted x r
  end.

Fixpoint sort (l : list A) : list A :=
  match l with
  | [] => []
  | x :: r => insertSorted x (sort r)
  end.
End ArraySort.

(** [Array.prototype.findIndex]: [-1] when nothing matches. *)
Fixpoint findIndexFrom {A : Type} (p : A -> bool) (l : list A) (i : Z) : Z :=
  match l with
  | [] => -1
  | x :: r => if p x then i else findIndexFrom p r (i + 1)
  end.

Definition findIndex {A : Type} (p : A -> bool) (l : list A) : Z :=
  findIndexFrom p l 0.

(** [String(a).toLowerCase() === String(b).toLowerCase()] *)
Definition sameId (a b : string) : bool :=
  String.eqb (JS.toLowerCase a) (JS.toLowerCase b).

(** [String(n)] on an integer. *)
Definition decimal (n : Z) : string := NilZero.string_of_int (Z.to_int n).

Section Extension.

(** [String.prototype.localeCompare] of the running shell: the collation
    is the host's, so it is a parameter of the embedding. *)
Variable localeCompare : string -> string -> Z.

(** The comparator handed to [items.sort] in [_listWindowsItems]. *)
Definition compareItems (a b : Item.t) : Z :=
  if negb (Item.key a =? Item.key b) then Item.key a - Item.key b
  else if negb (Item.desk a =? Item.desk b) then Item.desk a - Item.desk b
  else
    let cmpCls := localeCompare (Item.cls a) (Item.cls b) in
    if negb (cmpCls =? 0) then cmpCls
    else
      let cmpTitle := localeCompare (Item.title a) (Item.title b) in
      if negb (cmpTitle =? 0) then cmpTitle
      else localeCompare (Item.id a) (Item.id b).

(** The record pushed for one eligible window. *)
Definition itemOf (g : Global) (w : MetaWindow) : Item.t :=
  {| Item.key := _creationOrderKey g w;
     Item.id := _toHexId g w;
     Item.desk := _workspaceIndex w;
     Item.cls := _classInstance w;
     Item.title :=
       match get_title w with
       | Returns (Some t) => t
       | _ => ""
       end |}.

(** The loop of [_listWindowsItems] over the actors. *)
Fixpoint collectItems (g : Global) (actors : list (option MetaWindow)) : list Item.t :=
  match actors with
  | [] => []
  | None :: rest => collectItems g rest
  | Some w :: rest =>
      if _isTasklistWindow w then itemOf g w :: collectItems g rest
      else collectItems g rest
  end.

(** [_listWindowsItems()] *)
Definition _listWindowsItems (g : Global) : M (list Item.t) :=
  actors <- read (get_window_actors g) ;;
  ret (sort compareItems (collectItems g actors)).

(** [_listWindows()] *)
Definition _listWindows (g : Global) : M (list string) :=
  try_catch
    (items <- _listWindowsItems g ;;
     ret (map (fun it => Item.id it ++ " " ++ decimal (Item.desk it) ++ " "
                         ++ Item.cls it ++ " " ++ Item.title it) items))
    (ret []).

(** [_listWindowsText()] *)
Definition _listWindowsText (g : Global) : M string :=
  try_catch
    (lines <- _listWindows g ;;
     ret (String.concat (String "010" EmptyString) lines))
    (ret "").

(** [_normalizeIdString(id)]; [None] is [null]. *)
Definition _normalizeIdString (id : string) : option string :=
  let s := JS.toLowerCase (JS.trim id) in
  let s := if JS.startsWith "0x" s then JS.slice 2 s else s in
  match JS.parseInt16 s with
  | None => None
  | Some n => Some ("0x" ++ JS.toString16 n)
  end.

(** The scan of [_findWindowById] over the actors. *)
Fixpoint findActor (g : Global) (norm : string) (actors : list (option MetaWindow))
  : option MetaWindow :=
  match actors with
  | [] => None
  | None :: rest => findActor g norm rest
  | Some w :: rest =>
      if _isTasklistWindow w && String.eqb (JS.toLowerCase (_toHexId g w)) norm
      then Some w
      else findActor g norm rest
  end.

(** [_findWindowById(id)] *)
Definition _findWindowById (g : Global) (id : string) : M (option MetaWindow) :=
  match _normalizeIdString id with
  | None => ret None
  | Some norm =>
      actors <- read (get_window_actors g) ;;
      ret (findActor g norm actors)
  end.

(* =================================================================== *)
(** ** Window control operations                                       *)
(* =================================================================== *)

(** The event timestamp [_activateWindowById] and [_switchWorkspace]
    compute; every failure leaves it at 0. *)
Definition eventTimestamp (g : Global) : Z :=
  let viaClutter :=
    match clutter_get_current_event_time g with
    | Returns t => t
    | _ => 0
    end in
  match display g with
  | Some d =>
      match get_current_time_roundtrip d with
      | Returns t => t
      | Raises => 0
      | Absent => viaClutter
      end
  | None => viaClutter
  end.

(** [ws.activate(timestamp)], else [global.display.activate_workspace(ws,
    timestamp)], else nothing. *)
Definition activateWorkspace (g : Global) (ws : Workspace) (timestamp : Z) : M unit :=
  if isFunction (ws_activate ws) then
    call (WsActivate (ws_ref ws) timestamp) (ws_activate ws)
  else
    match display g with
    | Some d =>
        if isFunction (activate_workspace d) then
          call (DisplayActivateWorkspace (ws_ref ws) timestamp) (activate_workspace d)
        else ret tt
    | None => ret tt
    end.

(** The block of [_activateWindowById] that follows the window to its
    workspace. *)
Definition followWorkspace (g : Global) (w : MetaWindow) (timestamp : Z) : M unit :=
  try_catch
    (isSticky <- (if isFunction (is_on_all_workspaces w)
                  then read (is_on_all_workspaces w) else ret false) ;;
     ws <- (if isFunction (get_workspace w)
            then read (get_workspace w) else ret None) ;;
     match isSticky, ws with
     | false, Some ws =>
         let activeWs :=
           match activeWorkspaceObject g with
           | Returns a => a
           | _ => None
           end in
         let needSwitch :=
           match activeWs with
           | Some a =>
               if isFunction (ws_index a) && isFunction (ws_index ws) then
                 match ws_index a, ws_index ws with
                 | Returns i, Returns j => negb (i =? j)
                 | _, _ => false
                 end
               else negb (Nat.eqb (ws_ref a) (ws_ref ws))
           | None => true
           end in
         if needSwitch
         then try_catch (activateWorkspace g ws timestamp) (ret tt)
         else ret tt
     | _, _ => ret tt
     end)
    (ret tt).

(** [if (typeof w.unminimize === 'function' && w.minimized) w.unminimize()]
    inside its own [try]. *)
Definition ensureUnminimized (w : MetaWindow) : M unit :=
  try_catch
    (if isFunction (unminimize w) && minimized w
     then call (Unminimize (win_ref w)) (unminimize w)
     else ret tt)
    (ret tt).

(** [_activateWindowById(id)] *)
Definition _activateWindowById (g : Global) (id : string) : M bool :=
  try_catch
    (w <- _findWindowById g id ;;
     match w with
     | None => ret false
     | Some w =>
         let timestamp := eventTimestamp g in
         followWorkspace g w timestamp ;;;
         ensureUnminimized w ;;;
         try_catch
           (if isFunction (activate w) then
              call (Activate (win_ref w) timestamp) (activate w) ;;; ret true
            else if isFunction (activate_full w) then
              user_time <- (if isFunction (get_current_time g)
                            then read (get_current_time g) else ret 0) ;;
              call (ActivateFull (win_ref w) timestamp user_time) (activate_full w) ;;;
              ret true
            else ret false)
           (ret false)
     end)
    (ret false).

(** [_resizeWindowById(id, width, height)] *)
Definition _resizeWindowById (g : Global) (id : string) (width height : Z) : M bool :=
  try_catch
    (w <- _findWindowById g id ;;
     match w with
     | None => ret false
     | Some w =>
         let ww := JS.toInt32 width in
         let hh := JS.toInt32 height in
         if negb ((0 <? ww) && (0 <? hh)) then ret false
         else
           let rect :=
             match get_frame_rect w with
             | Returns r => r
             | _ => None
             end in
           let '(x, y) :=
             match rect with
             | Some {| rect_x := Some x; rect_y := Some y |} => (x, y)
             | _ => (0, 0)
             end in
           ensureUnminimized w ;;;
           try_catch
             (if isFunction (move_resize_frame w) then
                call (MoveResizeFrame (win_ref w) true x y ww hh) (move_resize_frame w) ;;;
                ret true
              else ret false)
             (ret false)
     end)
    (ret false).

(** [global.workspace_manager], else [global.screen]. *)
Definition workspaceManagerObject (g : Global) : option WorkspaceManager :=
  match workspace_manager g with
  | Some wm => Some wm
  | None => screen g
  end.

(** [wm.get_workspace_by_index(idx)], else [wm.get_workspace(idx)]; a
    failure leaves [null]. *)
Definition workspaceByIndex (wm : WorkspaceManager) (idx : Z) : option Workspace :=
  match get_workspace_by_index wm idx with
  | Returns ws => ws
  | Raises => None
  | Absent =>
      match wm_get_workspace wm idx with
      | Returns ws => ws
      | _ => None
      end
  end.

(** [_moveWindowToWorkspaceById(id, index)] *)
Definition _moveWindowToWorkspaceById (g : Global) (id : string) (index : Z) : M bool :=
  try_catch
    (w <- _findWindowById g id ;;
     match w with
     | None => ret false
     | Some w =>
         match workspaceManagerObject g with
         | None => ret false
         | Some wm =>
             let idx := JS.toInt32 index in
             match workspaceByIndex wm idx with
             | None => ret false
             | Some ws =>
                 try_catch
                   (isSticky <- (if isFunction (is_on_all_workspaces w)
                                 then read (is_on_all_workspaces w) else ret false) ;;
                    if isSticky then ret true
                    else if isFunction (change_workspace_by_index w) then
                      call (ChangeWorkspaceByIndex (win_ref w) idx false)
                           (change_workspace_by_index w) ;;;
                      ret true
                    else if isFunction (change_workspace w) then
                      call (ChangeWorkspace (win_ref w) (ws_ref ws)) (change_workspace w) ;;;
                      ret true
                    else ret false)
                   (ret false)
             end
         end
     end)
    (ret false).

(** [_switchWorkspace(index)] *)
Definition _switchWorkspace (g : Global) (index : Z) : M bool :=
  try_catch
    (match workspaceManagerObject g with
     | None => ret false
     | Some wm =>
         let idx := JS.toInt32 index in
         if negb (0 <=? idx) then ret false
         else
           match workspaceByIndex wm idx with
           | None => ret false
           | Some ws =>
               let timestamp := eventTimestamp g in
               try_catch
                 (if isFunction (ws_activate ws) then
                    call (WsActivate (ws_ref ws) timestamp) (ws_activate ws) ;;; ret true
                  else
                    match display g with
                    | Some d =>
                        if isFunction (activate_workspace d) then
                          call (DisplayActivateWorkspace (ws_ref ws) timestamp)
                               (activate_workspace d) ;;;
                          ret true
                        else ret false
                    | None => ret false
                    end)
                 (ret false)
           end
     end)
    (ret false).

(* =================================================================== *)
(** ** The focus-cycle engine                                          *)
(* =================================================================== *)

Definition COPYQ_CLS : string := "copyq.copyq".

(** [it.desk === wsIdx || it.desk === -1] *)
Definition onWorkspace (wsIdx : Z) (it : Item.t) : bool :=
  (Item.desk it =? wsIdx) || (Item.desk it =? -1).

(** Position of the active window in a filtered list, with the start
    chosen when it is not there:
    [if (idx === -1) idx = (delta > 0) ? -1 : 0]. *)
Definition startIndex (activeId : string) (delta : Z) (items : list Item.t) : Z :=
  let idx := findIndex (fun it => sameId (Item.id it) activeId) items in
  if idx =? -1 then (if 0 <? delta then -1 else 0) else idx.

(** [t = n % len; if (t < 0) t += len] *)
Definition wrapIndex (n len : Z) : Z :=
  let t := JS.rem n len in
  if t <? 0 then t + len else t.

(** [_focusRelativeSameAppWindow(delta)] *)
Definition _focusRelativeSameAppWindow (g : Global) (delta : Z) : M bool :=
  try_catch
    (let wsIdx := _activeWorkspaceIndex g in
     let activeId := _activeWindowId g in
     if String.eqb activeId "" then ret false
     else
       activeWin <- _findWindowById g activeId ;;
       let activeCls := option_map _classInstance activeWin in
       all <- _listWindowsItems g ;;
       match all with
       | [] => ret false
       | _ :: _ =>
           let activeCls :=
             match activeCls with
             | Some c => Some c
             | None =>
                 option_map Item.cls
                   (find (fun it => sameId (Item.id it) activeId) all)
             end in
           match activeCls with
           | None => ret false
           | Some activeCls =>
               let items :=
                 filter (fun it => String.eqb (Item.cls it) activeCls
                                   && onWorkspace wsIdx it) all in
               match items with
               | [] => ret false
               | _ :: _ =>
                   let idx := startIndex activeId delta items in
                   let len := Z.of_nat (List.length items) in
                   let targetIndex :=
                     let t := if len =? 1 then 0 else JS.rem (idx + delta) len in
                     if t <? 0 then t + len else t in
                   match nth_error items (Z.to_nat targetIndex) with
                   | None => ret false
                   | Some target => _activateWindowById g (Item.id target)
                   end
               end
           end
       end)
    (ret false).

Definition _focusNextSameAppWindow (g : Global) : M bool :=
  _focusRelativeSameAppWindow g 1.

Definition _focusPrevSameAppWindow (g : Global) : M bool :=
  _focusRelativeSameAppWindow g (-1).

(** The [for (let step = 1; step <= len; step++)] loop shared by the
    other-class and any-class policies; [skip] is the policy's test for
    passing over a candidate, [todo] the number of iterations left. *)
Fixpoint scanFrom (g : Global) (skip : Item.t -> bool) (inWs : list Item.t)
         (idx delta : Z) (todo : nat) (step : Z) : M bool :=
  match todo with
  | O => ret false
  | S todo' =>
      let len := Z.of_nat (List.length inWs) in
      let targetIndex := wrapIndex (idx + delta * step) len in
      match nth_error inWs (Z.to_nat targetIndex) with
      | None => scanFrom g skip inWs idx delta todo' (step + 1)
      | Some cand =>
          if skip cand then scanFrom g skip inWs idx delta todo' (step + 1)
          else _activateWindowById g (Item.id cand)
      end
  end.

(** The candidate test of the other-class policy. *)
Definition skipOther (activeCls : string) (cand : Item.t) : bool :=
  String.eqb (Item.cls cand) COPYQ_CLS || String.eqb (Item.cls cand) activeCls.

(** The candidate test of the any-class policy. *)
Definition skipAny (activeId : string) (cand : Item.t) : bool :=
  String.eqb (Item.cls cand) COPYQ_CLS || sameId (Item.id cand) activeId.

(** [_focusRelativeOtherAppWindow(delta)] *)
Definition _focusRelativeOtherAppWindow (g : Global) (delta : Z) : M bool :=
  try_catch
    (let wsIdx := _activeWorkspaceIndex g in
     let activeId := _activeWindowId g in
     if String.eqb activeId "" then ret false
     else
       all <- _listWindowsItems g ;;
       match all with
       | [] => ret false
       | _ :: _ =>
           activeCls <-
             match find (fun it => sameId (Item.id it) activeId) all with
             | Some activeFound => ret (Some (Item.cls activeFound))
             | None =>
                 w <- _findWindowById g activeId ;;
                 ret (option_map _classInstance w)
             end ;;
           match activeCls with
           | None => ret false
           | Some activeCls =>
               let inWs := filter (onWorkspace wsIdx) all in
               match inWs with
               | [] => ret false
               | [only] =>
                   if negb (String.eqb (Item.cls only) activeCls)
                      && negb (String.eqb (Item.cls only) COPYQ_CLS)
                   then _activateWindowById g (Item.id only)
                   else ret false
               | _ :: _ :: _ =>
                   let idx := startIndex activeId delta inWs in
                   scanFrom g (skipOther activeCls) inWs idx delta (List.length inWs) 1
               end
           end
       end)
    (ret false).

Definition _focusNextOtherAppWindow (g : Global) : M bool :=
  _focusRelativeOtherAppWindow g 1.

Definition _focusPrevOtherAppWindow (g : Global) : M bool :=
  _focusRelativeOtherAppWindow g (-1).

(** [_focusRelativeAnyAppWindow(delta)] *)
Definition _focusRelativeAnyAppWindow (g : Global) (delta : Z) : M bool :=
  try_catch
    (let wsIdx := _activeWorkspaceIndex g in
     let activeId := _activeWindowId g in
     if String.eqb activeId "" then ret false
     else
       all <- _listWindowsItems g ;;
       match all with
       | [] => ret false
       | _ :: _ =>
           let inWs := filter (onWorkspace wsIdx) all in
           match inWs with
           | [] => ret false
           | _ :: _ =>
               let idx := startIndex activeId delta inWs in
               scanFrom g (skipAny activeId) inWs idx delta (List.length inWs) 1
           end
       end)
    (ret false).

Definition _focusNextAnyAppWindow (g : Global) : M bool :=
  _focusRelativeAnyAppWindow g 1.

Definition _focusPrevAnyAppWindow (g : Global) : M bool :=
  _focusRelativeAnyAppWindow g (-1).

(** [_focusByCls(cls)]: 0 focused, 1 no match, 2 activation failed. *)
Definition _focusByCls (g : Global) (cls : string) : M Z :=
  try_catch
    (if String.eqb (JS.trim cls) "" then ret 1
     else
       let targetCls := JS.toLowerCase (JS.trim cls) in
       all <- _listWindowsItems g ;;
       match all with
       | [] => ret 1
       | _ :: _ =>
           let wsIdx := _activeWorkspaceIndex g in
           let matches :=
             filter (fun it => String.eqb (JS.toLowerCase (Item.cls it)) targetCls) all in
           match matches with
           | [] => ret 1
           | _ :: _ =>
               let inWs := filter (onWorkspace wsIdx) matches in
               let offWs := filter (fun it => negb (onWorkspace wsIdx it)) matches in
               let pick :=
                 match inWs with
                 | it :: _ => Some it
                 | [] => match offWs with it :: _ => Some it | [] => None end
                 end in
               match pick with
               | None => ret 1
               | Some pick =>
                   ok <- _activateWindowById g (Item.id pick) ;;
                   ret (if ok then 0 else 2)
               end
           end
       end)
    (ret 2).

(* =================================================================== *)
(** ** The launch tracker                                              *)
(* =================================================================== *)

Definition KITTY_PATH : string := "/opt/kitty/linux-package/bin/kitty".

(** [Math.max(...keys)], 0 for no keys. *)
Definition maxKeyOf (items : list Item.t) : Z :=
  match map Item.key items with
  | [] => 0
  | k :: ks => fold_left Z.max ks k
  end.

(** The closure [performActions(win)] of [_launchHere].  The deferred
    resize is logged with the monitor geometry it was computed from; the
    scaling by 0.4 and 0.5 is floating-point and stays outside. *)
Definition performActions (g : Global) (path : string) (win : MetaWindow) : M unit :=
  let currentWs := _activeWorkspaceIndex g in
  let winWs := _workspaceIndex win in
  (if negb (winWs =? currentWs) && negb (winWs =? -1)
   then _moveWindowToWorkspaceById g (_toHexId g win) currentWs ;;; ret tt
   else ret tt) ;;;
  _activateWindowById g (_toHexId g win) ;;;
  if JS.includes KITTY_PATH path then
    match display g with
    | None => throw
    | Some d =>
        monitorIndex <- read (get_current_monitor d) ;;
        geometry <- read (get_monitor_geometry d monitorIndex) ;;
        ([TimeoutAddResize 100 (win_ref win) (fst geometry) (snd geometry)], Ret tt)
    end
  else ret tt.

(** One [notify::wm-class] subscription with its 5-second timer:
    the window it is connected to, whether [notifyId] is still connected,
    and whether the timer has yet to fire. *)
Record Notify : Type := {
  notifyWin : nat;
  notifyConnected : bool;
  subTimeoutPending : bool;
}.

(** What one call of [_launchHere] leaves registered with the host:
    [handlerConnected] for [handlerId], [timeoutPending] for [timeoutId],
    and the per-window subscriptions in the order they were made. *)
Record LaunchWatch : Type := {
  path : string;
  appId : string;
  maxKey : Z;
  handlerConnected : bool;
  timeoutPending : bool;
  notifies : list Notify;
}.

(** What the host delivers to a watch, each with the window system as it
    is at that moment. *)
Inductive Event : Type :=
| WindowCreated (g : Global) (win : MetaWindow)
| WmClassChanged (g : Global) (win : MetaWindow)
| SubTimeout (n : nat)
| OuterTimeout.

(** What a callback of the watch did, in order. *)
Inductive Note : Type :=
| PerformActions (w : nat) (log : list Effect) (raised : bool)
| DisconnectCreated
| SourceRemoveTimeout
| ConnectNotify (n : nat) (w : nat)
| DisconnectNotify (n : nat)
| AddSubTimeout (n : nat) (seconds : Z).

Definition releaseOuter (lw : LaunchWatch) : LaunchWatch :=
  {| path := path lw; appId := appId lw; maxKey := maxKey lw;
     handlerConnected := false;
     timeoutPending := false;
     notifies := notifies lw |}.

Definition setNotifies (lw : LaunchWatch) (ns : list Notify) : LaunchWatch :=
  {| path := path lw; appId := appId lw; maxKey := maxKey lw;
     handlerConnected := handlerConnected lw;
     timeoutPending := timeoutPending lw;
     notifies := ns |}.

(** [l[n] = f(l[n])] *)
Fixpoint updateNth {A : Type} (n : nat) (f : A -> A) (l : list A) : list A :=
  match l, n with
  | [], _ => []
  | x :: r, O => f x :: r
  | x :: r, S k => x :: updateNth k f r
  end.

Definition disconnected (n : Notify) : Notify :=
  {| notifyWin := notifyWin n; notifyConnected := false;
     subTimeoutPending := subTimeoutPending n |}.

Definition expired (n : Notify) : Notify :=
  {| notifyWin := notifyWin n; notifyConnected := false;
     subTimeoutPending := false |}.

(** The ['window-created'] callback. *)
Definition onWindowCreated (g : Global) (win : MetaWindow) (lw : LaunchWatch)
  : LaunchWatch * list Note :=
  let winCls := _classInstance win in
  let winKey := _creationOrderKey g win in
  if String.eqb winCls (JS.toLowerCase (appId lw)) && (maxKey lw <? winKey) then
    match performActions g (path lw) win with
    | (log, Ret _) =>
        (releaseOuter lw,
         [PerformActions (win_ref win) log false; DisconnectCreated; SourceRemoveTimeout])
    | (log, Throw) => (lw, [PerformActions (win_ref win) log true])
    end
  else if maxKey lw <? winKey then
    let n := List.length (notifies lw) in
    (setNotifies lw
       (notifies lw ++ [{| notifyWin := win_ref win; notifyConnected := true;
                           subTimeoutPending := true |}])%list,
     [ConnectNotify n (win_ref win); AddSubTimeout n 5])
  else (lw, []).

(** The ['notify::wm-class'] callback of subscription [n]. *)
Definition onNotifyWmClass (g : Global) (win : MetaWindow) (n : nat) (lw : LaunchWatch)
  : LaunchWatch * list Note :=
  let newCls := _classInstance win in
  if String.eqb newCls (JS.toLowerCase (appId lw)) then
    match performActions g (path lw) win with
    | (log, Ret _) =>
        (setNotifies (releaseOuter lw) (updateNth n disconnected (notifies lw)),
         [PerformActions (win_ref win) log false; DisconnectCreated;
          DisconnectNotify n; SourceRemoveTimeout])
    | (log, Throw) => (lw, [PerformActions (win_ref win) log true])
    end
  else (lw, []).

(** Emission of [notify::wm-class] by [win]: every subscription of the
    watch that is connected to that window runs, oldest first. *)
Fixpoint emitWmClass (g : Global) (win : MetaWindow) (ids : list nat) (lw : LaunchWatch)
  : LaunchWatch * list Note :=
  match ids with
  | [] => (lw, [])
  | n :: rest =>
      let '(lw1, notes1) :=
        match nth_error (notifies lw) n with
        | Some s =>
            if Nat.eqb (notifyWin s) (win_ref win) && notifyConnected s
            then onNotifyWmClass g win n lw
            else (lw, [])
        | None => (lw, [])
        end in
      let '(lw2, notes2) := emitWmClass g win rest lw1 in
      (lw2, (notes1 ++ notes2)%list)
  end.

(** One turn of the host's event loop, as far as the watch is concerned.
    A signal reaches a callback only while it is connected, a timer fires
    only while it is pending. *)
Definition step (lw : LaunchWatch) (ev : Event) : LaunchWatch * list Note :=
  match ev with
  | WindowCreated g win =>
      if handlerConnected lw then onWindowCreated g win lw else (lw, [])
  | WmClassChanged g win =>
      emitWmClass g win (seq 0 (List.length (notifies lw))) lw
  | SubTimeout n =>
      match nth_error (notifies lw) n with
      | Some s =>
          if subTimeoutPending s
          then (setNotifies lw (updateNth n expired (notifies lw)), [DisconnectNotify n])
          else (lw, [])
      | None => (lw, [])
      end
  | OuterTimeout =>
      if timeoutPending lw then (releaseOuter lw, [DisconnectCreated]) else (lw, [])
  end.

Fixpoint run (lw : LaunchWatch) (evs : list Event) : LaunchWatch * list Note :=
  match evs with
  | [] => (lw, [])
  | ev :: rest =>
      let '(lw1, notes1) := step lw ev in
      let '(lw2, notes2) := run lw1 rest in
      (lw2, (notes1 ++ notes2)%list)
  end.

(** [_launchHere(path, appId)]: the boolean it returns and the watch it
    leaves behind when it gets that far. *)
Definition _launchHere (g : Global) (path appId : string) : M (bool * option LaunchWatch) :=
  currentItems <- _listWindowsItems g ;;
  let maxKey := maxKeyOf currentItems in
  spawned <- try_catch
               (call (Spawn path) (spawn_command_line_async g path) ;;; ret true)
               (ret false) ;;
  if negb spawned then ret (false, None)
  else
    match display g with
    | None => throw
    | Some d =>
        call ConnectWindowCreated (connect_window_created d) ;;;
        ([TimeoutAddSeconds 10],
         Ret (true,
              Some {| path := path; appId := appId; maxKey := maxKey;
                      handlerConnected := true; timeoutPending := true;
                      notifies := [] |}))
    end.

(* =================================================================== *)
(** ** The exported D-Bus methods, as [enable()] wires them            *)
(* =================================================================== *)

Definition ListWindows (g : Global) : M string := _listWindowsText g.
Definition ActivateById (g : Global) (id : string) : M bool := _activateWindowById g id.
Definition GetActiveWorkspace (g : Global) : M string :=
  ret (decimal (_activeWorkspaceIndex g)).
Definition GetActiveWindow (g : Global) : M string := ret (_activeWindowId g).
Definition ResizeById (g : Global) (id : string) (width height : Z) : M bool :=
  _resizeWindowById g id width height.
Definition MoveToWorkspaceById (g : Global) (id : string) (index : Z) : M bool :=
  _moveWindowToWorkspaceById g id index.
Definition SwitchWorkspace (g : Global) (index : Z) : M bool := _switchWorkspace g index.
Definition FocusNextSameAppWindow (g : Global) : M bool := _focusNextSameAppWindow g.
Definition FocusPrevSameAppWindow (g : Global) : M bool := _focusPrevSameAppWindow g.
Definition FocusNextOtherAppWindow (g : Global) : M bool := _focusNextOtherAppWindow g.
Definition FocusPrevOtherAppWindow (g : Global) : M bool := _focusPrevOtherAppWindow g.
Definition FocusNextAnyAppWindow (g : Global) : M bool := _focusNextAnyAppWindow g.
Definition FocusPrevAnyAppWindow (g : Global) : M bool := _focusPrevAnyAppWindow g.
Definition FocusByCls (g : Global) (cls : string) : M Z := _focusByCls g cls.
Definition LaunchHere (g : Global) (path appId : string) : M bool :=
  r <- _launchHere g path appId ;;
  ret (fst r).

End Extension.

(* ===================================================================== *)
(** ** The listing before the snapshot was split off                     *)
(* ===================================================================== *)

(** The source tree also holds the extension as it stood with seven
    exported methods.  Its [_listWindows] collects, sorts and prints in one
    body and guards nothing; the comparator and the loop are the ones
    [_listWindowsItems] has now. *)
Module Original.
Section Listing.
Variable localeCompare : string -> string -> Z.

(** [_listWindows()] *)
Definition _listWindows (g : Global) : M (list string) :=
  actors <- read (get_window_actors g) ;;
  let items := sort (compareItems localeCompare) (collectItems g actors) in
  ret (map (fun it => Item.id it ++ " " ++ decimal (Item.desk it) ++ " "
                      ++ Item.cls it ++ " " ++ Item.title it) items).

(** [_listWindowsText()] *)
Definition _listWindowsText (g : Global) : M string :=
  try_catch
    (lines <- _listWindows g ;;
     ret (String.concat (String "010" EmptyString) lines))
    (ret "").

Definition ListWindows (g : Global) : M string := _listWindowsText g.

End Listing.
End Original.

(* ===================================================================== *)
(** ** Life cycle: [enable()] and [disable()]                            *)
(* ===================================================================== *)

(** The object [Gio.DBusExportedObject.wrapJSObject] returns. *)
Record ExportedObject : Type := {
  impl_ref : nat;
  export_ : method unit;
  unexport : method unit;
}.

(** What the life cycle uses of [Gio]: [DBusNodeInfo.new_for_xml] (with
    the read of [interfaces[0]]), [DBusExportedObject.wrapJSObject],
    [bus_own_name] and [bus_unown_name]. *)
Record Gio : Type := {
  new_for_xml : method unit;
  wrapJSObject : method ExportedObject;
  bus_own_name : method Z;
  bus_unown_name : Z -> method unit;
}.

(** Calls on the session bus, in the order they are made. *)
Inductive BusCall : Type :=
| BusOwnName
| Export (impl : nat)
| LogError
| Unexport (impl : nat)
| BusUnownName (nameId : Z).

(** The fields of [WMCtrlLikeExtension]; [None] is [null]. *)
Record ExtensionState : Type := {
  _nameId : Z;
  _impl : option ExportedObject;
}.

(** [constructor()] *)
Definition constructor : ExtensionState := {| _nameId := 0; _impl := None |}.

(** [enable()]: the fields afterwards, the bus calls made, and whether an
    exception left the method. *)
Definition enable (gio : Gio) (e : ExtensionState) : ExtensionState * list BusCall * bool :=
  match new_for_xml gio with
  | Returns _ =>
      match wrapJSObject gio with
      | Returns impl =>
          let e := {| _nameId := _nameId e; _impl := Some impl |} in
          match bus_own_name gio with
          | Returns nameId => ({| _nameId := nameId; _impl := _impl e |}, [BusOwnName], false)
          | Raises => (e, [BusOwnName], true)
          | Absent => (e, [], true)
          end
      | _ => (e, [], true)
      end
  | _ => (e, [], true)
  end.

(** The bus-acquired callback handed to [bus_own_name]; it reads
    [this._impl] when it runs. *)
Definition onBusAcquired (e : ExtensionState) : list BusCall :=
  match _impl e with
  | Some impl =>
      match export_ impl with
      | Returns _ => [Export (impl_ref impl)]
      | Raises => [Export (impl_ref impl); LogError]
      | Absent => [LogError]
      end
  | None => [LogError]
  end.

(** [disable()] *)
Definition disable (gio : Gio) (e : ExtensionState) : ExtensionState * list BusCall :=
  let '(e, calls1) :=
    match _impl e with
    | Some impl =>
        ({| _nameId := _nameId e; _impl := None |},
         match unexport impl with
         | Absent => []
         | _ => [Unexport (impl_ref impl)]
         end)
    | None => (e, [])
    end in
  let '(e, calls2) :=
    if negb (_nameId e =? 0) then
      ({| _nameId := 0; _impl := _impl e |},
       match bus_unown_name gio (_nameId e) with
       | Absent => []
       | _ => [BusUnownName (_nameId e)]
       end)
    else (e, []) in
  (e, (calls1 ++ calls2)%list).

(* ===================================================================== *)
(** * The vocabulary of the properties                                   *)
(* ===================================================================== *)

(** *** Characters and numerals *)

(** A character of a canonical id: a lower-case digit of radix 16. *)
Definition isLowerHex (c : ascii) : bool :=
  let n := N_of_ascii c in
  ((48 <=? n) && (n <=? 57) || (97 <=? n) && (n <=? 102))%N.

Fixpoint allChars (p : ascii -> bool) (s : string) : bool :=
  match s with
  | EmptyString => true
  | String c r => p c && allChars p r
  end.

(** Neither white space nor upper case: [trim] and [toLowerCase] leave
    such a character alone. *)
Definition isPlain (c : ascii) : bool :=
  negb (JS.isWhiteSpace c) && negb (JS.isUpper c).

(** Ink: anything that is not white space. *)
Definition isInk (c : ascii) : bool := negb (JS.isWhiteSpace c).

(** What may follow a numeral without changing how it is read: nothing,
    or a character that is neither a digit of radix 16 nor an [x]. *)
Definition stops (rest : string) : Prop :=
  match rest with
  | EmptyString => True
  | String c _ => JS.hexDigitValue c = None /\ c <> "x"%char /\ c <> "X"%char
  end.

(** The canonical form of an id: [0x] and the lower-case digits of radix 16. *)
Definition canonical (n : Z) : string := "0x" ++ JS.toString16 n.

Definition dropSign (s : string) : string :=
  match s with
  | String c r => if Ascii.eqb c "-" || Ascii.eqb c "+" then r else s
  | EmptyString => s
  end.

Definition drop0x (s : string) : string :=
  if JS.startsWith "0x" s || JS.startsWith "0X" s then JS.slice 2 s else s.

Definition headIsDigit (s : string) : bool :=
  match s with
  | String c _ => match JS.hexDigitValue c with Some _ => true | None => false end
  | EmptyString => false
  end.

(** A digit of radix 16 can be read: trim and lower-case the input, drop
    one [0x]; then, as [parseInt] does, skip white space, one sign and one
    more [0x]; a digit must stand there. *)
Definition readable (id : string) : bool :=
  let s := JS.toLowerCase (JS.trim id) in
  let s := if JS.startsWith "0x" s then JS.slice 2 s else s in
  headIsDigit (drop0x (dropSign (JS.trimStart s))).

(** A numeric input in the words of the design (C5), "any case/prefix
    variant of a hex id": after trimming, an optional [0x] or [0X] and then
    digits of radix 16 only, at least one. *)
Definition isHexId (s : string) : bool :=
  let t := JS.trim s in
  let d := if JS.startsWith "0x" t || JS.startsWith "0X" t then JS.slice 2 t else t in
  match d with
  | EmptyString => false
  | String _ _ =>
      allChars
        (fun c => match JS.hexDigitValue c with Some _ => true | None => false end) d
  end.

(** *** The order of a snapshot *)

(** [a] may stand before [b] under the comparator [cmp]. *)
Definition before {A : Type} (cmp : A -> A -> Z) (a b : A) : Prop := cmp a b <= 0.

(** What [localeCompare] must satisfy for [sort] to have a defined result:
    it compares as a strict total order, 0 only on equal strings. *)
Record Collation (lc : string -> string -> Z) : Prop := {
  lc_refl : forall s, lc s s = 0;
  lc_zero : forall s t, lc s t = 0 -> s = t;
  lc_flip : forall s t, lc s t < 0 <-> 0 < lc t s;
  lc_trans : forall s t u, lc s t < 0 -> lc t u < 0 -> lc s u < 0;
}.

(** Comparison by code units, the collation of a shell built without
    locale support. *)
Fixpoint codeUnitCompare (s t : string) : Z :=
  match s, t with
  | EmptyString, EmptyString => 0
  | EmptyString, String _ _ => -1
  | String _ _, EmptyString => 1
  | String a s', String b t' =>
      let x := Z.of_N (N_of_ascii a) in
      let y := Z.of_N (N_of_ascii b) in
      if x <? y then -1 else if y <? x then 1 else codeUnitCompare s' t'
  end.

(** Ascending order of strings under the host's collation. *)
Definition strLt (localeCompare : string -> string -> Z) (s t : string) : Prop :=
  localeCompare s t < 0.

Definition strLe (localeCompare : string -> string -> Z) (s t : string) : Prop :=
  localeCompare s t <= 0.

(** One step of a lexicographic comparison: strictly smaller here, or equal
    here and in order on what follows. *)
Definition lex {X : Type} (lt : X -> X -> Prop) (x y : X) (rest : Prop) : Prop :=
  lt x y \/ (x = y /\ rest).

(** Ascending by the tuple [(orderKey, workspaceIndex, classKey, title, id)]. *)
Definition tupleLe (localeCompare : string -> string -> Z) (a b : Item.t) : Prop :=
  lex Z.lt (Item.key a) (Item.key b)
    (lex Z.lt (Item.desk a) (Item.desk b)
       (lex (strLt localeCompare) (Item.cls a) (Item.cls b)
          (lex (strLt localeCompare) (Item.title a) (Item.title b)
             (strLe localeCompare (Item.id a) (Item.id b))))).

(** *** The focus cycle, as the design states it *)

(** [index] is where stepping starts in [items]: the first position that
    holds the active id, and when none does, one before the first item for a
    forward step and the first item otherwise. *)
Definition activePosition (activeId : string) (delta : Z) (items : list Item.t) (index : Z)
  : Prop :=
  (exists i it,
      nth_error items i = Some it /\ Item.id it = activeId
      /\ (forall j it', (j < i)%nat -> nth_error items j = Some it' -> Item.id it' <> activeId)
      /\ index = Z.of_nat i)
  \/ ((forall it, In it items -> Item.id it <> activeId)
      /\ ((0 < delta /\ index = -1) \/ (delta <= 0 /\ index = 0))).

(** The item [k] steps of [delta] away from [index], going round. *)
Definition around (items : list Item.t) (index delta k : Z) : option Item.t :=
  nth_error items (Z.to_nat ((index + delta * k) mod Z.of_nat (List.length items))).

(** [r] is the first item, within one full circuit from [index], that
    satisfies [ok]; [None] when the circuit holds no such item. *)
Definition firstCandidate (items : list Item.t) (index delta : Z)
           (ok : Item.t -> Prop) (r : option Item.t) : Prop :=
  let len := Z.of_nat (List.length items) in
  match r with
  | Some cand =>
      exists k, 1 <= k <= len /\ around items index delta k = Some cand /\ ok cand
                /\ forall j c, 1 <= j < k -> around items index delta j = Some c -> ~ ok c
  | None =>
      forall k c, 1 <= k <= len -> around items index delta k = Some c -> ~ ok c
  end.

(** What an operation does once its candidate is settled. *)
Definition activateOrFail (g : Global) (r : option Item.t) : M bool :=
  match r with
  | Some cand => _activateWindowById g (Item.id cand)
  | None => ret false
  end.

(** *** Resizing *)

(** The range of a D-Bus [i] argument. *)
Definition isInt32 (n : Z) : Prop := -2147483648 <= n < 2147483648.

(** Where the frame of [w] stands, [(0, 0)] when that cannot be read. *)
Definition framePosition (w : MetaWindow) : Z * Z :=
  match get_frame_rect w with
  | Returns (Some r) =>
      match rect_x r, rect_y r with
      | Some x, Some y => (x, y)
      | _, _ => (0, 0)
      end
  | _ => (0, 0)
  end.

(** *** What a launch watch holds on to *)

(** The windows the watch holds a class-change subscription on. *)
Definition watched (lw : LaunchWatch) : list nat := map notifyWin (notifies lw).

(** [h] was announced to the watch as a new window with an order key above
    the threshold. *)
Definition createdAfter (lw : LaunchWatch) (evs : list Event) (h : nat) : Prop :=
  exists g win,
    In (WindowCreated g win) evs /\ win_ref win = h
    /\ maxKey lw < _creationOrderKey g win.

(** The window-creation subscription is gone and the outer timer with it:
    the watch has matched or timed out. *)
Definition outerReleased (lw : LaunchWatch) : Prop :=
  handlerConnected lw = false /\ timeoutPending lw = false.

(** A class-change subscription that is disconnected and whose timer has
    fired. *)
Definition spent (s : Notify) : Prop :=
  notifyConnected s = false /\ subTimeoutPending s = false.

(** Nothing of the watch is left with the host. *)
Definition released (lw : LaunchWatch) : Prop :=
  outerReleased lw /\ Forall spent (notifies lw).

(** What holds of every watch the tracker can reach: the creation
    subscription lives only while the outer timer is pending, and a
    class-change subscription only while its own timer is. *)
Definition wellFormed (lw : LaunchWatch) : Prop :=
  (handlerConnected lw = true -> timeoutPending lw = true)
  /\ Forall (fun s => notifyConnected s = true -> subTimeoutPending s = true) (notifies lw).

(** *** A small desktop to run the operations on *)

Definition workspaceAt (i : Z) : Workspace :=
  {| ws_ref := Z.to_nat i; ws_index := Returns i; ws_activate := Returns tt |}.

(** An ordinary application window: X11 id [xid], creation sequence [seq],
    class [cls] (instance and class alike), on workspace [ws]. *)
Definition appWindow (ref : nat) (xid seq : Z) (cls : string) (ws : Z) : MetaWindow :=
  {| win_ref := ref;
     get_xwindow := Returns xid;
     get_stable_sequence := Returns seq;
     get_id := Absent;
     hash := Absent;
     get_wm_class_instance := Returns (Some cls);
     get_wm_class := Returns (Some cls);
     window_app_id := Returns None;
     is_on_all_workspaces := Returns false;
     get_workspace := Returns (Some (workspaceAt ws));
     skip_taskbar := Returns false;
     get_window_type := Returns NORMAL;
     get_title := Returns (Some cls);
     get_frame_rect := Returns (Some {| rect_x := Some 10; rect_y := Some 20 |});
     minimized := false;
     unminimize := Returns tt;
     activate := Returns tt;
     activate_full := Absent;
     move_resize_frame := Returns tt;
     change_workspace_by_index := Returns tt;
     change_workspace := Absent |}.

(** The same window as a dock: not listed in the registry. *)
Definition asDock (w : MetaWindow) : MetaWindow :=
  {| win_ref := win_ref w;
     get_xwindow := get_xwindow w;
     get_stable_sequence := get_stable_sequence w;
     get_id := get_id w;
     hash := hash w;
     get_wm_class_instance := get_wm_class_instance w;
     get_wm_class := get_wm_class w;
     window_app_id := window_app_id w;
     is_on_all_workspaces := Returns true;
     get_workspace := get_workspace w;
     skip_taskbar := skip_taskbar w;
     get_window_type := Returns DOCK;
     get_title := get_title w;
     get_frame_rect := get_frame_rect w;
     minimized := minimized w;
     unminimize := unminimize w;
     activate := activate w;
     activate_full := activate_full w;
     move_resize_frame := move_resize_frame w;
     change_workspace_by_index := change_workspace_by_index w;
     change_workspace := change_workspace w |}.

Definition managerAt (active : Z) : WorkspaceManager :=
  {| get_active_workspace := Returns (Some (workspaceAt active));
     get_workspace_by_index := fun i => Returns (Some (workspaceAt i));
     wm_get_workspace := fun _ => Absent |}.

(** A session showing [windows] (in stacking order), workspace [active]
    current and [focus] focused; timestamps are 7. *)
Definition desktop (windows : list MetaWindow) (active : Z) (focus : option MetaWindow)
  : Global :=
  {| get_window_actors := Returns (map Some windows);
     workspace_manager := Some (managerAt active);
     screen := None;
     display :=
       Some {| get_focus_window := Returns focus;
               focus_window := Absent;
               get_current_time_roundtrip := Returns 7;
               activate_workspace := Absent;
               get_current_monitor := Returns 0;
               get_monitor_geometry := fun _ => Returns (1920, 1080);
               connect_window_created := Returns tt |};
     get_current_time := Absent;
     clutter_get_current_event_time := Absent;
     spawn_command_line_async := fun _ => Returns tt;
     date_now := 1700000000000 |}.

(** A session whose window enumeration raises. *)
Definition brokenDesktop : Global :=
  {| get_window_actors := Raises;
     workspace_manager := Some (managerAt 0);
     screen := None;
     display := None;
     get_current_time := Absent;
     clutter_get_current_event_time := Absent;
     spawn_command_line_async := fun _ => Returns tt;
     date_now := 1700000000000 |}.

Definition winA1 : MetaWindow := appWindow 1 257 1 "a" 0.
Definition winA2 : MetaWindow := appWindow 2 258 2 "a" 0.
Definition winB1 : MetaWindow := appWindow 3 259 3 "b" 0.
Definition winCopyQ : MetaWindow := appWindow 4 260 4 "copyq" 0.
Definition winPanel : MetaWindow := asDock (appWindow 9 265 9 "a" 0).

(** A session without a display object. *)
Definition headlessDesktop : Global :=
  {| get_window_actors := Returns [Some winA1];
     workspace_manager := Some (managerAt 0);
     screen := None;
     display := None;
     get_current_time := Absent;
     clutter_get_current_event_time := Absent;
     spawn_command_line_async := fun _ => Returns tt;
     date_now := 1700000000000 |}.

(** A watch for application [b.b] set up while A1, A2 and B1 were open. *)
Definition watchB : LaunchWatch :=
  {| path := "xterm"; appId := "b.b"; maxKey := 3;
     handlerConnected := true; timeoutPending := true; notifies := [] |}.

(** Windows that appear after the launch: one whose class is not the
    expected one yet, and the launched one. *)
Definition winSlow : MetaWindow := appWindow 5 261 5 "x" 0.
Definition winSlowRenamed : MetaWindow := appWindow 5 261 5 "b" 0.
Definition winLaunched : MetaWindow := appWindow 6 262 6 "b" 0.

(** *** Further vocabulary and fixtures *)

(** The windows of an enumeration that the registry lists, in the order of
    the enumeration. *)
Definition eligibleWindows (actors : list (option MetaWindow)) : list MetaWindow :=
  flat_map (fun actor =>
              match actor with
              | Some w => if _isTasklistWindow w then [w] else []
              | None => []
              end) actors.

(** The spellings of an id that differ from the canonical one only by the
    case of letters and by the prefix: none, [0x] or [0X]. *)
Definition spells (input : string) (id : string) : Prop :=
  exists n pre s,
    id = canonical n /\ input = pre ++ s
    /\ JS.toLowerCase s = JS.toString16 n
    /\ (pre = "" \/ pre = "0x" \/ pre = "0X").

(** The match [FocusByCls] settles on: the first one that is on the
    workspace or pinned, and when there is none, the first one. *)
Definition preferred (wsIdx : Z) (matches : list Item.t) : option Item.t :=
  hd_error (filter (onWorkspace wsIdx) matches ++ matches).

(** Creation order: ascending order keys. *)
Definition keyLe (a b : Item.t) : Prop := Item.key a <= Item.key b.

(** A second window of class [b.b], on workspace 1. *)
Definition winB2 : MetaWindow := appWindow 7 263 7 "b" 1.

(** A window that reports nothing about itself but a hash of 0. *)
Definition winBare : MetaWindow :=
  {| win_ref := 8;
     get_xwindow := Absent;
     get_stable_sequence := Absent;
     get_id := Absent;
     hash := Returns 0;
     get_wm_class_instance := Absent;
     get_wm_class := Absent;
     window_app_id := Absent;
     is_on_all_workspaces := Absent;
     get_workspace := Absent;
     skip_taskbar := Absent;
     get_window_type := Absent;
     get_title := Absent;
     get_frame_rect := Absent;
     minimized := false;
     unminimize := Absent;
     activate := Absent;
     activate_full := Absent;
     move_resize_frame := Absent;
     change_workspace_by_index := Absent;
     change_workspace := Absent |}.

(** A bus on which every call succeeds; the name id handed out is 42. *)
Definition sessionBus : Gio :=
  {| new_for_xml := Returns tt;
     wrapJSObject := Returns {| impl_ref := 1; export_ := Returns tt; unexport := Returns tt |};
     bus_own_name := Returns 42;
     bus_unown_name := fun _ => Returns tt |}.

(* ===================================================================== *)
(** * Properties                                                         *)
(* ===================================================================== *)

(** ** Strings and numerals *)

Example parseInt16_reads_prefix : JS.parseInt16 "1fzz" = Some 31.
Proof. reflexivity. Qed.

Example parseInt16_sign_and_prefix : JS.parseInt16 " -0XfF" = Some (-255).
Proof. reflexivity. Qed.

Example parseInt16_NaN_on_text : JS.parseInt16 "x1" = None.
Proof. reflexivity. Qed.

Example parseInt16_NaN_on_bare_prefix : JS.parseInt16 "0x" = None.
Proof. reflexivity. Qed.

Example toString16_positive : JS.toString16 16290 = "3fa2".
Proof. reflexivity. Qed.

Example toString16_negative : JS.toString16 (-255) = "-ff".
Proof. reflexivity. Qed.

Example toInt32_wraps : JS.toInt32 4294967291 = -5.
Proof. reflexivity. Qed.

Example trim_both_ends : JS.trim "  0xAB " = "0xAB".
Proof. reflexivity. Qed.

Example normalizeId_upper_case : _normalizeIdString " 0X3FA2 " = Some "0x3fa2".
Proof. reflexivity. Qed.

Example normalizeId_text : _normalizeIdString "window" = None.
Proof. reflexivity. Qed.

Example classInstance_falls_back :
  _classInstance (asDock winA1) = "a.a"
  /\ _toHexId (desktop [] 0 None) winA1 = "0x101"
  /\ _creationOrderKey (desktop [] 0 None) winA1 = 1.
Proof. repeat split; reflexivity. Qed.

Example listing_is_sorted_by_key :
  ListWindows codeUnitCompare (desktop [winB1; winA2; winA1] 0 (Some winA1))
  = ret ("0x101 0 a.a a" ++ String "010" ("0x102 0 a.a a" ++ String "010" "0x103 0 b.b b")).
Proof. reflexivity. Qed.

Example focusByCls_off_workspace :
  FocusByCls codeUnitCompare (desktop [winB1; winA1] 1 (Some winB1)) "B.b"
  = ([WsActivate 0 7; Activate (win_ref winB1) 7], Ret 0)
  /\ FocusByCls codeUnitCompare (desktop [winB1; winA1] 1 (Some winB1)) "foo.foo"
     = ([], Ret 1).
Proof. split; reflexivity. Qed.

Module JSFacts.
Import JS.

Ltac by_cases_on_char c :=
  destruct c as [[] [] [] [] [] [] [] []]; try reflexivity; try discriminate.

Lemma lowerHex_plain c : isLowerHex c = true -> isPlain c = true.
Proof. by_cases_on_char c. Qed.

Lemma lowerHex_value c : isLowerHex c = true -> exists d, hexDigitValue c = Some d.
Proof. by_cases_on_char c; intros _; eexists; reflexivity. Qed.

Lemma lowerHex_not_sign c :
  isLowerHex c = true -> c <> "-"%char /\ c <> "+"%char /\ c <> "x"%char /\ c <> "X"%char.
Proof. by_cases_on_char c; intros _; repeat split; discriminate. Qed.

Lemma lowerChar_whitespace c : isWhiteSpace (lowerChar c) = isWhiteSpace c.
Proof. by_cases_on_char c. Qed.

Lemma lowerChar_plain c : isPlain c = true -> lowerChar c = c.
Proof. by_cases_on_char c. Qed.

Lemma hexDigitChar_spec d :
  (d < 16)%N ->
  isLowerHex (hexDigitChar d) = true /\ hexDigitValue (hexDigitChar d) = Some (Z.of_N d).
Proof.
  intros H.
  assert (E : (d = 0 \/ d = 1 \/ d = 2 \/ d = 3 \/ d = 4 \/ d = 5 \/ d = 6 \/ d = 7
               \/ d = 8 \/ d = 9 \/ d = 10 \/ d = 11 \/ d = 12 \/ d = 13 \/ d = 14
               \/ d = 15)%N) by lia.
  repeat (destruct E as [E|E]; [subst d; split; reflexivity|]).
  subst d; split; reflexivity.
Qed.


Lemma allChars_app p a b : allChars p (a ++ b) = allChars p a && allChars p b.
Proof.
  induction a as [|c a IH]; simpl; [reflexivity|].
  rewrite IH. now rewrite andb_assoc.
Qed.

Lemma allChars_weaken (p q : ascii -> bool) s :
  (forall c, p c = true -> q c = true) -> allChars p s = true -> allChars q s = true.
Proof.
  intros Hpq. induction s as [|c s IH]; simpl; [reflexivity|].
  intros H. apply andb_true_iff in H as [Hc Hs].
  now rewrite (Hpq _ Hc), IH.
Qed.

Lemma toLowerCase_app a b : toLowerCase (a ++ b) = toLowerCase a ++ toLowerCase b.
Proof. induction a as [|c a IH]; simpl; [reflexivity|now rewrite IH]. Qed.

Lemma toLowerCase_plain s : allChars isPlain s = true -> toLowerCase s = s.
Proof.
  induction s as [|c s IH]; simpl; [reflexivity|].
  intros H. apply andb_true_iff in H as [Hc Hs].
  now rewrite (lowerChar_plain _ Hc), IH.
Qed.

Lemma plain_ink c : isPlain c = true -> isInk c = true.
Proof. unfold isPlain, isInk. intros H. now apply andb_true_iff in H. Qed.

Lemma trimStart_ink c r : isInk c = true -> trimStart (String c r) = String c r.
Proof. unfold isInk. simpl. now destruct (isWhiteSpace c). Qed.

Lemma trimEnd_app_ink a rest :
  allChars isInk a = true -> trimEnd (a ++ rest) = a ++ trimEnd rest.
Proof.
  induction a as [|c a IH]; simpl; [reflexivity|].
  intros H. apply andb_true_iff in H as [Hc Ha].
  rewrite (IH Ha). unfold isInk in Hc.
  destruct (a ++ trimEnd rest); [|reflexivity].
  now destruct (isWhiteSpace c).
Qed.

Lemma append_empty_r s : s ++ "" = s.
Proof. induction s as [|c s IH]; simpl; [reflexivity|now rewrite IH]. Qed.

Lemma append_assoc a b c : (a ++ b) ++ c = a ++ (b ++ c).
Proof. induction a as [|x a IH]; simpl; [reflexivity|now rewrite IH]. Qed.

Lemma trim_ink s : allChars isInk s = true -> trim s = s.
Proof.
  intros H. unfold trim.
  assert (E : trimStart s = s).
  { destruct s as [|c r]; [reflexivity|]. simpl in H.
    apply andb_true_iff in H as [Hc _]. now apply trimStart_ink. }
  rewrite E. rewrite <- (append_empty_r s) at 1.
  rewrite (trimEnd_app_ink _ _ H). simpl. apply append_empty_r.
Qed.

Lemma toLowerCase_ink s :
  allChars isInk (toLowerCase s) = true -> allChars isInk s = true.
Proof.
  induction s as [|c s IH]; simpl; [reflexivity|].
  intros H. apply andb_true_iff in H as [Hc Hs].
  unfold isInk in *. rewrite lowerChar_whitespace in Hc.
  now rewrite Hc, IH.
Qed.


(** *** Printing in radix 16 and reading it back *)

Lemma hexDigits_acc f n acc : hexDigits f n acc = hexDigits f n "" ++ acc.
Proof.
  revert n acc. induction f as [|f IH]; intros n acc; simpl; [reflexivity|].
  destruct (n / 16 =? 0)%N; [reflexivity|].
  rewrite (IH _ (String _ acc)), (IH _ (String _ "")).
  now rewrite append_assoc.
Qed.

Lemma hexDigits_lowerHex f n acc :
  allChars isLowerHex acc = true -> allChars isLowerHex (hexDigits f n acc) = true.
Proof.
  revert n acc. induction f as [|f IH]; intros n acc Hacc; simpl; [exact Hacc|].
  assert (Hd : isLowerHex (hexDigitChar (n mod 16)) = true).
  { apply hexDigitChar_spec. apply N.mod_lt. discriminate. }
  destruct (n / 16 =? 0)%N.
  - simpl. now rewrite Hd.
  - apply IH. simpl. now rewrite Hd.
Qed.

Lemma hexDigits_nonempty f n c r : exists c' r', hexDigits f n (String c r) = String c' r'.
Proof.
  revert n c r. induction f as [|f IH]; intros n c r; simpl; [now eauto|].
  destruct (n / 16 =? 0)%N; [now eauto|]. apply IH.
Qed.

Lemma hexDigits_S f n acc :
  hexDigits (S f) n acc =
  if (n / 16 =? 0)%N then String (hexDigitChar (n mod 16)) acc
  else hexDigits f (n / 16) (String (hexDigitChar (n mod 16)) acc).
Proof. reflexivity. Qed.

Lemma digitsFrom_hexDigitChar d acc a :
  (d < 16)%N ->
  digitsFrom (String (hexDigitChar d) acc) a = digitsFrom acc (16 * a + Z.of_N d).
Proof.
  intros Hd. simpl. now destruct (hexDigitChar_spec d Hd) as [_ ->].
Qed.

Lemma hexDigits_value f n acc :
  (n < 16 ^ N.of_nat (S f))%N ->
  digitsFrom (hexDigits (S f) n acc) 0 = digitsFrom acc (Z.of_N n).
Proof.
  revert n acc. induction f as [|f IH]; intros n acc Hn; rewrite hexDigits_S.
  - change (16 ^ N.of_nat 1)%N with 16%N in Hn.
    rewrite (N.div_small n 16 Hn), (N.mod_small n 16 Hn). simpl N.eqb. cbv iota.
    now rewrite digitsFrom_hexDigitChar.
  - assert (Hm : (n mod 16 < 16)%N) by (apply N.mod_lt; discriminate).
    pose proof (N.div_mod n 16 ltac:(discriminate)) as D.
    destruct (n / 16 =? 0)%N eqn:E.
    + apply N.eqb_eq in E. rewrite digitsFrom_hexDigitChar by exact Hm.
      f_equal. lia.
    + rewrite IH.
      * rewrite digitsFrom_hexDigitChar by exact Hm. f_equal. lia.
      * apply N.Div0.div_lt_upper_bound.
        replace (N.of_nat (S (S f))) with (N.succ (N.of_nat (S f))) in Hn by lia.
        now rewrite N.pow_succ_r' in Hn.
Qed.

Lemma hexN_bound n : (n < 16 ^ N.of_nat (S (N.to_nat (N.log2 n))))%N.
Proof.
  destruct n as [|p]; [reflexivity|].
  replace (N.of_nat (S (N.to_nat (N.log2 (Npos p))))) with (N.succ (N.log2 (Npos p))) by lia.
  apply N.lt_le_trans with (2 ^ N.succ (N.log2 (Npos p)))%N.
  - apply N.log2_spec. reflexivity.
  - apply N.pow_le_mono_l. lia.
Qed.

Lemma hexN_value n rest : digitsFrom (hexN n ++ rest) 0 = digitsFrom rest (Z.of_N n).
Proof.
  unfold hexN. rewrite <- hexDigits_acc. apply hexDigits_value, hexN_bound.
Qed.

Lemma hexN_lowerHex n : allChars isLowerHex (hexN n) = true.
Proof. apply hexDigits_lowerHex. reflexivity. Qed.

Lemma hexN_nonempty n : exists c r, hexN n = String c r.
Proof.
  unfold hexN. cbn [hexDigits].
  destruct (n / 16 =? 0)%N; [now eauto|]. apply hexDigits_nonempty.
Qed.


Lemma lowerChar_value c : hexDigitValue (lowerChar c) = hexDigitValue c.
Proof. by_cases_on_char c. Qed.

Lemma lowerChar_x c : lowerChar c = "x"%char -> c = "x"%char \/ c = "X"%char.
Proof. by_cases_on_char c; intros _; tauto. Qed.

Lemma lowerChar_not_X c : lowerChar c <> "X"%char.
Proof. by_cases_on_char c. Qed.

Lemma trimEnd_head c r : trimEnd (String c r) = "" \/ exists r', trimEnd (String c r) = String c r'.
Proof.
  simpl. destruct (trimEnd r).
  - destruct (isWhiteSpace c); [now left|right; eauto].
  - right; eauto.
Qed.

Lemma stops_normalised rest : stops rest -> stops (toLowerCase (trimEnd rest)).
Proof.
  destruct rest as [|c r]; [trivial|]. intros (Hv & Hx & HX).
  destruct (trimEnd_head c r) as [->|[r' ->]]; simpl; [trivial|].
  rewrite lowerChar_value. repeat split; [exact Hv| |apply lowerChar_not_X].
  intros E. apply lowerChar_x in E. tauto.
Qed.

Lemma digitsFrom_stops rest a : stops rest -> digitsFrom rest a = a.
Proof. destruct rest as [|c r]; simpl; [reflexivity|]. now intros [-> _]. Qed.

Lemma startsWith_x_stops (x : ascii) r rest :
  (x = "x" \/ x = "X")%char ->
  allChars isLowerHex r = true -> stops rest ->
  startsWith (String x "") (r ++ rest) = false.
Proof.
  intros Hx Hr Hs. destruct r as [|c2 r']; simpl.
  - destruct rest as [|c2 r2]; simpl; [reflexivity|].
    destruct Hs as (_ & H1 & H2).
    replace (Ascii.eqb x c2) with false; [reflexivity|].
    symmetry. apply Ascii.eqb_neq. destruct Hx; subst x; congruence.
  - simpl in Hr. apply andb_true_iff in Hr as [Hc _].
    destruct (lowerHex_not_sign _ Hc) as (_ & _ & H1 & H2).
    replace (Ascii.eqb x c2) with false; [reflexivity|].
    symmetry. apply Ascii.eqb_neq. destruct Hx; subst x; congruence.
Qed.

Lemma startsWith_cons a p b s :
  startsWith (String a p) (String b s) = Ascii.eqb a b && startsWith p s.
Proof. reflexivity. Qed.

(** Reading a run of lower-case digits followed by something that stops
    the numeral. *)
Lemma parseInt16_digits c r rest :
  allChars isLowerHex (String c r) = true -> stops rest ->
  parseInt16 (String c r ++ rest) = Some (digitsFrom (String c r ++ rest) 0).
Proof.
  intros Hs Hrest. pose proof Hs as Hs'. simpl in Hs'.
  apply andb_true_iff in Hs' as [Hc Hr].
  destruct (lowerHex_not_sign _ Hc) as (Hm & Hp & _ & _).
  destruct (lowerHex_value _ Hc) as [d Hd].
  unfold parseInt16. simpl append.
  rewrite trimStart_ink by (now apply plain_ink, lowerHex_plain).
  apply Ascii.eqb_neq in Hm, Hp. rewrite Hm, Hp.
  rewrite !startsWith_cons.
  rewrite (startsWith_x_stops "x" r rest), (startsWith_x_stops "X" r rest); auto.
  rewrite !andb_false_r. simpl. rewrite Hd. simpl.
  f_equal. destruct (digitsFrom (r ++ rest) d); reflexivity.
Qed.

Lemma parseInt16_hexN n rest :
  stops rest -> parseInt16 (hexN n ++ rest) = Some (Z.of_N n).
Proof.
  intros Hrest. destruct (hexN_nonempty n) as (c & r & E).
  pose proof (hexN_lowerHex n) as L. pose proof (hexN_value n rest) as V.
  rewrite E in *. rewrite parseInt16_digits by assumption.
  now rewrite V, digitsFrom_stops.
Qed.

(** [parseInt(n.toString(16) + rest, 16) === n] *)
Lemma parseInt16_toString16 n rest :
  stops rest -> parseInt16 (toString16 n ++ rest) = Some n.
Proof.
  intros Hrest. destruct n as [|p|p]; unfold toString16.
  - change "0" with (hexN 0). now apply (parseInt16_hexN 0).
  - now apply (parseInt16_hexN (Npos p)).
  - pose proof (parseInt16_hexN (Npos p) rest Hrest) as H.
    destruct (hexN_nonempty (Npos p)) as (c & r & E).
    pose proof (hexN_lowerHex (Npos p)) as L. rewrite E in *.
    pose proof L as L'. simpl in L'. apply andb_true_iff in L' as [Hc Hr].
    destruct (lowerHex_not_sign _ Hc) as (Hm & Hp & _ & _).
    apply Ascii.eqb_neq in Hm, Hp.
    unfold parseInt16 in *. simpl append in *.
    rewrite trimStart_ink in H by (now apply plain_ink, lowerHex_plain).
    rewrite Hm, Hp in H.
    rewrite trimStart_ink by reflexivity.
    change (Ascii.eqb "-" "-") with true. cbv iota.
    destruct (digits16 _) as [v|]; [|discriminate].
    simpl in *. injection H as H. f_equal.
    destruct v; simpl in *; congruence.
Qed.

Lemma toString16_plain n : allChars isPlain (toString16 n) = true.
Proof.
  destruct n as [|p|p]; unfold toString16; [reflexivity| |];
    simpl; apply (allChars_weaken isLowerHex); auto using lowerHex_plain, hexN_lowerHex.
Qed.

Lemma startsWith_0x_hexN n rest :
  stops rest -> startsWith "0x" (hexN n ++ rest) = false.
Proof.
  intros Hrest. destruct (hexN_nonempty n) as (c & r & E).
  pose proof (hexN_lowerHex n) as L. rewrite E in *.
  simpl in L. apply andb_true_iff in L as [_ Hr].
  simpl append. rewrite startsWith_cons.
  rewrite (startsWith_x_stops "x" r rest); auto. apply andb_false_r.
Qed.

Lemma startsWith_0x_toString16 n rest :
  stops rest -> startsWith "0x" (toString16 n ++ rest) = false.
Proof.
  intros Hrest. destruct n as [|p|p]; unfold toString16.
  - now apply (startsWith_0x_hexN 0).
  - now apply startsWith_0x_hexN.
  - reflexivity.
Qed.

End JSFacts.

(** ** Identifiers: [_normalizeIdString] against [_toHexId] *)

Section Identity.
Import JS JSFacts.

(** Every branch of [_toHexId] ends in ['0x' + Number(..).toString(16)]. *)
Lemma toHexId_canonical g w : exists n, _toHexId g w = canonical n.
Proof.
  unfold _toHexId, canonical.
  destruct (get_xwindow w) as [| |xid]; try destruct (negb (xid =? 0)); eauto.
Qed.

Lemma canonical_plain n : allChars isPlain (canonical n) = true.
Proof. unfold canonical. simpl. apply toString16_plain. Qed.

Lemma toLowerCase_canonical n : toLowerCase (canonical n) = canonical n.
Proof. apply toLowerCase_plain, canonical_plain. Qed.

Lemma toLowerCase_toHexId g w : toLowerCase (_toHexId g w) = _toHexId g w.
Proof. destruct (toHexId_canonical g w) as [n ->]. apply toLowerCase_canonical. Qed.

(** A canonical id followed by anything that stops the numeral is read
    as that id. *)
Lemma normalize_canonical_rest n rest :
  stops rest -> _normalizeIdString (canonical n ++ rest) = Some (canonical n).
Proof.
  intros Hrest. unfold _normalizeIdString, trim.
  assert (Hink : allChars isInk (canonical n) = true).
  { apply (allChars_weaken isPlain); auto using plain_ink, canonical_plain. }
  replace (trimStart (canonical n ++ rest)) with (canonical n ++ rest) by reflexivity.
  rewrite trimEnd_app_ink by exact Hink.
  rewrite toLowerCase_app, toLowerCase_canonical.
  unfold canonical at 1 2. simpl.
  apply stops_normalised in Hrest.
  now rewrite parseInt16_toString16.
Qed.

Lemma normalize_canonical n : _normalizeIdString (canonical n) = Some (canonical n).
Proof.
  rewrite <- (append_empty_r (canonical n)) at 1.
  now apply normalize_canonical_rest.
Qed.

(** Any spelling of the digits, with or without the prefix in either
    case, is read as the canonical id. *)
Lemma normalize_variant n pre s :
  toLowerCase s = toString16 n ->
  pre = "" \/ pre = "0x" \/ pre = "0X" ->
  _normalizeIdString (pre ++ s) = Some (canonical n).
Proof.
  intros Hs Hpre.
  assert (Hink : allChars isInk s = true).
  { apply toLowerCase_ink. rewrite Hs.
    apply (allChars_weaken isPlain); auto using plain_ink, toString16_plain. }
  assert (Hink' : allChars isInk (pre ++ s) = true).
  { rewrite allChars_app, Hink. now destruct Hpre as [->|[->| ->]]. }
  unfold _normalizeIdString. rewrite trim_ink by exact Hink'.
  rewrite toLowerCase_app, Hs.
  pose proof (parseInt16_toString16 n "" I) as P.
  pose proof (startsWith_0x_toString16 n "" I) as S0.
  rewrite append_empty_r in P, S0.
  destruct Hpre as [->|[->| ->]]; simpl toLowerCase; simpl append.
  - now rewrite S0, P.
  - simpl. now rewrite P.
  - simpl. now rewrite P.
Qed.

(** *** When the id is refused *)

Lemma parseInt16_shape s :
  exists sign,
    parseInt16 s = option_map (Z.mul sign) (digits16 (drop0x (dropSign (trimStart s)))).
Proof.
  unfold parseInt16, dropSign, drop0x.
  destruct (trimStart s) as [|c r]; [now exists 1|].
  destruct (Ascii.eqb c "-"); [now exists (-1)|].
  destruct (Ascii.eqb c "+"); now exists 1.
Qed.

Lemma digits16_NaN s : digits16 s = None <-> headIsDigit s = false.
Proof.
  destruct s as [|c r]; simpl; [tauto|].
  destruct (hexDigitValue c); split; congruence.
Qed.

Lemma parseInt16_NaN s :
  parseInt16 s = None <-> headIsDigit (drop0x (dropSign (trimStart s))) = false.
Proof.
  destruct (parseInt16_shape s) as [sign ->].
  rewrite <- digits16_NaN. destruct (digits16 _); simpl; split; congruence.
Qed.

Lemma normalize_refuses id : _normalizeIdString id = None <-> readable id = false.
Proof.
  unfold _normalizeIdString, readable.
  rewrite <- parseInt16_NaN.
  destruct (parseInt16 _); split; congruence.
Qed.

(** Whatever is accepted comes out canonical, and is a fixed point. *)
Lemma normalize_output id r :
  _normalizeIdString id = Some r ->
  (exists n, r = canonical n) /\ _normalizeIdString r = Some r.
Proof.
  unfold _normalizeIdString at 1.
  destruct (parseInt16 _) as [n|]; [|discriminate].
  intros H. injection H as <-. split; [now exists n|apply normalize_canonical].
Qed.

Lemma normalize_toHexId g w : _normalizeIdString (_toHexId g w) = Some (_toHexId g w).
Proof. destruct (toHexId_canonical g w) as [n ->]. apply normalize_canonical. Qed.

End Identity.

(** ** Sorting with a comparator *)

Section SortFacts.
Context {A : Type} (cmp : A -> A -> Z).

Hypothesis cmp_total : forall a b, before cmp a b \/ before cmp b a.
Hypothesis cmp_trans : forall a b c, before cmp a b -> before cmp b c -> before cmp a c.

Lemma insertSorted_perm x l : Permutation (x :: l) (insertSorted cmp x l).
Proof.
  induction l as [|y r IH]; simpl; [reflexivity|].
  destruct (cmp x y <=? 0); [reflexivity|].
  rewrite perm_swap. now apply perm_skip.
Qed.

Lemma sort_perm l : Permutation l (sort cmp l).
Proof.
  induction l as [|x r IH]; simpl; [reflexivity|].
  rewrite <- insertSorted_perm. now apply perm_skip.
Qed.

Lemma insertSorted_sorted x l :
  StronglySorted (before cmp) l -> StronglySorted (before cmp) (insertSorted cmp x l).
Proof.
  induction l as [|y r IH]; simpl; intros Hs.
  - repeat constructor.
  - apply StronglySorted_inv in Hs as [Hr Hy].
    destruct (cmp x y <=? 0) eqn:E.
    + apply Z.leb_le in E. constructor; [now constructor|].
      constructor; [exact E|].
      eapply Forall_impl; [|exact Hy]. intros z Hz. now apply (cmp_trans x y z).
    + apply Z.leb_gt in E.
      assert (Hyx : before cmp y x).
      { destruct (cmp_total x y) as [H|H]; [unfold before in H; lia|exact H]. }
      constructor; [now apply IH|].
      eapply Permutation_Forall; [apply insertSorted_perm|].
      now constructor.
Qed.

Lemma sort_sorted l : StronglySorted (before cmp) (sort cmp l).
Proof.
  induction l as [|x r IH]; simpl; [constructor|now apply insertSorted_sorted].
Qed.

Hypothesis cmp_antisym : forall a b, before cmp a b -> before cmp b a -> a = b.

Lemma sorted_perm_unique l1 l2 :
  StronglySorted (before cmp) l1 -> StronglySorted (before cmp) l2 ->
  Permutation l1 l2 -> l1 = l2.
Proof.
  revert l2. induction l1 as [|a l1 IH]; intros l2 H1 H2 P.
  - now apply Permutation_nil in P.
  - destruct l2 as [|b l2]; [now apply Permutation_sym, Permutation_nil in P|].
    apply StronglySorted_inv in H1 as [S1 F1].
    apply StronglySorted_inv in H2 as [S2 F2].
    assert (Eab : a = b).
    { assert (Ia : In a (b :: l2)) by (eapply Permutation_in; [exact P|now left]).
      assert (Ib : In b (a :: l1))
        by (eapply Permutation_in; [apply Permutation_sym; exact P|now left]).
      destruct Ia as [Ia|Ia]; [now symmetry|].
      destruct Ib as [Ib|Ib]; [exact Ib|].
      rewrite Forall_forall in F1, F2. apply cmp_antisym; auto. }
    subst b. f_equal. apply IH; auto. now apply Permutation_cons_inv in P.
Qed.

(** The sorted array depends on the elements only, not on the order in
    which they were pushed. *)
Lemma sort_order_independent l l' : Permutation l l' -> sort cmp l = sort cmp l'.
Proof.
  intros P. apply sorted_perm_unique; auto using sort_sorted.
  now rewrite <- !sort_perm.
Qed.

End SortFacts.

(** ** The order of a snapshot *)

Lemma ascii_code_inj a b : Z.of_N (N_of_ascii a) = Z.of_N (N_of_ascii b) -> a = b.
Proof.
  intros H. apply N2Z.inj in H.
  rewrite <- (ascii_N_embedding a), <- (ascii_N_embedding b). now rewrite H.
Qed.

Lemma codeUnitCompare_collation : Collation codeUnitCompare.
Proof.
  split.
  - induction s as [|a s IH]; simpl; [reflexivity|].
    now rewrite Z.ltb_irrefl.
  - induction s as [|a s IH]; intros [|b t]; simpl; try discriminate; [reflexivity|].
    destruct (Z.ltb_spec (Z.of_N (N_of_ascii a)) (Z.of_N (N_of_ascii b))); [discriminate|].
    destruct (Z.ltb_spec (Z.of_N (N_of_ascii b)) (Z.of_N (N_of_ascii a))); [discriminate|].
    intros E. f_equal; [apply ascii_code_inj; lia|now apply IH].
  - induction s as [|a s IH]; intros [|b t]; simpl; try lia.
    destruct (Z.ltb_spec (Z.of_N (N_of_ascii a)) (Z.of_N (N_of_ascii b)));
      destruct (Z.ltb_spec (Z.of_N (N_of_ascii b)) (Z.of_N (N_of_ascii a)));
      try lia. apply IH.
  - induction s as [|a s IH]; intros [|b t] [|c u]; simpl; try lia.
    destruct (Z.ltb_spec (Z.of_N (N_of_ascii a)) (Z.of_N (N_of_ascii b)));
      destruct (Z.ltb_spec (Z.of_N (N_of_ascii b)) (Z.of_N (N_of_ascii a)));
      destruct (Z.ltb_spec (Z.of_N (N_of_ascii b)) (Z.of_N (N_of_ascii c)));
      destruct (Z.ltb_spec (Z.of_N (N_of_ascii c)) (Z.of_N (N_of_ascii b)));
      destruct (Z.ltb_spec (Z.of_N (N_of_ascii a)) (Z.of_N (N_of_ascii c)));
      destruct (Z.ltb_spec (Z.of_N (N_of_ascii c)) (Z.of_N (N_of_ascii a)));
      try lia. apply IH.
Qed.

Section SnapshotOrder.
Variable localeCompare : string -> string -> Z.

Hypothesis collation : Collation localeCompare.

Lemma lc_cases s t : strLt localeCompare s t \/ s = t \/ strLt localeCompare t s.
Proof.
  unfold strLt. destruct (Z.lt_trichotomy (localeCompare s t) 0) as [H|[H|H]].
  - now left.
  - right; left. now apply (lc_zero _ collation).
  - right; right. now apply (lc_flip _ collation).
Qed.

Lemma lc_eq_iff s t : localeCompare s t = 0 <-> s = t.
Proof.
  split; [apply (lc_zero _ collation)|intros ->; apply (lc_refl _ collation)].
Qed.

Lemma strLt_irrefl s : ~ strLt localeCompare s s.
Proof. unfold strLt. rewrite (lc_refl _ collation). lia. Qed.

Lemma strLt_asym s t : strLt localeCompare s t -> ~ strLt localeCompare t s.
Proof. unfold strLt. intros H H'. apply (lc_flip _ collation) in H. lia. Qed.

Lemma strLe_iff s t : strLe localeCompare s t <-> strLt localeCompare s t \/ s = t.
Proof.
  unfold strLe, strLt. rewrite <- lc_eq_iff. lia.
Qed.

(** The comparator of the source computes the tuple order. *)
Lemma compareItems_tupleLe a b :
  before (compareItems localeCompare) a b <-> tupleLe localeCompare a b.
Proof.
  unfold before, compareItems, tupleLe, lex.
  destruct (Z.eqb_spec (Item.key a) (Item.key b)) as [Ek|Ek]; simpl negb; cbv iota;
    [|lia].
  destruct (Z.eqb_spec (Item.desk a) (Item.desk b)) as [Ed|Ed]; simpl negb; cbv iota;
    [|lia].
  destruct (Z.eqb_spec (localeCompare (Item.cls a) (Item.cls b)) 0) as [Ec|Ec];
    simpl negb; cbv iota.
  2:{ pose proof Ec as Ec'. rewrite lc_eq_iff in Ec'. unfold strLt. split.
      - intros H. right; split; [exact Ek|]. right; split; [exact Ed|]. left; lia.
      - intros [?|[_ [?|[_ [?|[? _]]]]]]; try lia. contradiction. }
  destruct (Z.eqb_spec (localeCompare (Item.title a) (Item.title b)) 0) as [Et|Et];
    simpl negb; cbv iota.
  2:{ pose proof Et as Et'. rewrite lc_eq_iff in Et'. unfold strLt. split.
      - intros H. right; split; [exact Ek|]. right; split; [exact Ed|].
        right; split; [now apply lc_eq_iff|]. left; lia.
      - intros [?|[_ [?|[_ [?|[_ [?|[? _]]]]]]]]; try lia. contradiction. }
  pose proof Ec as Ec'. pose proof Et as Et'.
  apply lc_eq_iff in Ec', Et'. unfold strLe, strLt. split.
  - intros H. do 4 (right; split; [assumption|]). exact H.
  - intros [?|[_ [?|[_ [?|[_ [?|[_ ?]]]]]]]]; lia.
Qed.

Lemma tupleLe_total a b : tupleLe localeCompare a b \/ tupleLe localeCompare b a.
Proof.
  unfold tupleLe, lex.
  destruct (Z.lt_trichotomy (Item.key a) (Item.key b)) as [?|[Ek|?]]; [tauto| |tauto].
  destruct (Z.lt_trichotomy (Item.desk a) (Item.desk b)) as [?|[Ed|?]];
    [tauto| |now right; right; split; [symmetry|left]].
  destruct (lc_cases (Item.cls a) (Item.cls b)) as [?|[Ec|?]];
    [tauto| |now right; right; split; [|right; split; [|left]]].
  destruct (lc_cases (Item.title a) (Item.title b)) as [?|[Et|?]];
    [tauto| |now right; right; split; [|right; split; [|right; split; [|left]]]].
  destruct (lc_cases (Item.id a) (Item.id b)) as [H|[H|H]].
  - left. do 4 (right; split; [assumption|]). now apply strLe_iff; left.
  - left. do 4 (right; split; [assumption|]). now apply strLe_iff; right.
  - right. do 4 (right; split; [now symmetry|]). now apply strLe_iff; left.
Qed.

Lemma strLt_trans s t u :
  strLt localeCompare s t -> strLt localeCompare t u -> strLt localeCompare s u.
Proof. apply (lc_trans _ collation). Qed.

Lemma strLe_trans s t u :
  strLe localeCompare s t -> strLe localeCompare t u -> strLe localeCompare s u.
Proof.
  rewrite !strLe_iff. intros [H1| ->] [H2| ->]; auto.
  left. eapply strLt_trans; eassumption.
Qed.

Lemma strLe_antisym s t : strLe localeCompare s t -> strLe localeCompare t s -> s = t.
Proof.
  rewrite !strLe_iff. intros [H1|H1] [H2|H2]; auto.
  now apply strLt_asym in H1.
Qed.

Ltac lex_cases :=
  repeat match goal with
         | H : _ \/ _ |- _ => destruct H
         | H : _ /\ _ |- _ => destruct H
         end.

Ltac lex_solve :=
  first
    [ solve [ left;
              first [ lia | assumption | eapply strLt_trans; eassumption ] ]
    | solve [ eapply strLe_trans; eassumption ]
    | right; split; [ reflexivity | lex_solve ] ].

Lemma tupleLe_trans a b c :
  tupleLe localeCompare a b -> tupleLe localeCompare b c -> tupleLe localeCompare a c.
Proof.
  destruct a as [ka ia da ca ta], b as [kb ib db cb tb], c as [kc ic dc cc tc].
  unfold tupleLe, lex; simpl. intros H1 H2.
  lex_cases; subst; lex_solve.
Qed.

Lemma tupleLe_antisym a b : tupleLe localeCompare a b -> tupleLe localeCompare b a -> a = b.
Proof.
  destruct a as [ka ia da ca ta], b as [kb ib db cb tb].
  unfold tupleLe, lex; simpl. intros H1 H2.
  lex_cases; subst; try lia;
    try match goal with
        | H : strLt localeCompare ?s ?t, H' : strLt localeCompare ?t ?s |- _ =>
            now apply strLt_asym in H
        | H : strLt localeCompare ?s ?s |- _ => now apply strLt_irrefl in H
        end.
  f_equal. now apply strLe_antisym.
Qed.

(** [compareItems] is a consistent comparator. *)
Lemma compareItems_total a b :
  before (compareItems localeCompare) a b \/ before (compareItems localeCompare) b a.
Proof. rewrite !compareItems_tupleLe. apply tupleLe_total. Qed.

Lemma compareItems_trans a b c :
  before (compareItems localeCompare) a b ->
  before (compareItems localeCompare) b c ->
  before (compareItems localeCompare) a c.
Proof. rewrite !compareItems_tupleLe. apply tupleLe_trans. Qed.

Lemma compareItems_antisym a b :
  before (compareItems localeCompare) a b ->
  before (compareItems localeCompare) b a -> a = b.
Proof. rewrite !compareItems_tupleLe. apply tupleLe_antisym. Qed.

End SnapshotOrder.

(** ** Running the computations *)

Lemma bind_ret {A B : Type} (a : A) (k : A -> M B) : bind (ret a) k = k a.
Proof. unfold bind, ret. now destruct (k a). Qed.

(** A [try] whose handler returns a value lets nothing escape. *)
Lemma try_catch_returns {A : Type} (m : M A) (a : A) :
  exists l b, try_catch m (ret a) = (l, Ret b).
Proof. destruct m as [l [b|]]; simpl; eauto. Qed.

Lemma activateWindowById_returns g id : exists l b, _activateWindowById g id = (l, Ret b).
Proof. apply try_catch_returns. Qed.

Lemma followWorkspace_returns g w timestamp :
  exists l, followWorkspace g w timestamp = (l, Ret tt).
Proof.
  unfold followWorkspace.
  match goal with
  | |- exists l, try_catch ?m _ = _ =>
      destruct (try_catch_returns m tt) as (l & [] & E)
  end.
  eauto.
Qed.

(** Activating by id ends with [activate] called on the window the id
    resolves to, after at most a workspace switch and an unminimize. *)
Lemma activateWindowById_activates g id w :
  _findWindowById g id = ret (Some w) ->
  isFunction (activate w) = true ->
  exists pre b,
    _activateWindowById g id
    = ((pre ++ [Activate (win_ref w) (eventTimestamp g)])%list, Ret b)
    /\ (b = true <-> activate w = Returns tt).
Proof.
  intros F Hfun. unfold _activateWindowById. rewrite F, bind_ret.
  destruct (followWorkspace_returns g w (eventTimestamp g)) as (l1 & ->).
  unfold ensureUnminimized.
  destruct (unminimize w) as [| |[]], (minimized w), (activate w) as [| |[]];
    try discriminate; simpl; rewrite ?app_nil_r;
      try (exists l1; eexists; split; [reflexivity|split; congruence]);
      try (exists (l1 ++ [Unminimize (win_ref w)])%list; eexists;
           rewrite <- ?app_assoc; simpl; split; [reflexivity|split; congruence]).
Qed.

(** ** Positions in a list *)

Lemma wrapIndex_mod n len : 0 < len -> wrapIndex n len = n mod len.
Proof.
  intros Hlen. unfold wrapIndex, JS.rem.
  pose proof (Z.quot_rem' n len) as Q.
  destruct (Z.ltb_spec (Z.rem n len) 0) as [Hneg|Hpos].
  - assert (Hn : n <= 0).
    { destruct (Z.le_gt_cases n 0) as [|Hp]; [assumption|].
      pose proof (Z.rem_nonneg n len ltac:(lia) ltac:(lia)). lia. }
    pose proof (Z.rem_bound_pos_neg n len Hlen Hn) as B.
    apply (Z.mod_unique_pos n len (Z.quot n len - 1)); lia.
  - assert (B : Z.rem n len < len).
    { destruct (Z.le_gt_cases 0 n) as [Hp|Hn].
      - apply Z.rem_bound_pos; lia.
      - pose proof (Z.rem_bound_pos_neg n len Hlen ltac:(lia)). lia. }
    apply (Z.mod_unique_pos n len (Z.quot n len)); lia.
Qed.

Lemma findIndexFrom_spec {A : Type} (p : A -> bool) l i0 :
  (findIndexFrom p l i0 = -1 /\ forall x, In x l -> p x = false)
  \/ (exists n x,
        nth_error l n = Some x /\ p x = true
        /\ (forall m y, (m < n)%nat -> nth_error l m = Some y -> p y = false)
        /\ findIndexFrom p l i0 = i0 + Z.of_nat n).
Proof.
  revert i0. induction l as [|x r IH]; intros i0; simpl.
  - left. now split.
  - destruct (p x) eqn:Px.
    + right. exists O, x. repeat split; auto; [lia|lia].
    + destruct (IH (i0 + 1)) as [[E N]|(n & y & Hn & Py & Hmin & E)].
      * left. split; [exact E|]. intros z [<-|Hz]; auto.
      * right. exists (S n), y. repeat split; auto; [|lia].
        intros [|m] z Hm Hz; simpl in Hz; [now injection Hz as <-|].
        apply (Hmin m); [lia|exact Hz].
Qed.

(** ** What a snapshot holds *)

Section SnapshotFacts.
Variable localeCompare : string -> string -> Z.

Lemma listWindowsItems_inv g log all :
  _listWindowsItems localeCompare g = (log, Ret all) ->
  log = []
  /\ exists actors,
       get_window_actors g = Returns actors
       /\ all = sort (compareItems localeCompare) (collectItems g actors).
Proof.
  unfold _listWindowsItems, read.
  destruct (get_window_actors g) as [| |actors]; simpl; try discriminate.
  intros H. injection H as <- <-. eauto.
Qed.

Lemma collectItems_In g actors it :
  In it (collectItems g actors) <->
  exists w, In (Some w) actors /\ _isTasklistWindow w = true
            /\ it = itemOf g w.
Proof.
  induction actors as [|[w|] rest IH]; simpl.
  - split; [contradiction|now intros (w & [] & _)].
  - destruct (_isTasklistWindow w) eqn:T; simpl; rewrite IH; split.
    + intros [<-|(w' & I & T' & E)]; [now exists w; auto|exists w'; auto].
    + intros (w' & [E|I] & T' & ->); [injection E as ->; now left|right; eauto].
    + intros (w' & I & T' & E); exists w'; auto.
    + intros (w' & [E|I] & T' & ->); [injection E as ->; congruence|eauto].
  - rewrite IH. split.
    + intros (w' & I & T' & E); exists w'; auto.
    + intros (w' & [E|I] & T' & ->); [discriminate|eauto].
Qed.

Lemma snapshot_In g all it :
  _listWindowsItems localeCompare g = ret all ->
  In it all ->
  exists w, _isTasklistWindow w = true /\ it = itemOf g w.
Proof.
  intros H I. apply listWindowsItems_inv in H as (_ & actors & _ & ->).
  eapply Permutation_in in I; [|apply Permutation_sym, sort_perm].
  apply collectItems_In in I as (w & _ & T & E). eauto.
Qed.

(** Ids in a snapshot are in lower case already. *)
Lemma snapshot_id_lower g all it :
  _listWindowsItems localeCompare g = ret all ->
  In it all -> JS.toLowerCase (Item.id it) = Item.id it.
Proof.
  intros H I. destruct (snapshot_In _ _ _ H I) as (w & _ & ->).
  apply toLowerCase_toHexId.
Qed.

Lemma activeWindowId_lower g : JS.toLowerCase (_activeWindowId g) = _activeWindowId g.
Proof.
  unfold _activeWindowId. destruct (focusWindow g); [apply toLowerCase_toHexId|reflexivity].
Qed.

Lemma sameId_lower a b :
  JS.toLowerCase a = a -> JS.toLowerCase b = b -> sameId a b = true <-> a = b.
Proof. unfold sameId. intros -> ->. apply String.eqb_eq. Qed.

Lemma sameId_lower_false a b :
  JS.toLowerCase a = a -> JS.toLowerCase b = b -> sameId a b = false <-> a <> b.
Proof. unfold sameId. intros -> ->. apply String.eqb_neq. Qed.

(** The active id is canonical, so [_findWindowById] looks for it as it is. *)
Lemma normalize_activeWindowId g :
  _activeWindowId g <> "" ->
  _normalizeIdString (_activeWindowId g) = Some (_activeWindowId g).
Proof.
  unfold _activeWindowId. destruct (focusWindow g); [|congruence].
  intros _. apply normalize_toHexId.
Qed.

Lemma findActor_Some g norm actors w :
  findActor g norm actors = Some w ->
  In (Some w) actors /\ _isTasklistWindow w = true /\ _toHexId g w = norm.
Proof.
  induction actors as [|[w'|] rest IH]; simpl; try discriminate.
  - destruct (_isTasklistWindow w') eqn:T; simpl.
    + destruct (String.eqb_spec (JS.toLowerCase (_toHexId g w')) norm) as [E|E].
      * intros H. injection H as <-. rewrite toLowerCase_toHexId in E. auto.
      * intros H. destruct (IH H) as (I & T' & E'). auto.
    + intros H. destruct (IH H) as (I & T' & E'). auto.
  - intros H. destruct (IH H) as (I & T' & E'). auto.
Qed.

Lemma findActor_None g norm actors :
  findActor g norm actors = None ->
  forall it, In it (collectItems g actors) -> Item.id it <> norm.
Proof.
  induction actors as [|[w'|] rest IH]; simpl; auto.
  destruct (_isTasklistWindow w') eqn:T; simpl; auto.
  destruct (String.eqb_spec (JS.toLowerCase (_toHexId g w')) norm) as [E|E];
    [discriminate|].
  intros H it [<-|I]; [|now apply IH].
  simpl. now rewrite toLowerCase_toHexId in E.
Qed.

Lemma findActor_finds g norm actors w0 :
  In (Some w0) actors -> _isTasklistWindow w0 = true -> _toHexId g w0 = norm ->
  exists w, findActor g norm actors = Some w.
Proof.
  intros I T E. induction actors as [|[w'|] rest IH]; simpl; [contradiction| |].
  - destruct (_isTasklistWindow w' && String.eqb (JS.toLowerCase (_toHexId g w')) norm)
      eqn:C; [eauto|].
    destruct I as [I|I]; [|auto].
    injection I as ->. rewrite T, toLowerCase_toHexId, E, String.eqb_refl in C.
    discriminate.
  - destruct I as [I|I]; [discriminate|auto].
Qed.

(** The id of a listed record resolves to an eligible window carrying that
    id: the window of the record itself when ids are distinct. *)
Lemma listed_id_resolves g all it :
  _listWindowsItems localeCompare g = ret all ->
  In it all ->
  exists w, _findWindowById g (Item.id it) = ret (Some w)
            /\ _isTasklistWindow w = true /\ _toHexId g w = Item.id it.
Proof.
  intros H I. apply listWindowsItems_inv in H as (_ & actors & Ha & ->).
  eapply Permutation_in in I; [|apply Permutation_sym, sort_perm].
  apply collectItems_In in I as (w0 & I0 & T0 & ->). simpl.
  destruct (findActor_finds g (_toHexId g w0) actors w0 I0 T0 eq_refl) as [w F].
  exists w. unfold _findWindowById. rewrite normalize_toHexId, Ha. simpl.
  rewrite F. apply findActor_Some in F as (_ & T & E). auto.
Qed.

Lemma find_none_iff {A : Type} (p : A -> bool) l :
  find p l = None <-> forall x, In x l -> p x = false.
Proof.
  induction l as [|x r IH]; simpl; [tauto|].
  destruct (p x) eqn:Px.
  - split; [discriminate|]. intros H. specialize (H x (or_introl eq_refl)). congruence.
  - rewrite IH. split; [intros H y [<-|I]; auto|auto].
Qed.

End SnapshotFacts.

(** Activating a listed record by its id calls [activate] on an eligible
    window that carries this id. *)
Lemma activation_reaches_listed_window lc g all it :
  _listWindowsItems lc g = ret all ->
  In it all ->
  exists w,
    _isTasklistWindow w = true /\ _toHexId g w = Item.id it
    /\ (isFunction (activate w) = true ->
        exists pre b,
          _activateWindowById g (Item.id it)
          = ((pre ++ [Activate (win_ref w) (eventTimestamp g)])%list, Ret b)
          /\ (b = true <-> activate w = Returns tt)).
Proof.
  intros H I. destruct (listed_id_resolves lc g all it H I) as (w & F & T & E).
  exists w. split; [exact T|]. split; [exact E|].
  intros Hfun. now apply activateWindowById_activates.
Qed.

(** ** The registry *)

Lemma itemOf_clock g g' w : date_now g' = date_now g -> itemOf g' w = itemOf g w.
Proof.
  intros E. unfold itemOf, _creationOrderKey, _toHexId. now rewrite E.
Qed.

Lemma collectItems_clock g g' actors :
  date_now g' = date_now g -> collectItems g' actors = collectItems g actors.
Proof.
  intros E. induction actors as [|[w|] rest IH]; simpl; auto.
  rewrite IH, (itemOf_clock g g' w E). reflexivity.
Qed.

Lemma collectItems_perm g actors actors' :
  Permutation actors actors' ->
  Permutation (collectItems g actors) (collectItems g actors').
Proof.
  induction 1 as [|[w|] l l' P IH|[x|] [y|] l|l l' l'' P1 IH1 P2 IH2]; simpl;
    repeat match goal with
           | |- context [_isTasklistWindow ?w] => destruct (_isTasklistWindow w)
           end;
    auto using Permutation_refl, perm_skip, perm_swap.
  eapply Permutation_trans; eassumption.
Qed.

Lemma StronglySorted_nth {A : Type} (R : A -> A -> Prop) l i j a b :
  StronglySorted R l -> (i < j)%nat ->
  nth_error l i = Some a -> nth_error l j = Some b -> R a b.
Proof.
  intros S. revert i j. induction S as [|x l S IH F]; intros i j Hij Ha Hb.
  - now destruct i.
  - destruct j as [|j]; [lia|]. simpl in Hb.
    destruct i as [|i]; simpl in Ha.
    + injection Ha as <-. rewrite Forall_forall in F.
      apply F. eapply nth_error_In; eassumption.
    + apply (IH i j); auto. lia.
Qed.

Lemma StronglySorted_impl {A : Type} (R R' : A -> A -> Prop) l :
  (forall a b, R a b -> R' a b) -> StronglySorted R l -> StronglySorted R' l.
Proof.
  intros HR. induction 1 as [|x l S IH F]; constructor; auto.
  eapply Forall_impl; [|exact F]. auto.
Qed.



(** ** The focus cycle, as the design states it *)

Lemma activePosition_startIndex activeId delta items index :
  JS.toLowerCase activeId = activeId ->
  (forall it, In it items -> JS.toLowerCase (Item.id it) = Item.id it) ->
  activePosition activeId delta items index ->
  startIndex activeId delta items = index.
Proof.
  intros La Li P. unfold startIndex, findIndex.
  destruct (findIndexFrom_spec (fun it => sameId (Item.id it) activeId) items 0)
    as [[E N]|(n & x & Hn & Px & Hmin & E)]; rewrite E.
  - simpl. destruct P as [(i & it & Hi & Hid & _)|[_ [[D ->]|[D ->]]]].
    + apply nth_error_In in Hi. specialize (N it Hi). simpl in N.
      apply sameId_lower_false in N; auto. contradiction.
    + apply Z.ltb_lt in D. now rewrite D.
    + destruct (Z.ltb_spec 0 delta); [lia|reflexivity].
  - assert (Hx : Item.id x = activeId).
    { apply sameId_lower; auto. apply Li. eapply nth_error_In; eassumption. }
    destruct (Z.eqb_spec (0 + Z.of_nat n) (-1)) as [?|_]; [lia|].
    destruct P as [(i & it & Hi & Hid & Hfirst & ->)|[N _]].
    + f_equal. destruct (Nat.lt_trichotomy n i) as [L|[->|L]]; [|reflexivity|].
      * exfalso. now apply (Hfirst n x L Hn).
      * specialize (Hmin i it L Hi). simpl in Hmin.
        apply sameId_lower_false in Hmin; auto. contradiction.
        apply Li. eapply nth_error_In; eassumption.
    + exfalso. apply (N x); [eapply nth_error_In; eassumption|exact Hx].
Qed.

(** The position the operations compute is the position of the design. *)
Lemma startIndex_activePosition activeId delta items :
  JS.toLowerCase activeId = activeId ->
  (forall it, In it items -> JS.toLowerCase (Item.id it) = Item.id it) ->
  activePosition activeId delta items (startIndex activeId delta items).
Proof.
  intros La Li. unfold startIndex, findIndex.
  destruct (findIndexFrom_spec (fun it => sameId (Item.id it) activeId) items 0)
    as [[E N]|(n & x & Hn & Px & Hmin & E)]; rewrite E.
  - right. split.
    + intros it I. specialize (N it I). simpl in N.
      now apply sameId_lower_false in N; auto.
    + simpl. destruct (Z.ltb_spec 0 delta); [left|right]; split; auto.
  - destruct (Z.eqb_spec (0 + Z.of_nat n) (-1)) as [?|_]; [lia|].
    left. exists n, x. repeat split; auto.
    + apply sameId_lower; auto. apply Li. eapply nth_error_In; eassumption.
    + intros j it' L Hj. specialize (Hmin j it' L Hj). simpl in Hmin.
      apply sameId_lower_false in Hmin; auto.
      apply Li. eapply nth_error_In; eassumption.
Qed.

(** The loop finds the first item of the circuit that the policy does not
    pass over. *)
Lemma scanFrom_spec g skip inWs idx delta todo s :
  inWs <> [] ->
  (exists k cand,
      s <= k < s + Z.of_nat todo /\ around inWs idx delta k = Some cand
      /\ skip cand = false
      /\ (forall j c, s <= j < k -> around inWs idx delta j = Some c -> skip c = true)
      /\ scanFrom g skip inWs idx delta todo s = _activateWindowById g (Item.id cand))
  \/ ((forall j c, s <= j < s + Z.of_nat todo ->
                   around inWs idx delta j = Some c -> skip c = true)
      /\ scanFrom g skip inWs idx delta todo s = ret false).
Proof.
  intros Hne.
  assert (Hlen : 0 < Z.of_nat (List.length inWs)) by (destruct inWs; simpl; [congruence|lia]).
  revert s. induction todo as [|todo IH]; intros s.
  - right. split; [intros j c Hj; lia|reflexivity].
  - cbn [scanFrom]. rewrite (wrapIndex_mod _ _ Hlen).
    fold (around inWs idx delta s).
    destruct (around inWs idx delta s) as [cand|] eqn:Hs;
      [destruct (skip cand) eqn:Hskip|].
    + destruct (IH (s + 1)) as [(k & c & Hk & Hc & Hok & Hbefore & E)|[Hall E]].
      * left. exists k, c. repeat split; auto; try lia.
        intros j c' Hj Hj'. destruct (Z.eq_dec j s) as [->|Hjs].
        -- rewrite Hs in Hj'. now injection Hj' as <-.
        -- apply (Hbefore j c'); [lia|exact Hj'].
      * right. split; [|exact E].
        intros j c' Hj Hj'. destruct (Z.eq_dec j s) as [->|Hjs].
        -- rewrite Hs in Hj'. now injection Hj' as <-.
        -- apply (Hall j c'); [lia|exact Hj'].
    + left. exists s, cand. repeat split; auto; try lia.
    + exfalso. unfold around in Hs. apply nth_error_None in Hs.
      pose proof (Z.mod_pos_bound (idx + delta * s) _ Hlen). lia.
Qed.

Lemma firstCandidate_ext items index delta (ok ok' : Item.t -> Prop) r :
  (forall c, In c items -> (ok c <-> ok' c)) ->
  firstCandidate items index delta ok r -> firstCandidate items index delta ok' r.
Proof.
  intros Hiff. unfold firstCandidate, around.
  destruct r as [cand|].
  - intros (k & Hk & Hc & Hok & Hbefore). exists k.
    split; [exact Hk|]. split; [exact Hc|]. split.
    + apply Hiff; [eapply nth_error_In; eassumption|exact Hok].
    + intros j c Hj Hjc Hc'. apply (Hbefore j c Hj Hjc).
      apply Hiff; [eapply nth_error_In; eassumption|exact Hc'].
  - intros H k c Hk Hc Hc'. apply (H k c Hk Hc).
    apply Hiff; [eapply nth_error_In; eassumption|exact Hc'].
Qed.

Lemma scan_firstCandidate g skip inWs idx delta :
  inWs <> [] ->
  exists r,
    firstCandidate inWs idx delta (fun c => skip c = false) r
    /\ scanFrom g skip inWs idx delta (List.length inWs) 1 = activateOrFail g r.
Proof.
  intros Hne.
  destruct (scanFrom_spec g skip inWs idx delta (List.length inWs) 1 Hne)
    as [(k & cand & Hk & Hc & Hok & Hbefore & E)|[Hall E]].
  - exists (Some cand). split; [|exact E].
    exists k. split; [lia|]. split; [exact Hc|]. split; [exact Hok|].
    intros j c Hj Hjc Hc'. rewrite (Hbefore j c) in Hc'; [discriminate|lia|exact Hjc].
  - exists None. split; [|exact E].
    intros k c Hk Hkc Hc'. rewrite (Hall k c) in Hc'; [discriminate|lia|exact Hkc].
Qed.

Lemma skipOther_false activeCls c :
  skipOther activeCls c = false <->
  Item.cls c <> activeCls /\ Item.cls c <> COPYQ_CLS.
Proof.
  unfold skipOther. rewrite orb_false_iff, !String.eqb_neq. tauto.
Qed.

Lemma skipAny_false activeId c :
  JS.toLowerCase activeId = activeId -> JS.toLowerCase (Item.id c) = Item.id c ->
  skipAny activeId c = false <->
  Item.cls c <> COPYQ_CLS /\ Item.id c <> activeId.
Proof.
  intros La Lc. unfold skipAny.
  rewrite orb_false_iff, String.eqb_neq, (sameId_lower_false _ _ Lc La). tauto.
Qed.

Lemma filter_In_lower lc g all p it :
  _listWindowsItems lc g = ret all ->
  In it (filter p all) -> JS.toLowerCase (Item.id it) = Item.id it.
Proof.
  intros H I. apply filter_In in I as [I _]. eapply snapshot_id_lower; eassumption.
Qed.

Lemma activateOrFail_returns g r : exists l b, activateOrFail g r = (l, Ret b).
Proof.
  destruct r; simpl; [apply activateWindowById_returns|unfold ret; eauto].
Qed.

Lemma try_catch_activateOrFail g r h :
  try_catch (activateOrFail g r) h = activateOrFail g r.
Proof.
  destruct (activateOrFail_returns g r) as (l & b & E). now rewrite E.
Qed.

Lemma activeId_nonempty s : s <> "" -> String.eqb s "" = false.
Proof. intros H. now apply String.eqb_neq. Qed.

(** The any-class operation is the circular scan from the active position
    for the first item that is neither the denylisted class nor the active
    window. *)
Lemma anyApp_scan lc g delta all index :
  let activeId := _activeWindowId g in
  let inWs := filter (onWorkspace (_activeWorkspaceIndex g)) all in
  activeId <> "" ->
  _listWindowsItems lc g = ret all ->
  inWs <> [] ->
  activePosition activeId delta inWs index ->
  exists r,
    firstCandidate inWs index delta
      (fun c => Item.cls c <> COPYQ_CLS /\ Item.id c <> activeId) r
    /\ _focusRelativeAnyAppWindow lc g delta = activateOrFail g r.
Proof.
  intros activeId inWs Hne Hlist HinWs Hpos.
  assert (La : JS.toLowerCase activeId = activeId) by apply activeWindowId_lower.
  assert (Li : forall it, In it inWs -> JS.toLowerCase (Item.id it) = Item.id it).
  { intros it I. eapply filter_In_lower; eassumption. }
  destruct (scan_firstCandidate g (skipAny activeId) inWs index delta HinWs)
    as (r & Hr & E).
  exists r. split.
  - eapply firstCandidate_ext; [|exact Hr].
    intros c I. simpl. now apply skipAny_false; auto.
  - unfold _focusRelativeAnyAppWindow. fold activeId.
    rewrite (activeId_nonempty _ Hne), Hlist, bind_ret.
    fold inWs.
    destruct all as [|a0 all']; [now contradiction HinWs|].
    destruct inWs as [|i0 inWs'] eqn:EinWs; [now contradiction HinWs|].
    rewrite (activePosition_startIndex _ _ _ _ La Li Hpos), E.
    apply try_catch_activateOrFail.
Qed.

Lemma around_singleton only index delta k : around [only] index delta k = Some only.
Proof. unfold around. simpl. now rewrite Z.mod_1_r. Qed.

(** With one item on the workspace, the first candidate is that item when
    it qualifies and nothing otherwise. *)
Lemma firstCandidate_singleton only index delta (ok : Item.t -> Prop) :
  (ok only -> firstCandidate [only] index delta ok (Some only))
  /\ (~ ok only -> firstCandidate [only] index delta ok None).
Proof.
  split; intros H.
  - exists 1. split; [simpl; lia|]. split; [apply around_singleton|].
    split; [exact H|]. intros j c Hj. lia.
  - intros k c _ Hc. rewrite around_singleton in Hc. now injection Hc as <-.
Qed.

(** The other-class operation is the circular scan from the active position
    for the first item of another class that is not the denylisted class;
    [act] is the record of the active window in the snapshot. *)
Lemma otherApp_scan lc g delta all act index :
  let activeId := _activeWindowId g in
  let inWs := filter (onWorkspace (_activeWorkspaceIndex g)) all in
  activeId <> "" ->
  _listWindowsItems lc g = ret all ->
  find (fun it => sameId (Item.id it) activeId) all = Some act ->
  inWs <> [] ->
  activePosition activeId delta inWs index ->
  exists r,
    firstCandidate inWs index delta
      (fun c => Item.cls c <> Item.cls act /\ Item.cls c <> COPYQ_CLS) r
    /\ _focusRelativeOtherAppWindow lc g delta = activateOrFail g r.
Proof.
  intros activeId inWs Hne Hlist Hfind HinWs Hpos.
  assert (La : JS.toLowerCase activeId = activeId) by apply activeWindowId_lower.
  assert (Li : forall it, In it inWs -> JS.toLowerCase (Item.id it) = Item.id it).
  { intros it I. eapply filter_In_lower; eassumption. }
  assert (Hrun : _focusRelativeOtherAppWindow lc g delta =
                 try_catch
                   (match inWs with
                    | [] => ret false
                    | [only] =>
                        if negb (String.eqb (Item.cls only) (Item.cls act))
                           && negb (String.eqb (Item.cls only) COPYQ_CLS)
                        then _activateWindowById g (Item.id only)
                        else ret false
                    | _ :: _ :: _ =>
                        scanFrom g (skipOther (Item.cls act)) inWs
                          (startIndex activeId delta inWs) delta (List.length inWs) 1
                    end)
                   (ret false)).
  { unfold _focusRelativeOtherAppWindow. fold activeId.
    rewrite (activeId_nonempty _ Hne), Hlist, bind_ret.
    destruct all as [|a0 all']; [discriminate|].
    rewrite Hfind, bind_ret. reflexivity. }
  rewrite Hrun. clear Hrun.
  destruct inWs as [|only [|i1 rest]] eqn:EinWs; [now contradiction HinWs| |].
  - destruct (firstCandidate_singleton only index delta
                (fun c => Item.cls c <> Item.cls act /\ Item.cls c <> COPYQ_CLS))
      as [Hyes Hno].
    destruct (String.eqb_spec (Item.cls only) (Item.cls act)) as [E1|E1]; simpl.
    + exists None. split; [apply Hno; tauto|reflexivity].
    + destruct (String.eqb_spec (Item.cls only) COPYQ_CLS) as [E2|E2]; simpl.
      * exists None. split; [apply Hno; tauto|reflexivity].
      * exists (Some only). split; [now apply Hyes|].
        apply (try_catch_activateOrFail g (Some only)).
  - destruct (scan_firstCandidate g (skipOther (Item.cls act)) (only :: i1 :: rest)
                index delta HinWs) as (r & Hr & E).
    exists r. split.
    + eapply firstCandidate_ext; [|exact Hr].
      intros c _. apply skipOther_false.
    + rewrite (activePosition_startIndex _ _ _ _ La Li Hpos), E.
      apply try_catch_activateOrFail.
Qed.

(** The same-class operation steps from the active position by [delta],
    wrapping round the windows of the active window's class on the
    workspace. *)
Lemma sameApp_step lc g delta all activeWin index :
  let activeId := _activeWindowId g in
  let items :=
    filter (fun it => String.eqb (Item.cls it) (_classInstance activeWin)
                      && onWorkspace (_activeWorkspaceIndex g) it) all in
  activeId <> "" ->
  _findWindowById g activeId = ret (Some activeWin) ->
  _listWindowsItems lc g = ret all ->
  items <> [] ->
  activePosition activeId delta items index ->
  exists target,
    nth_error items (Z.to_nat ((index + delta) mod Z.of_nat (List.length items)))
    = Some target
    /\ _focusRelativeSameAppWindow lc g delta = _activateWindowById g (Item.id target).
Proof.
  intros activeId items Hne Hfind Hlist Hitems Hpos.
  assert (La : JS.toLowerCase activeId = activeId) by apply activeWindowId_lower.
  assert (Li : forall it, In it items -> JS.toLowerCase (Item.id it) = Item.id it).
  { intros it I. eapply filter_In_lower; eassumption. }
  assert (Hlen : 0 < Z.of_nat (List.length items))
    by (destruct items; simpl; [congruence|lia]).
  set (len := Z.of_nat (List.length items)) in *.
  pose proof (Z.mod_pos_bound (index + delta) len Hlen) as Hb.
  destruct (nth_error items (Z.to_nat ((index + delta) mod len))) as [target|] eqn:Ht.
  2:{ apply nth_error_None in Ht. unfold len in *. lia. }
  exists target. split; [reflexivity|].
  unfold _focusRelativeSameAppWindow. fold activeId.
  rewrite (activeId_nonempty _ Hne), Hfind, bind_ret, Hlist, bind_ret.
  destruct all as [|a0 all']; [now contradiction Hitems|].
  unfold option_map. cbv beta iota zeta. fold items.
  destruct items as [|i0 items'] eqn:Eitems; [now contradiction Hitems|].
  rewrite (activePosition_startIndex _ _ _ _ La Li Hpos). fold len.
  assert (Ht' : (let t := if len =? 1 then 0 else JS.rem (index + delta) len in
                 if t <? 0 then t + len else t) = (index + delta) mod len).
  { destruct (Z.eqb_spec len 1) as [E|E].
    - simpl. rewrite E. now rewrite Z.mod_1_r.
    - apply (wrapIndex_mod _ _ Hlen). }
  cbv zeta in Ht'. cbv zeta. rewrite Ht', Ht.
  destruct (activateWindowById_returns g (Item.id target)) as (l & b & E).
  now rewrite E.
Qed.

Lemma firstCandidate_singleton_inv only index delta (ok : Item.t -> Prop) r :
  firstCandidate [only] index delta ok r ->
  (ok only /\ r = Some only) \/ (~ ok only /\ r = None).
Proof.
  destruct r as [cand|]; simpl.
  - intros (k & _ & Hc & Hok & _). rewrite around_singleton in Hc.
    injection Hc as <-. now left.
  - intros H. right. split; [|reflexivity].
    apply (H 1 only); [simpl; lia|apply around_singleton].
Qed.

(** C2.  Same-class policy: among the windows of the active window's class
    that are on the active workspace or pinned, the operation activates the
    one at position (index + delta) mod length, where index is the position
    of the active window in that list, or one before the first for a forward
    step and the first for a backward step when it is not there.  With A1
    (key 1), A2 (key 2) and B1 (key 3) on one workspace, Next from A1
    activates A2 and Next from A2 wraps to A1. *)
Theorem sameApp_cycle :
  (forall lc g delta all activeWin index,
      let activeId := _activeWindowId g in
      let items :=
        filter (fun it => String.eqb (Item.cls it) (_classInstance activeWin)
                          && onWorkspace (_activeWorkspaceIndex g) it) all in
      activeId <> "" ->
      _findWindowById g activeId = ret (Some activeWin) ->
      _listWindowsItems lc g = ret all ->
      items <> [] ->
      activePosition activeId delta items index ->
      exists target,
        nth_error items (Z.to_nat ((index + delta) mod Z.of_nat (List.length items)))
        = Some target
        /\ _focusRelativeSameAppWindow lc g delta = _activateWindowById g (Item.id target))
  /\ _focusNextSameAppWindow codeUnitCompare (desktop [winB1; winA2; winA1] 0 (Some winA1))
     = ([Activate (win_ref winA2) 7], Ret true)
  /\ _focusNextSameAppWindow codeUnitCompare (desktop [winB1; winA2; winA1] 0 (Some winA2))
     = ([Activate (win_ref winA1) 7], Ret true).
Proof.
  split; [exact sameApp_step|]. split; reflexivity.
Qed.

Lemma sameApp_cycle_witness :
  let g := desktop [winB1; winA2; winA1] 0 (Some winA1) in
  exists target,
    nth_error [itemOf g winA1; itemOf g winA2] (Z.to_nat ((0 + 1) mod 2)) = Some target
    /\ _focusRelativeSameAppWindow codeUnitCompare g 1
       = _activateWindowById g (Item.id target).
Proof.
  refine (proj1 sameApp_cycle codeUnitCompare
            (desktop [winB1; winA2; winA1] 0 (Some winA1)) 1
            [itemOf _ winA1; itemOf _ winA2; itemOf _ winB1] winA1 0 _ eq_refl eq_refl _ _).
  - discriminate.
  - discriminate.
  - left. exists 0%nat, (itemOf (desktop [winB1; winA2; winA1] 0 (Some winA1)) winA1).
    split; [reflexivity|]. split; [reflexivity|]. split; [|reflexivity].
    intros j it' Hj. inversion Hj.
Defined.

(** C3.  Other-class policy: over the windows on the active workspace or
    pinned, the operation scans circularly from the active position by the
    signed step and activates the first window whose class differs from the
    active window's and is not the denylisted class; it returns false after a
    full circuit without one.  A workspace with exactly one window activates
    it if and only if it passes that same test.  With A1, B1 and a CopyQ
    window, Next (and Prev) from A1 lands on B1. *)
Theorem otherApp_cycle :
  (forall lc g delta all act index,
      let activeId := _activeWindowId g in
      let inWs := filter (onWorkspace (_activeWorkspaceIndex g)) all in
      activeId <> "" ->
      _listWindowsItems lc g = ret all ->
      find (fun it => sameId (Item.id it) activeId) all = Some act ->
      inWs <> [] ->
      activePosition activeId delta inWs index ->
      exists r,
        firstCandidate inWs index delta
          (fun c => Item.cls c <> Item.cls act /\ Item.cls c <> COPYQ_CLS) r
        /\ _focusRelativeOtherAppWindow lc g delta = activateOrFail g r)
  /\ (forall lc g delta all act only,
         let activeId := _activeWindowId g in
         activeId <> "" ->
         _listWindowsItems lc g = ret all ->
         find (fun it => sameId (Item.id it) activeId) all = Some act ->
         filter (onWorkspace (_activeWorkspaceIndex g)) all = [only] ->
         ((Item.cls only <> Item.cls act /\ Item.cls only <> COPYQ_CLS) ->
          _focusRelativeOtherAppWindow lc g delta = _activateWindowById g (Item.id only))
         /\ (~ (Item.cls only <> Item.cls act /\ Item.cls only <> COPYQ_CLS) ->
             _focusRelativeOtherAppWindow lc g delta = ret false))
  /\ _focusNextOtherAppWindow codeUnitCompare
       (desktop [winCopyQ; winB1; winA1] 0 (Some winA1))
     = ([Activate (win_ref winB1) 7], Ret true)
  /\ _focusPrevOtherAppWindow codeUnitCompare
       (desktop [winCopyQ; winB1; winA1] 0 (Some winA1))
     = ([Activate (win_ref winB1) 7], Ret true).
Proof.
  split; [exact otherApp_scan|]. split; [|split; reflexivity].
  intros lc g delta all act only activeId Hne Hlist Hfind Honly.
  assert (La : JS.toLowerCase activeId = activeId) by apply activeWindowId_lower.
  assert (Li : forall it, In it [only] -> JS.toLowerCase (Item.id it) = Item.id it).
  { intros it I. rewrite <- Honly in I. eapply filter_In_lower; eassumption. }
  pose proof (startIndex_activePosition activeId delta [only] La Li) as Hpos.
  rewrite <- Honly in Hpos.
  destruct (otherApp_scan lc g delta all act _ Hne Hlist Hfind
              ltac:(rewrite Honly; discriminate) Hpos) as (r & Hr & E).
  rewrite Honly in Hr.
  apply firstCandidate_singleton_inv in Hr as [[Hok ->]|[Hno ->]];
    split; intros H; try contradiction; exact E.
Qed.

Lemma otherApp_cycle_witness :
  let g := desktop [winCopyQ; winB1; winA1] 0 (Some winA1) in
  exists r,
    firstCandidate [itemOf g winA1; itemOf g winB1; itemOf g winCopyQ] 0 1
      (fun c => Item.cls c <> Item.cls (itemOf g winA1) /\ Item.cls c <> COPYQ_CLS) r
    /\ _focusRelativeOtherAppWindow codeUnitCompare g 1 = activateOrFail g r.
Proof.
  refine (proj1 otherApp_cycle codeUnitCompare
            (desktop [winCopyQ; winB1; winA1] 0 (Some winA1)) 1
            [itemOf _ winA1; itemOf _ winB1; itemOf _ winCopyQ] (itemOf _ winA1) 0
            _ eq_refl eq_refl _ _).
  - discriminate.
  - discriminate.
  - left. exists 0%nat, (itemOf (desktop [winCopyQ; winB1; winA1] 0 (Some winA1)) winA1).
    split; [reflexivity|]. split; [reflexivity|]. split; [|reflexivity].
    intros j it' Hj. inversion Hj.
Defined.

(** C4.  Any-class policy: over the windows on the active workspace or
    pinned, the operation scans circularly from the active position and
    activates the first window that is neither of the denylisted class nor
    the active window itself; it returns false after a full circuit without
    one, so a lone active window is passed over.  With A1 and B1 on the
    workspace, Next from A1 activates B1 and Next from B1 wraps to A1. *)
Theorem anyApp_cycle :
  (forall lc g delta all index,
      let activeId := _activeWindowId g in
      let inWs := filter (onWorkspace (_activeWorkspaceIndex g)) all in
      activeId <> "" ->
      _listWindowsItems lc g = ret all ->
      inWs <> [] ->
      activePosition activeId delta inWs index ->
      exists r,
        firstCandidate inWs index delta
          (fun c => Item.cls c <> COPYQ_CLS /\ Item.id c <> activeId) r
        /\ _focusRelativeAnyAppWindow lc g delta = activateOrFail g r)
  /\ (forall lc g delta all only,
         let activeId := _activeWindowId g in
         activeId <> "" ->
         _listWindowsItems lc g = ret all ->
         filter (onWorkspace (_activeWorkspaceIndex g)) all = [only] ->
         Item.id only = activeId ->
         _focusRelativeAnyAppWindow lc g delta = ret false)
  /\ _focusNextAnyAppWindow codeUnitCompare (desktop [winB1; winA1] 0 (Some winA1))
     = ([Activate (win_ref winB1) 7], Ret true)
  /\ _focusNextAnyAppWindow codeUnitCompare (desktop [winB1; winA1] 0 (Some winB1))
     = ([Activate (win_ref winA1) 7], Ret true).
Proof.
  split; [exact anyApp_scan|]. split; [|split; reflexivity].
  intros lc g delta all only activeId Hne Hlist Honly Hid.
  assert (La : JS.toLowerCase activeId = activeId) by apply activeWindowId_lower.
  assert (Li : forall it, In it [only] -> JS.toLowerCase (Item.id it) = Item.id it).
  { intros it I. rewrite <- Honly in I. eapply filter_In_lower; eassumption. }
  pose proof (startIndex_activePosition activeId delta [only] La Li) as Hpos.
  rewrite <- Honly in Hpos.
  destruct (anyApp_scan lc g delta all _ Hne Hlist
              ltac:(rewrite Honly; discriminate) Hpos) as (r & Hr & E).
  rewrite Honly in Hr.
  apply firstCandidate_singleton_inv in Hr as [[[_ Hok] _]|[_ ->]];
    [contradiction|exact E].
Qed.

Lemma anyApp_cycle_witness :
  let g := desktop [winB1; winA1] 0 (Some winA1) in
  exists r,
    firstCandidate [itemOf g winA1; itemOf g winB1] 0 1
      (fun c => Item.cls c <> COPYQ_CLS /\ Item.id c <> _activeWindowId g) r
    /\ _focusRelativeAnyAppWindow codeUnitCompare g 1 = activateOrFail g r.
Proof.
  refine (proj1 anyApp_cycle codeUnitCompare
            (desktop [winB1; winA1] 0 (Some winA1)) 1
            [itemOf _ winA1; itemOf _ winB1] 0 _ eq_refl _ _).
  - discriminate.
  - discriminate.
  - left. exists 0%nat, (itemOf (desktop [winB1; winA1] 0 (Some winA1)) winA1).
    split; [reflexivity|]. split; [reflexivity|]. split; [|reflexivity].
    intros j it' Hj. inversion Hj.
Defined.

(** ** An active window that the registry does not list *)

Lemma unlisted_unresolved lc g all :
  _activeWindowId g <> "" ->
  _listWindowsItems lc g = ret all ->
  (forall it, In it all -> Item.id it <> _activeWindowId g) ->
  _findWindowById g (_activeWindowId g) = ret None.
Proof.
  intros Hne Hlist Hno.
  unfold _findWindowById. rewrite (normalize_activeWindowId g Hne).
  apply listWindowsItems_inv in Hlist as (_ & actors & Ha & ->).
  rewrite Ha. simpl.
  destruct (findActor g (_activeWindowId g) actors) as [w|] eqn:F; [|reflexivity].
  exfalso. apply findActor_Some in F as (I & T & E).
  apply (Hno (itemOf g w)); [|exact E].
  eapply Permutation_in; [apply sort_perm|].
  apply collectItems_In. eauto.
Qed.

Lemma unlisted_find_none g all :
  JS.toLowerCase (_activeWindowId g) = _activeWindowId g ->
  (forall it, In it all -> JS.toLowerCase (Item.id it) = Item.id it) ->
  (forall it, In it all -> Item.id it <> _activeWindowId g) ->
  find (fun it => sameId (Item.id it) (_activeWindowId g)) all = None.
Proof.
  intros La Li Hno. apply find_none_iff. intros it I.
  apply sameId_lower_false; auto.
Qed.

(** C10.  [GetActiveWindow] answers with the id of the focus window
    whether or not the registry would list that window, so the id of a dock
    or skip-taskbar window can come back although no listed record carries
    it.  In that case the any-class operation does not fail on the missing
    window: it scans from one before the first window for a forward step and
    from the first window otherwise.  The same-class and other-class
    operations return false without activating anything, since the class of
    the active window cannot be determined. *)
Theorem unlisted_active_window :
  (forall g w, focusWindow g = Some w -> GetActiveWindow g = ret (_toHexId g w))
  /\ (let g := desktop [winB1; winA1; winPanel] 0 (Some winPanel) in
      _isTasklistWindow winPanel = false
      /\ GetActiveWindow g = ret "0x109"
      /\ _listWindowsItems codeUnitCompare g = ret [itemOf g winA1; itemOf g winB1]
      /\ forall it, In it [itemOf g winA1; itemOf g winB1] -> Item.id it <> "0x109")
  /\ (forall lc g delta all,
         let activeId := _activeWindowId g in
         let inWs := filter (onWorkspace (_activeWorkspaceIndex g)) all in
         activeId <> "" ->
         _listWindowsItems lc g = ret all ->
         (forall it, In it all -> Item.id it <> activeId) ->
         (inWs <> [] ->
          exists r,
            firstCandidate inWs (if 0 <? delta then -1 else 0) delta
              (fun c => Item.cls c <> COPYQ_CLS) r
            /\ _focusRelativeAnyAppWindow lc g delta = activateOrFail g r)
         /\ _focusRelativeSameAppWindow lc g delta = ret false
         /\ _focusRelativeOtherAppWindow lc g delta = ret false).
Proof.
  split; [|split].
  - intros g w H. unfold GetActiveWindow, _activeWindowId. now rewrite H.
  - cbv zeta. split; [reflexivity|]. split; [reflexivity|]. split; [reflexivity|].
    intros it [<-|[<-|[]]]; discriminate.
  - intros lc g delta all activeId inWs Hne Hlist Hno. subst activeId inWs.
    assert (La : JS.toLowerCase (_activeWindowId g) = _activeWindowId g)
      by apply activeWindowId_lower.
    assert (Li : forall it, In it all -> JS.toLowerCase (Item.id it) = Item.id it).
    { intros it I. eapply snapshot_id_lower; eassumption. }
    pose proof (unlisted_unresolved lc g all Hne Hlist Hno) as Hfind.
    pose proof (unlisted_find_none g all La Li Hno) as Hnone.
    split; [|split].
    + intros HinWs.
      assert (Hpos : activePosition (_activeWindowId g) delta
                       (filter (onWorkspace (_activeWorkspaceIndex g)) all)
                       (if 0 <? delta then -1 else 0)).
      { right. split.
        - intros it I. apply filter_In in I as [I _]. now apply Hno.
        - destruct (Z.ltb_spec 0 delta); [left|right]; split; auto. }
      destruct (anyApp_scan lc g delta all _ Hne Hlist HinWs Hpos) as (r & Hr & E).
      exists r. split; [|exact E].
      eapply firstCandidate_ext; [|exact Hr].
      intros c I. simpl. apply filter_In in I as [I _]. specialize (Hno c I).
      tauto.
    + unfold _focusRelativeSameAppWindow.
      rewrite (activeId_nonempty _ Hne), Hfind, bind_ret, Hlist, bind_ret.
      destruct all as [|a0 all']; [reflexivity|].
      unfold option_map. cbv beta iota zeta.
      now rewrite Hnone.
    + unfold _focusRelativeOtherAppWindow.
      rewrite (activeId_nonempty _ Hne), Hlist, bind_ret.
      destruct all as [|a0 all']; [reflexivity|].
      rewrite Hnone, Hfind, !bind_ret.
      reflexivity.
Qed.

Lemma unlisted_active_window_witness :
  let g := desktop [winB1; winA1; winPanel] 0 (Some winPanel) in
  let inWs := [itemOf g winA1; itemOf g winB1] in
  (inWs <> [] ->
   exists r,
     firstCandidate inWs (-1) 1 (fun c => Item.cls c <> COPYQ_CLS) r
     /\ _focusRelativeAnyAppWindow codeUnitCompare g 1 = activateOrFail g r)
  /\ _focusRelativeSameAppWindow codeUnitCompare g 1 = ret false
  /\ _focusRelativeOtherAppWindow codeUnitCompare g 1 = ret false.
Proof.
  refine (proj2 (proj2 unlisted_active_window) codeUnitCompare
            (desktop [winB1; winA1; winPanel] 0 (Some winPanel)) 1
            [itemOf _ winA1; itemOf _ winB1] _ eq_refl _).
  - discriminate.
  - intros it [<-|[<-|[]]]; discriminate.
Defined.

(** As stated, C10 has every focus-cycle operation fall back on a missing
    active window.  Here a dock of class [a.a] is focused, the workspace
    lists A1 (class [a.a]) and B1 (class [b.b]): the any-class operation
    falls back and activates A1, but the same-class and other-class
    operations return false and activate nothing. *)
Lemma focus_cycle_fails_on_unlisted_active :
  let g := desktop [winB1; winA1; winPanel] 0 (Some winPanel) in
  _activeWindowId g = "0x109"
  /\ _classInstance winPanel = "a.a"
  /\ _listWindowsItems codeUnitCompare g = ret [itemOf g winA1; itemOf g winB1]
  /\ _focusNextAnyAppWindow codeUnitCompare g = ([Activate (win_ref winA1) 7], Ret true)
  /\ _focusNextSameAppWindow codeUnitCompare g = ([], Ret false)
  /\ _focusPrevSameAppWindow codeUnitCompare g = ([], Ret false)
  /\ _focusNextOtherAppWindow codeUnitCompare g = ([], Ret false)
  /\ _focusPrevOtherAppWindow codeUnitCompare g = ([], Ret false).
Proof. cbv zeta. repeat split; reflexivity. Qed.

(** ** Normalising an id *)




(** ** Resizing *)

Lemma toInt32_id n : isInt32 n -> JS.toInt32 n = n.
Proof.
  unfold isInt32, JS.toInt32. intros H.
  destruct (Z.le_gt_cases 0 n) as [P|N].
  - rewrite Z.mod_small by lia. destruct (Z.ltb_spec n 2147483648); lia.
  - replace (n mod 4294967296) with (n + 4294967296).
    + destruct (Z.ltb_spec (n + 4294967296) 2147483648); lia.
    + apply (Z.mod_unique_pos n 4294967296 (-1)); lia.
Qed.

Lemma ensureUnminimized_log w :
  exists pre, ensureUnminimized w = (pre, Ret tt)
              /\ (pre = [] \/ pre = [Unminimize (win_ref w)]).
Proof.
  unfold ensureUnminimized.
  destruct (unminimize w) as [| |[]], (minimized w); simpl; eauto.
Qed.

Lemma findWindowById_silent g id l r : _findWindowById g id = (l, r) -> l = [].
Proof.
  unfold _findWindowById.
  destruct (_normalizeIdString id); [|now intros H; injection H as <- _].
  destruct (get_window_actors g); simpl; intros H; now injection H as <- _.
Qed.

Lemma resize_rejects g id width height :
  isInt32 width -> isInt32 height -> width <= 0 \/ height <= 0 ->
  _resizeWindowById g id width height = ret false.
Proof.
  intros Hw Hh Hbad. unfold _resizeWindowById.
  rewrite (toInt32_id _ Hw), (toInt32_id _ Hh).
  assert (E : negb ((0 <? width) && (0 <? height)) = true).
  { destruct (Z.ltb_spec 0 width), (Z.ltb_spec 0 height); simpl; auto; lia. }
  rewrite E.
  destruct (_findWindowById g id) as [l [[w|]|]] eqn:F;
    apply findWindowById_silent in F as ->; reflexivity.
Qed.

Lemma resize_invokes g id w width height :
  isInt32 width -> isInt32 height -> 0 < width -> 0 < height ->
  _findWindowById g id = ret (Some w) ->
  isFunction (move_resize_frame w) = true ->
  exists pre b,
    _resizeWindowById g id width height
    = ((pre ++ [MoveResizeFrame (win_ref w) true (fst (framePosition w))
                  (snd (framePosition w)) width height])%list, Ret b)
    /\ (pre = [] \/ pre = [Unminimize (win_ref w)])
    /\ (b = true <-> move_resize_frame w = Returns tt).
Proof.
  intros Hw Hh Pw Ph F Hfun. unfold _resizeWindowById.
  rewrite (toInt32_id _ Hw), (toInt32_id _ Hh), F, bind_ret.
  apply Z.ltb_lt in Pw, Ph. rewrite Pw, Ph. simpl negb. cbv iota.
  destruct (ensureUnminimized_log w) as (pre & -> & Hpre).
  exists pre.
  unfold framePosition in *.
  destruct (get_frame_rect w) as [| |[[[x|] [y|]]|]]; simpl fst; simpl snd;
    destruct (move_resize_frame w) as [| |[]]; try discriminate; simpl;
      rewrite ?app_nil_r;
      (eexists; split; [reflexivity|split; [exact Hpre|split; congruence]]).
Qed.

(** C9.  [ResizeById] rejects a width or height that is not positive: it
    returns false and calls no primitive at all (so for width 0 or height
    -5).  With positive dimensions, a window that resolves and a
    [move_resize_frame] to call, it calls it with the position of the
    window's frame, (0, 0) when that is unavailable, the new dimensions and
    the user-operation flag set. *)
Theorem resize_validates_dimensions :
  (forall g id width height,
      isInt32 width -> isInt32 height -> width <= 0 \/ height <= 0 ->
      ResizeById g id width height = ret false)
  /\ (forall g id w width height,
         isInt32 width -> isInt32 height -> 0 < width -> 0 < height ->
         _findWindowById g id = ret (Some w) ->
         isFunction (move_resize_frame w) = true ->
         exists pre b,
           ResizeById g id width height
           = ((pre ++ [MoveResizeFrame (win_ref w) true (fst (framePosition w))
                         (snd (framePosition w)) width height])%list, Ret b)
           /\ (pre = [] \/ pre = [Unminimize (win_ref w)])
           /\ (b = true <-> move_resize_frame w = Returns tt))
  /\ (forall w, get_frame_rect w = Absent \/ get_frame_rect w = Raises
                \/ get_frame_rect w = Returns None ->
                framePosition w = (0, 0))
  /\ ResizeById (desktop [winB1; winA1] 0 (Some winB1)) "0x101" 0 600 = ([], Ret false)
  /\ ResizeById (desktop [winB1; winA1] 0 (Some winB1)) "0x101" 800 (-5) = ([], Ret false)
  /\ ResizeById (desktop [winB1; winA1] 0 (Some winB1)) "0x101" 800 600
     = ([MoveResizeFrame (win_ref winA1) true 10 20 800 600], Ret true).
Proof.
  split; [exact resize_rejects|]. split; [exact resize_invokes|].
  split; [|repeat split; reflexivity].
  intros w [H|[H|H]]; unfold framePosition; now rewrite H.
Qed.

Lemma resize_validates_dimensions_witness :
  ResizeById (desktop [winB1; winA1] 0 (Some winB1)) "0x101" 0 (-5) = ret false.
Proof.
  refine (proj1 resize_validates_dimensions
            (desktop [winB1; winA1] 0 (Some winB1)) "0x101" 0 (-5) _ _ _).
  - unfold isInt32. lia.
  - unfold isInt32. lia.
  - left. lia.
Defined.

(** ** The launch tracker *)

Lemma updateNth_watched n (f : Notify -> Notify) l :
  (forall s, notifyWin (f s) = notifyWin s) ->
  map notifyWin (updateNth n f l) = map notifyWin l.
Proof.
  intros Hf. revert n. induction l as [|x r IH]; intros [|n]; simpl; auto.
  - now rewrite Hf.
  - now rewrite IH.
Qed.

Lemma updateNth_nth {A : Type} n (f : A -> A) l :
  nth_error (updateNth n f l) n = option_map f (nth_error l n).
Proof.
  revert n. induction l as [|x r IH]; intros [|n]; simpl; auto.
Qed.

Lemma updateNth_other {A : Type} n m (f : A -> A) l :
  n <> m -> nth_error (updateNth n f l) m = nth_error l m.
Proof.
  revert n m. induction l as [|x r IH]; intros [|n] [|m] H; simpl; auto.
  congruence.
Qed.

Lemma onWindowCreated_inv g win lw lw' notes :
  onWindowCreated g win lw = (lw', notes) ->
  maxKey lw' = maxKey lw
  /\ (watched lw' = watched lw
      \/ (watched lw' = (watched lw ++ [win_ref win])%list
          /\ maxKey lw < _creationOrderKey g win))
  /\ (forall h log r, In (PerformActions h log r) notes ->
                      h = win_ref win /\ maxKey lw < _creationOrderKey g win).
Proof.
  unfold onWindowCreated.
  destruct (String.eqb _ _ && (maxKey lw <? _)) eqn:Hm.
  - apply andb_true_iff in Hm as [_ Hk]. apply Z.ltb_lt in Hk.
    destruct (performActions g (path lw) win) as [log [[]|]]; intros H;
      injection H as <- <-; (split; [reflexivity|split; [now left|]]);
      intros h l r [E|I]; try (injection E as <- _ _; auto);
      simpl in I; repeat (destruct I as [I|I]; try discriminate); contradiction.
  - destruct (Z.ltb_spec (maxKey lw) (_creationOrderKey g win)) as [Hk|Hk];
      intros H; injection H as <- <-.
    + split; [reflexivity|]. split.
      * right. split; [|exact Hk]. unfold watched. simpl. now rewrite map_app.
      * intros h l r I. simpl in I.
        repeat (destruct I as [I|I]; try discriminate). contradiction.
    + split; [reflexivity|]. split; [now left|]. intros h l r [].
Qed.

Lemma onNotifyWmClass_inv g win n lw lw' notes :
  onNotifyWmClass g win n lw = (lw', notes) ->
  maxKey lw' = maxKey lw
  /\ watched lw' = watched lw
  /\ (forall h log r, In (PerformActions h log r) notes -> h = win_ref win).
Proof.
  unfold onNotifyWmClass.
  destruct (String.eqb _ _).
  - destruct (performActions g (path lw) win) as [log [[]|]]; intros H;
      injection H as <- <-; (split; [reflexivity|split]);
      try reflexivity;
      try (unfold watched; simpl; now apply updateNth_watched);
      intros h l r [E|I]; try (injection E as <- _ _; auto);
      simpl in I; repeat (destruct I as [I|I]; try discriminate); contradiction.
  - intros H. injection H as <- <-. repeat split. intros h l r [].
Qed.

Lemma emitWmClass_inv g win ids lw lw' notes :
  emitWmClass g win ids lw = (lw', notes) ->
  maxKey lw' = maxKey lw
  /\ watched lw' = watched lw
  /\ (forall h log r, In (PerformActions h log r) notes -> In h (watched lw)).
Proof.
  revert lw lw' notes. induction ids as [|n rest IH]; intros lw lw' notes; simpl.
  - intros H. injection H as <- <-. repeat split. intros h l r [].
  - destruct (nth_error (notifies lw) n) as [s|] eqn:Hn.
    + destruct (Nat.eqb (notifyWin s) (win_ref win) && notifyConnected s) eqn:Hc.
      * destruct (onNotifyWmClass g win n lw) as [lw1 notes1] eqn:H1.
        destruct (emitWmClass g win rest lw1) as [lw2 notes2] eqn:H2.
        intros H. injection H as <- <-.
        apply onNotifyWmClass_inv in H1 as (K1 & W1 & P1).
        apply IH in H2 as (K2 & W2 & P2).
        split; [congruence|]. split; [congruence|].
        intros h l r I. apply in_app_or in I as [I|I].
        -- apply P1 in I as ->.
           apply andb_true_iff in Hc as [Hc _]. apply Nat.eqb_eq in Hc.
           rewrite <- Hc. unfold watched. apply in_map.
           eapply nth_error_In; eassumption.
        -- rewrite <- W1. eapply P2; eassumption.
      * destruct (emitWmClass g win rest lw) as [lw2 notes2] eqn:H2.
        intros H. injection H as <- <-. now apply IH in H2.
    + destruct (emitWmClass g win rest lw) as [lw2 notes2] eqn:H2.
      intros H. injection H as <- <-. now apply IH in H2.
Qed.

Lemma step_inv lw ev lw' notes :
  step lw ev = (lw', notes) ->
  maxKey lw' = maxKey lw
  /\ (forall h, In h (watched lw') -> In h (watched lw) \/ createdAfter lw [ev] h)
  /\ (forall h log r, In (PerformActions h log r) notes ->
                      In h (watched lw) \/ createdAfter lw [ev] h).
Proof.
  destruct ev as [g win|g win|n|]; simpl.
  - destruct (handlerConnected lw).
    + intros H. apply onWindowCreated_inv in H as (K & W & P).
      split; [exact K|]. split.
      * intros h I. destruct W as [W|[W Hk]]; rewrite W in I; [now left|].
        apply in_app_or in I as [I|[<-|[]]]; [now left|].
        right. exists g, win. simpl. auto.
      * intros h l r I. apply P in I as [-> Hk].
        right. exists g, win. simpl. auto.
    + intros H. injection H as <- <-. repeat split; auto. intros h l r [].
  - intros H. apply emitWmClass_inv in H as (K & W & P).
    split; [exact K|]. split.
    + intros h I. rewrite W in I. now left.
    + intros h l r I. left. eapply P; eassumption.
  - destruct (nth_error (notifies lw) n) as [s|].
    + destruct (subTimeoutPending s); intros H; injection H as <- <-.
      * split; [reflexivity|]. split.
        -- intros h I. left. unfold watched in *. simpl in I.
           now rewrite updateNth_watched in I.
        -- intros h l r I. simpl in I. destruct I as [I|[]]. discriminate.
      * repeat split; auto. intros h l r [].
    + intros H; injection H as <- <-. repeat split; auto. intros h l r [].
  - destruct (timeoutPending lw); intros H; injection H as <- <-.
    + split; [reflexivity|]. split; [now left|].
      intros h l r I. simpl in I. destruct I as [I|[]]. discriminate.
    + repeat split; auto. intros h l r [].
Qed.

Lemma createdAfter_cons lw ev evs h :
  createdAfter lw [ev] h \/ createdAfter lw evs h -> createdAfter lw (ev :: evs) h.
Proof.
  intros [(g & win & I & E & K)|(g & win & I & E & K)]; exists g, win;
    (split; [|auto]).
  - destruct I as [<-|[]]. now left.
  - now right.
Qed.

Lemma createdAfter_maxKey lw lw' evs h :
  maxKey lw' = maxKey lw -> createdAfter lw' evs h -> createdAfter lw evs h.
Proof. intros E (g & win & I & R & K). exists g, win. rewrite <- E. auto. Qed.

(** Whatever the host delivers, the post-launch actions only ever run on a
    window that is being watched or was announced above the threshold. *)
Lemma run_perform lw evs lw' notes h log r :
  run lw evs = (lw', notes) ->
  In (PerformActions h log r) notes ->
  In h (watched lw) \/ createdAfter lw evs h.
Proof.
  revert lw lw' notes. induction evs as [|ev rest IH]; intros lw lw' notes; simpl.
  - intros H. injection H as <- <-. intros [].
  - destruct (step lw ev) as [lw1 notes1] eqn:H1.
    destruct (run lw1 rest) as [lw2 notes2] eqn:H2.
    intros H I. injection H as <- <-.
    apply step_inv in H1 as (K & W & P).
    apply in_app_or in I as [I|I].
    + destruct (P _ _ _ I) as [J|J]; [now left|].
      right. apply createdAfter_cons. now left.
    + destruct (IH _ _ _ H2 I) as [J|J].
      * destruct (W _ J) as [J'|J']; [now left|].
        right. apply createdAfter_cons. now left.
      * right. apply createdAfter_cons. right.
        eapply createdAfter_maxKey; eassumption.
Qed.


(** *** The threshold *)

Lemma fold_max_spec ks k :
  k <= fold_left Z.max ks k
  /\ (forall x, In x ks -> x <= fold_left Z.max ks k)
  /\ (fold_left Z.max ks k = k \/ In (fold_left Z.max ks k) ks).
Proof.
  revert k. induction ks as [|y ks IH]; intros k; simpl.
  - split; [lia|]. split; [intros x []|now left].
  - destruct (IH (Z.max k y)) as (H1 & H2 & H3). split; [lia|]. split.
    + intros x [<-|I]; [lia|now apply H2].
    + destruct H3 as [H3|H3]; [|now right; right].
      rewrite H3. destruct (Z.max_spec k y) as [[_ ->]|[_ ->]]; [right; now left|now left].
Qed.

Lemma maxKeyOf_spec all :
  (forall it, In it all -> Item.key it <= maxKeyOf all)
  /\ (all <> [] -> exists it, In it all /\ Item.key it = maxKeyOf all)
  /\ (all = [] -> maxKeyOf all = 0).
Proof.
  unfold maxKeyOf. destruct all as [|a rest]; simpl.
  - split; [intros it []|]. split; [congruence|reflexivity].
  - destruct (fold_max_spec (map Item.key rest) (Item.key a)) as (H1 & H2 & H3).
    split; [|split; [|discriminate]].
    + intros it [<-|I]; [exact H1|]. apply H2. now apply in_map.
    + intros _. destruct H3 as [H3|H3].
      * exists a. split; [now left|now symmetry].
      * apply in_map_iff in H3 as (it & E & I). exists it. split; [now right|exact E].
Qed.

Lemma launchHere_watch lc g p a log lw :
  _launchHere lc g p a = (log, Ret (true, Some lw)) ->
  exists all,
    _listWindowsItems lc g = ret all
    /\ lw = {| path := p; appId := a; maxKey := maxKeyOf all;
               handlerConnected := true; timeoutPending := true; notifies := [] |}.
Proof.
  unfold _launchHere.
  destruct (_listWindowsItems lc g) as [l0 [all|]] eqn:Hl; [|discriminate].
  apply listWindowsItems_inv in Hl as Hl'. destruct Hl' as (-> & _).
  change (@nil Effect, Ret all) with (ret all). rewrite bind_ret.
  destruct (spawn_command_line_async g p) as [| |[]]; simpl;
    try (intros H; discriminate H).
  destruct (display g) as [d|]; [|discriminate].
  destruct (connect_window_created d) as [| |[]]; simpl; try discriminate.
  intros H. injection H as _ <-. exists all. split; reflexivity.
Qed.

Lemma step_below_threshold lw g win :
  _creationOrderKey g win <= maxKey lw -> step lw (WindowCreated g win) = (lw, []).
Proof.
  intros H. simpl. unfold onWindowCreated.
  destruct (Z.ltb_spec (maxKey lw) (_creationOrderKey g win)); [lia|].
  rewrite andb_false_r. now destruct (handlerConnected lw).
Qed.

(** C6.  The watch records as its threshold the greatest order key of the
    snapshot taken at spawn time (0 when there is none).  A window announced
    with an order key at or below the threshold leaves the watch untouched:
    no match and no class-change subscription, whatever its class.  Along
    any sequence of events, the post-launch actions run on no window whose
    every announcement carried a key at or below the threshold, neither at
    creation nor on a later class change. *)
Theorem launch_threshold :
  (forall lc g p a log lw,
      _launchHere lc g p a = (log, Ret (true, Some lw)) ->
      exists all,
        _listWindowsItems lc g = ret all
        /\ maxKey lw = maxKeyOf all
        /\ (forall it, In it all -> Item.key it <= maxKey lw)
        /\ (all <> [] -> exists it, In it all /\ Item.key it = maxKey lw)
        /\ (all = [] -> maxKey lw = 0)
        /\ notifies lw = [])
  /\ (forall lw g win,
         _creationOrderKey g win <= maxKey lw ->
         step lw (WindowCreated g win) = (lw, []))
  /\ (forall lw evs lw' notes h,
         notifies lw = [] ->
         run lw evs = (lw', notes) ->
         (forall g win, In (WindowCreated g win) evs -> win_ref win = h ->
                        _creationOrderKey g win <= maxKey lw) ->
         forall log r, ~ In (PerformActions h log r) notes).
Proof.
  split; [|split].
  - intros lc g p a log lw H.
    apply launchHere_watch in H as (all & Hl & ->). exists all. simpl.
    destruct (maxKeyOf_spec all) as (H1 & H2 & H3). auto 10.
  - exact step_below_threshold.
  - intros lw evs lw' notes h Hn Hrun Hold log r I.
    destruct (run_perform _ _ _ _ _ _ _ Hrun I) as [J|(g & win & J & E & K)].
    + unfold watched in J. now rewrite Hn in J.
    + specialize (Hold g win J E). lia.
Qed.

Lemma launch_threshold_witness :
  _classInstance winB1 = JS.toLowerCase (appId watchB)
  /\ step watchB (WindowCreated (desktop [winB1; winA2; winA1] 0 (Some winA1)) winB1)
     = (watchB, []).
Proof.
  split; [reflexivity|].
  refine (proj1 (proj2 launch_threshold) watchB
            (desktop [winB1; winA2; winA1] 0 (Some winA1)) winB1 _).
  vm_compute. discriminate.
Defined.

(** *** What a watch holds on to *)

Lemma Forall_updateNth {A : Type} (P : A -> Prop) n (f : A -> A) l :
  (forall x, P x -> P (f x)) -> Forall P l -> Forall P (updateNth n f l).
Proof.
  intros Hf. revert n. induction l as [|x r IH]; intros n H; [now destruct n|].
  inversion H as [|? ? Hx Hr]; subst. destruct n; simpl; constructor; auto.
Qed.

Lemma updateNth_length {A : Type} n (f : A -> A) l :
  List.length (updateNth n f l) = List.length l.
Proof. revert n. induction l as [|x r IH]; intros [|n]; simpl; auto. Qed.

Lemma onNotifyWmClass_outer g win n lw lw' notes :
  onNotifyWmClass g win n lw = (lw', notes) ->
  (outerReleased lw -> outerReleased lw')
  /\ (wellFormed lw -> wellFormed lw')
  /\ (forall h log, In (PerformActions h log false) notes ->
                    outerReleased lw'
                    /\ forall s, nth_error (notifies lw') n = Some s ->
                                 notifyConnected s = false).
Proof.
  unfold onNotifyWmClass.
  destruct (String.eqb _ _).
  - destruct (performActions g (path lw) win) as [log [[]|]]; intros H;
      injection H as <- <-.
    + split; [intros _; now split|]. split.
      * intros [_ W]. split; [discriminate|].
        simpl. apply Forall_updateNth; [|exact W]. intros s _. discriminate.
      * intros h l _. split; [now split|].
        intros s. simpl. rewrite updateNth_nth.
        destruct (nth_error (notifies lw) n); simpl; [|discriminate].
        intros E. now injection E as <-.
    + split; [auto|]. split; [auto|].
      intros h l [E|[]]. discriminate.
  - intros H. injection H as <- <-. split; [auto|]. split; [auto|]. intros h l [].
Qed.

Lemma emitWmClass_outer g win ids lw lw' notes :
  emitWmClass g win ids lw = (lw', notes) ->
  (outerReleased lw -> outerReleased lw')
  /\ (wellFormed lw -> wellFormed lw')
  /\ (forall h log, In (PerformActions h log false) notes -> outerReleased lw').
Proof.
  revert lw lw' notes. induction ids as [|n rest IH]; intros lw lw' notes; simpl.
  - intros H. injection H as <- <-. split; [auto|]. split; [auto|]. intros h l [].
  - destruct (match nth_error (notifies lw) n with
              | Some s =>
                  if Nat.eqb (notifyWin s) (win_ref win) && notifyConnected s
                  then onNotifyWmClass g win n lw
                  else (lw, [])
              | None => (lw, [])
              end) as [lw1 notes1] eqn:H1.
    destruct (emitWmClass g win rest lw1) as [lw2 notes2] eqn:H2.
    intros H. injection H as <- <-.
    apply IH in H2 as (O2 & W2 & P2).
    assert (H1' : (outerReleased lw -> outerReleased lw1)
                  /\ (wellFormed lw -> wellFormed lw1)
                  /\ (forall h log, In (PerformActions h log false) notes1 ->
                                    outerReleased lw1)).
    { destruct (nth_error (notifies lw) n) as [s|].
      - destruct (Nat.eqb (notifyWin s) (win_ref win) && notifyConnected s).
        + apply onNotifyWmClass_outer in H1 as (A & B & C).
          split; [exact A|]. split; [exact B|]. intros h l I. now apply (C h l).
        + injection H1 as <- <-. split; [auto|]. split; [auto|]. intros h l [].
      - injection H1 as <- <-. split; [auto|]. split; [auto|]. intros h l []. }
    destruct H1' as (O1 & W1 & P1).
    split; [auto|]. split; [auto|].
    intros h l I. apply in_app_or in I as [I|I]; [|eauto].
    apply O2. eapply P1; eassumption.
Qed.

Lemma step_wellFormed lw ev lw' notes :
  step lw ev = (lw', notes) -> wellFormed lw -> wellFormed lw'.
Proof.
  destruct ev as [g win|g win|n|]; simpl.
  - destruct (handlerConnected lw) eqn:Hc; [|now intros H; injection H as <- <-].
    unfold onWindowCreated.
    destruct (String.eqb _ _ && (maxKey lw <? _)).
    + destruct (performActions g (path lw) win) as [log [[]|]]; intros H;
        injection H as <- <-; auto.
      intros [_ W]. split; [discriminate|exact W].
    + destruct (maxKey lw <? _); intros H; injection H as <- <-; auto.
      intros [T W]. split; [exact T|]. simpl.
      apply Forall_app. split; [exact W|]. constructor; [reflexivity|constructor].
  - intros H. now apply emitWmClass_outer in H.
  - destruct (nth_error (notifies lw) n) as [s|]; [|now intros H; injection H as <- <-].
    destruct (subTimeoutPending s); intros H; injection H as <- <-; auto.
    intros [T W]. split; [exact T|]. simpl.
    apply Forall_updateNth; [|exact W]. intros x _. discriminate.
  - destruct (timeoutPending lw); intros H; injection H as <- <-; auto.
    intros [_ W]. split; [discriminate|exact W].
Qed.

Lemma run_wellFormed lw evs lw' notes :
  run lw evs = (lw', notes) -> wellFormed lw -> wellFormed lw'.
Proof.
  revert lw lw' notes. induction evs as [|ev rest IH]; intros lw lw' notes; simpl.
  - intros H. now injection H as <- <-.
  - destruct (step lw ev) as [lw1 notes1] eqn:H1.
    destruct (run lw1 rest) as [lw2 notes2] eqn:H2.
    intros H W. injection H as <- <-.
    eapply IH; [eassumption|]. eapply step_wellFormed; eassumption.
Qed.

Lemma step_match_releases lw ev lw' notes h log :
  step lw ev = (lw', notes) ->
  In (PerformActions h log false) notes -> outerReleased lw'.
Proof.
  destruct ev as [g win|g win|n|]; simpl.
  - destruct (handlerConnected lw); [|now intros H; injection H as <- <-].
    unfold onWindowCreated.
    destruct (String.eqb _ _ && (maxKey lw <? _)).
    + destruct (performActions g (path lw) win) as [l [[]|]]; intros H;
        injection H as <- <-.
      * intros _. now split.
      * intros [E|[]]. discriminate.
    + destruct (maxKey lw <? _); intros H; injection H as <- <-.
      * intros [E|[E|[]]]; discriminate.
      * intros [].
  - intros H I. apply emitWmClass_outer in H as (_ & _ & P). eapply P; eassumption.
  - destruct (nth_error (notifies lw) n) as [s|]; [|now intros H; injection H as <- <-].
    destruct (subTimeoutPending s); intros H; injection H as <- <-.
    + intros [E|[]]. discriminate.
    + intros [].
  - destruct (timeoutPending lw); intros H; injection H as <- <-.
    + intros [E|[]]. discriminate.
    + intros [].
Qed.

Lemma subTimeouts_release m :
  forall k lw lw' notes,
    run lw (map SubTimeout (seq k m)) = (lw', notes) ->
    wellFormed lw ->
    (forall i s, (i < k)%nat -> nth_error (notifies lw) i = Some s -> spent s) ->
    handlerConnected lw' = handlerConnected lw
    /\ timeoutPending lw' = timeoutPending lw
    /\ (forall i s, (i < k + m)%nat -> nth_error (notifies lw') i = Some s -> spent s).
Proof.
  induction m as [|m IH]; intros k lw lw' notes; simpl.
  - intros H _ Hk. injection H as <- <-.
    split; [reflexivity|]. split; [reflexivity|].
    intros i s Hi. apply Hk. lia.
  - destruct (nth_error (notifies lw) k) as [s0|] eqn:Hn.
    + destruct (subTimeoutPending s0) eqn:Hp.
      * destruct (run _ (map SubTimeout (seq (S k) m))) as [lw2 notes2] eqn:H2.
        intros H W Hk. injection H as <- <-.
        apply IH in H2 as (A & B & C).
        -- simpl in A, B. split; [exact A|]. split; [exact B|].
           intros i s Hi. apply C. lia.
        -- destruct W as [T W]. split; [exact T|]. simpl.
           apply Forall_updateNth; [|exact W]. intros x _. discriminate.
        -- intros i s Hi. simpl. destruct (Nat.eq_dec k i) as [E|Hne].
           ++ subst i. rewrite updateNth_nth, Hn. simpl. intros E. injection E as <-.
              now split.
           ++ rewrite updateNth_other by exact Hne. apply Hk. lia.
      * destruct (run lw (map SubTimeout (seq (S k) m))) as [lw2 notes2] eqn:H2.
        intros H W Hk. injection H as <- <-.
        apply IH in H2 as (A & B & C); [| exact W |].
        -- split; [exact A|]. split; [exact B|].
           intros i s Hi. apply C. lia.
        -- intros i s Hi Hs. destruct (Nat.eq_dec k i) as [E|Hne]; [|apply (Hk i); [lia|exact Hs]].
           subst i. rewrite Hn in Hs. injection Hs as <-.
           destruct W as [_ W]. rewrite Forall_forall in W.
           specialize (W s0 (nth_error_In _ _ Hn)).
           split; [|exact Hp].
           destruct (notifyConnected s0); [|reflexivity].
           specialize (W eq_refl). congruence.
    + destruct (run lw (map SubTimeout (seq (S k) m))) as [lw2 notes2] eqn:H2.
      intros H W Hk. injection H as <- <-.
      apply IH in H2 as (A & B & C); [| exact W |].
      * split; [exact A|]. split; [exact B|].
        intros i s Hi. apply C. lia.
      * intros i s Hi Hs. destruct (Nat.eq_dec k i) as [E|Hne]; [congruence|].
        apply (Hk i); [lia|exact Hs].
Qed.

Lemma run_length lw evs lw' notes :
  run lw evs = (lw', notes) ->
  (forall ev, In ev evs -> exists n, ev = SubTimeout n) ->
  List.length (notifies lw') = List.length (notifies lw).
Proof.
  revert lw lw' notes. induction evs as [|ev rest IH]; intros lw lw' notes; simpl.
  - intros H _. now injection H as <- <-.
  - destruct (step lw ev) as [lw1 notes1] eqn:H1.
    destruct (run lw1 rest) as [lw2 notes2] eqn:H2.
    intros H Hev. injection H as <- <-.
    rewrite (IH _ _ _ H2) by (intros e I; apply Hev; now right).
    destruct (Hev ev (or_introl eq_refl)) as [n ->]. simpl in H1.
    destruct (nth_error (notifies lw) n) as [s|]; [|now injection H1 as <- _].
    destruct (subTimeoutPending s); injection H1 as <- _; [|reflexivity].
    simpl. apply updateNth_length.
Qed.

(** When the outer timer and every sub-timer have fired, nothing of the
    watch is left. *)
Lemma timers_release_everything lw :
  wellFormed lw ->
  released (fst (run lw (OuterTimeout
                           :: map SubTimeout (seq 0 (List.length (notifies lw)))))).
Proof.
  intros W. cbn [run].
  destruct (step lw OuterTimeout) as [lw1 notes1] eqn:H1.
  assert (O1 : outerReleased lw1 /\ notifies lw1 = notifies lw /\ wellFormed lw1).
  { simpl in H1. destruct (timeoutPending lw) eqn:T; injection H1 as <- <-.
    - split; [now split|]. split; [reflexivity|].
      destruct W as [_ W]. split; [discriminate|exact W].
    - split; [|auto]. split; [|exact T].
      destruct W as [W _]. destruct (handlerConnected lw); [|reflexivity].
      specialize (W eq_refl). congruence. }
  destruct O1 as ([Oh Ot] & En & W1). rewrite <- En.
  destruct (run lw1 _) as [lw2 notes2] eqn:H2. simpl.
  pose proof (run_length _ _ _ _ H2) as L.
  apply subTimeouts_release in H2 as (A & B & C); [|exact W1|intros i s Hi; lia].
  split; [split; congruence|].
  apply Forall_forall. intros s I.
  apply In_nth_error in I as [i Hi].
  apply (C i s); [|exact Hi].
  assert (i < List.length (notifies lw2))%nat by (apply nth_error_Some; congruence).
  rewrite L in H; [lia|].
  intros ev Iev. apply in_map_iff in Iev as (n & <- & _). now exists n.
Qed.

Lemma initial_wellFormed lc g p a log lw :
  _launchHere lc g p a = (log, Ret (true, Some lw)) -> wellFormed lw.
Proof.
  intros H. apply launchHere_watch in H as (all & _ & ->).
  split; [reflexivity|constructor].
Qed.




(** ** What reaches the D-Bus layer *)

(** Every exported method other than [LaunchHere] has its body in a [try]
    whose handler returns a value, or raises nowhere: it answers with a
    value whatever the window system does. *)
Lemma wrapped_operations_return lc g :
  (exists l v, ListWindows lc g = (l, Ret v))
  /\ (forall id, exists l v, ActivateById g id = (l, Ret v))
  /\ (exists l v, GetActiveWorkspace g = (l, Ret v))
  /\ (exists l v, GetActiveWindow g = (l, Ret v))
  /\ (forall id w h, exists l v, ResizeById g id w h = (l, Ret v))
  /\ (forall id i, exists l v, MoveToWorkspaceById g id i = (l, Ret v))
  /\ (forall i, exists l v, SwitchWorkspace g i = (l, Ret v))
  /\ (exists l v, FocusNextSameAppWindow lc g = (l, Ret v))
  /\ (exists l v, FocusPrevSameAppWindow lc g = (l, Ret v))
  /\ (exists l v, FocusNextOtherAppWindow lc g = (l, Ret v))
  /\ (exists l v, FocusPrevOtherAppWindow lc g = (l, Ret v))
  /\ (exists l v, FocusNextAnyAppWindow lc g = (l, Ret v))
  /\ (exists l v, FocusPrevAnyAppWindow lc g = (l, Ret v))
  /\ (forall cls, exists l v, FocusByCls lc g cls = (l, Ret v)).
Proof.
  repeat split; intros;
    try apply try_catch_returns;
    unfold GetActiveWorkspace, GetActiveWindow, ret; eauto.
Qed.

(** C8.  [LaunchHere] is the one exported method whose body is not
    guarded: it takes its snapshot and connects its subscription outside any
    [try].  When the enumeration of windows raises, the exception leaves
    [LaunchHere] before anything is spawned; without a display object it
    leaves after the command was spawned.  No boolean is returned in either
    case. *)
Theorem launchHere_lets_exception_escape :
  (forall lc g p a, get_window_actors g = Raises -> LaunchHere lc g p a = ([], Throw))
  /\ LaunchHere codeUnitCompare brokenDesktop "xterm" "xterm" = ([], Throw)
  /\ LaunchHere codeUnitCompare headlessDesktop "xterm" "xterm" = ([Spawn "xterm"], Throw).
Proof.
  split; [|split; reflexivity].
  intros lc g p a H. unfold LaunchHere, _launchHere, _listWindowsItems. now rewrite H.
Qed.

Lemma launchHere_lets_exception_escape_witness :
  LaunchHere codeUnitCompare brokenDesktop "kitty" "kitty" = ([], Throw).
Proof.
  exact (proj1 launchHere_lets_exception_escape codeUnitCompare brokenDesktop
           "kitty" "kitty" eq_refl).
Defined.
(* ===================================================================== *)
(** ** Further properties of the registry                                *)
(* ===================================================================== *)

Section ClassKey.
Import JS JSFacts.

Lemma lowerChar_idem c : lowerChar (lowerChar c) = lowerChar c.
Proof. by_cases_on_char c. Qed.

Lemma toLowerCase_idem s : toLowerCase (toLowerCase s) = toLowerCase s.
Proof. induction s as [|c r IH]; simpl; [reflexivity|]. now rewrite lowerChar_idem, IH. Qed.

Lemma toLowerCase_nonempty s : s <> "" -> toLowerCase s <> "".
Proof. destruct s; [congruence | discriminate]. Qed.

(** The name [_classInstance] settles on for one half of the key. *)
Lemma classInstance_halves w :
  exists inst cls,
    inst <> "" /\ cls <> ""
    /\ _classInstance w = toLowerCase inst ++ "." ++ toLowerCase cls.
Proof.
  unfold _classInstance.
  set (i0 := match get_wm_class_instance w with Returns v => v | _ => None end).
  set (c0 := match get_wm_class w with Returns v => v | _ => None end).
  destruct (if negb (truthy i0) || negb (truthy c0)
            then match window_app_id w with
                 | Returns (Some appId) =>
                     (if truthy i0 then i0 else Some appId,
                      if truthy c0 then c0 else Some appId)
                 | _ => (i0, c0)
                 end
            else (i0, c0)) as [i c].
  exists (match i with Some (String a r) => String a r | _ => "unknown" end),
         (match c with Some (String a r) => String a r | _ => "unknown" end).
  split; [|split; [|reflexivity]].
  - destruct i as [[|]|]; discriminate.
  - destruct c as [[|]|]; discriminate.
Qed.

Lemma classInstance_lower w : toLowerCase (_classInstance w) = _classInstance w.
Proof.
  destruct (classInstance_halves w) as (i & c & _ & _ & E).
  rewrite E, !toLowerCase_app, !toLowerCase_idem. reflexivity.
Qed.

(** X1 (_classInstance).  The class key of every window is in lower case
    and has the form [instance.class] with both halves non-empty; when the
    window reports a non-empty instance and a non-empty class these are
    used, whatever the application tracker says; when it reports neither and
    the tracker knows no application, the key is [unknown.unknown]. *)
Theorem classInstance_shape :
  (forall w,
      JS.toLowerCase (_classInstance w) = _classInstance w
      /\ exists inst cls,
           inst <> "" /\ cls <> "" /\ _classInstance w = inst ++ "." ++ cls)
  /\ (forall w inst cls,
         get_wm_class_instance w = Returns (Some inst) -> inst <> "" ->
         get_wm_class w = Returns (Some cls) -> cls <> "" ->
         _classInstance w = JS.toLowerCase inst ++ "." ++ JS.toLowerCase cls)
  /\ (forall w,
         (forall v, get_wm_class_instance w = Returns (Some v) -> v = "") ->
         (forall v, get_wm_class w = Returns (Some v) -> v = "") ->
         (forall a, window_app_id w <> Returns (Some a)) ->
         _classInstance w = "unknown.unknown").
Proof.
  split; [|split].
  - intros w. destruct (classInstance_halves w) as (i & c & Hi & Hc & E).
    split.
    + apply classInstance_lower.
    + exists (toLowerCase i), (toLowerCase c).
      split; [now apply toLowerCase_nonempty|].
      split; [now apply toLowerCase_nonempty|exact E].
  - intros w inst cls Ei Hi Ec Hc. unfold _classInstance. rewrite Ei, Ec.
    destruct inst; [congruence|]. destruct cls; [congruence|]. reflexivity.
  - intros w Hi Hc Ha. unfold _classInstance.
    assert (Ei : truthy (match get_wm_class_instance w with Returns v => v | _ => None end)
                 = false).
    { destruct (get_wm_class_instance w) as [| |[v|]]; try reflexivity.
      now rewrite (Hi v eq_refl). }
    assert (Ec : truthy (match get_wm_class w with Returns v => v | _ => None end) = false).
    { destruct (get_wm_class w) as [| |[v|]]; try reflexivity.
      now rewrite (Hc v eq_refl). }
    rewrite Ei, Ec. simpl.
    destruct (window_app_id w) as [| |[a|]] eqn:Ea;
      try (exfalso; now apply (Ha a)).
    all: destruct (get_wm_class_instance w) as [| |[[|]|]];
      destruct (get_wm_class w) as [| |[[|]|]]; try discriminate; reflexivity.
Qed.

Lemma classInstance_shape_witness : _classInstance winA1 = "a.a".
Proof.
  exact (proj1 (proj2 classInstance_shape) winA1 "a" "a" eq_refl
           ltac:(discriminate) eq_refl ltac:(discriminate)).
Defined.

End ClassKey.

Section OrderKey.
Import JS JSFacts.

Lemma parseInt16_of_canonical n :
  (let hex := canonical n in
   let s := if startsWith "0x" hex then slice 2 hex else hex in
   parseInt16 s) = Some n.
Proof.
  cbv zeta. unfold canonical.
  change (startsWith "0x" ("0x" ++ toString16 n)) with true.
  change (slice 2 ("0x" ++ toString16 n)) with (toString16 n).
  cbv iota.
  rewrite <- (append_empty_r (toString16 n)).
  now apply parseInt16_toString16.
Qed.

Lemma creationOrderKey_fromHex g w :
  (forall k, get_stable_sequence w = Returns k -> k <= 0) ->
  (forall k, get_id w = Returns k -> k <= 0) ->
  _toHexId g w = canonical (_creationOrderKey g w).
Proof.
  intros Hs Hi.
  destruct (toHexId_canonical g w) as [n En].
  assert (Ek : _creationOrderKey g w = n).
  { unfold _creationOrderKey. rewrite En.
    pose proof (parseInt16_of_canonical n) as P. cbv zeta in P. rewrite P.
    destruct (get_stable_sequence w) as [| |k] eqn:Es.
    - destruct (get_id w) as [| |k'] eqn:Ei; try reflexivity.
      specialize (Hi k' eq_refl). destruct (0 <? k') eqn:L; [lia|reflexivity].
    - destruct (get_id w) as [| |k'] eqn:Ei; try reflexivity.
      specialize (Hi k' eq_refl). destruct (0 <? k') eqn:L; [lia|reflexivity].
    - specialize (Hs k eq_refl). destruct (0 <? k) eqn:L; [lia|].
      destruct (get_id w) as [| |k'] eqn:Ei; try reflexivity.
      specialize (Hi k' eq_refl). destruct (0 <? k') eqn:L'; [lia|reflexivity]. }
  now rewrite Ek.
Qed.



Lemma toHexId_nonempty g w : _toHexId g w <> "".
Proof.
  destruct (toHexId_canonical g w) as [n ->]. discriminate.
Qed.

(** X3 (_activeWindowId).  [GetActiveWindow] answers the empty string
    exactly when there is no focus window: a focus window always has a
    non-empty id, listed or not. *)
Theorem activeWindowId_empty_iff :
  forall g : Global, _activeWindowId g = "" <-> focusWindow g = None.
Proof.
  intros g. unfold _activeWindowId. destruct (focusWindow g) as [w|].
  - split; [|discriminate]. intros E. now apply toHexId_nonempty in E.
  - tauto.
Qed.

End OrderKey.

Section Listing.
Variable lc : string -> string -> Z.

Lemma collectItems_eligible g actors :
  collectItems g actors = map (itemOf g) (eligibleWindows actors).
Proof.
  induction actors as [|[w|] rest IH]; simpl; [reflexivity| |exact IH].
  destruct (_isTasklistWindow w); simpl; now rewrite IH.
Qed.

(** X4 (_listWindowsItems, _listWindows).  When the enumeration returns,
    the snapshot holds exactly one record per eligible window of the
    enumeration (a permutation of their records: nothing is lost, doubled
    or invented by the sort), and [_listWindows] prints one line per
    eligible window. *)
Theorem snapshot_lists_eligible_windows :
  forall (g : Global) (actors : list (option MetaWindow)),
    get_window_actors g = Returns actors ->
    exists all lines,
      _listWindowsItems lc g = ret all
      /\ Permutation (map (itemOf g) (eligibleWindows actors)) all
      /\ _listWindows lc g = ret lines
      /\ List.length lines = List.length (eligibleWindows actors).
Proof.
  intros g actors Ea.
  exists (sort (compareItems lc) (collectItems g actors)).
  eexists. unfold _listWindows, _listWindowsItems. rewrite Ea. simpl.
  split; [reflexivity|]. split; [|split; [reflexivity|]].
  - rewrite <- collectItems_eligible. apply sort_perm.
  - rewrite length_map, <- (Permutation_length (sort_perm (compareItems lc) _)).
    now rewrite collectItems_eligible, length_map.
Qed.


End Listing.

Lemma snapshot_lists_eligible_windows_witness :
  exists all lines,
    _listWindowsItems codeUnitCompare (desktop [winB1; winA1; winPanel] 0 (Some winA1))
    = ret all
    /\ Permutation
         (map (itemOf (desktop [winB1; winA1; winPanel] 0 (Some winA1)))
              (eligibleWindows [Some winB1; Some winA1; Some winPanel])) all
    /\ _listWindows codeUnitCompare (desktop [winB1; winA1; winPanel] 0 (Some winA1))
       = ret lines
    /\ List.length lines = List.length (eligibleWindows [Some winB1; Some winA1; Some winPanel]).
Proof.
  exact (snapshot_lists_eligible_windows codeUnitCompare
           (desktop [winB1; winA1; winPanel] 0 (Some winA1))
           [Some winB1; Some winA1; Some winPanel] eq_refl).
Defined.


Section CreationOrder.
Variable lc : string -> string -> Z.

Lemma compareItems_keyLe a b :
  (compareItems lc a b <= 0 -> keyLe a b)
  /\ (~ compareItems lc a b <= 0 -> keyLe b a).
Proof.
  unfold compareItems, keyLe.
  destruct (Z.eqb_spec (Item.key a) (Item.key b)) as [E|E]; simpl.
  - split; intros _; lia.
  - split; intros H; lia.
Qed.

Lemma insertSorted_keyLe x l :
  StronglySorted keyLe l -> StronglySorted keyLe (insertSorted (compareItems lc) x l).
Proof.
  induction l as [|y r IH]; intros Hs; simpl.
  - constructor; constructor.
  - apply StronglySorted_inv in Hs. destruct Hs as [Hr Hy].
    destruct (Z.leb_spec (compareItems lc x y) 0) as [L|L].
    + constructor; [constructor; assumption|].
      assert (Hxy : keyLe x y) by (apply (proj1 (compareItems_keyLe x y)); lia).
      constructor; [exact Hxy|].
      eapply Forall_impl; [|exact Hy]. unfold keyLe in *. intros z Hz. lia.
    + constructor; [now apply IH|].
      assert (Hyx : keyLe y x) by (apply (proj2 (compareItems_keyLe x y)); lia).
      eapply Permutation_Forall; [apply insertSorted_perm|].
      constructor; assumption.
Qed.

Lemma sort_keyLe l : StronglySorted keyLe (sort (compareItems lc) l).
Proof.
  induction l as [|x r IH]; simpl; [constructor|now apply insertSorted_keyLe].
Qed.

Lemma sorted_last (l : list Item.t) x d :
  StronglySorted keyLe l -> In x l -> keyLe x (last l d).
Proof.
  induction l as [|a r IH]; intros Hs Hin; [contradiction|].
  apply StronglySorted_inv in Hs. destruct Hs as [Hr Ha].
  destruct r as [|b r'].
  - destruct Hin as [<-|[]]. unfold keyLe. simpl. lia.
  - change (last (a :: b :: r') d) with (last (b :: r') d).
    destruct Hin as [<-|Hin]; [|now apply IH].
    rewrite Forall_forall in Ha. apply Ha.
    destruct (exists_last (l := b :: r') ltac:(discriminate)) as (l' & z & E).
    rewrite E, last_last. apply in_or_app. right. now left.
Qed.

(** X6 (_listWindowsItems, _launchHere).  The snapshot is in creation
    order whatever the collation of the host is: the order keys never
    descend along it, because the comparator looks at the strings only
    between equal keys.  The threshold [_launchHere] computes with
    [Math.max] is therefore the key of the last listed window. *)
Theorem snapshot_in_creation_order :
  forall (g : Global) (all : list Item.t),
    _listWindowsItems lc g = ret all ->
    StronglySorted keyLe all
    /\ (forall d, all <> [] -> maxKeyOf all = Item.key (last all d)).
Proof.
  intros g all Hl.
  assert (Hs : StronglySorted keyLe all).
  { apply listWindowsItems_inv in Hl. destruct Hl as (_ & actors & _ & ->).
    apply sort_keyLe. }
  split; [exact Hs|].
  intros d Hne.
  destruct (maxKeyOf_spec all) as (Hmax & Hex & _).
  destruct (Hex Hne) as (it & Hin & Eit).
  pose proof (sorted_last all it d Hs Hin) as H1.
  assert (Hlast : In (last all d) all).
  { destruct (exists_last Hne) as (l' & z & E). rewrite E, last_last.
    apply in_or_app. right. now left. }
  pose proof (Hmax _ Hlast) as H2. unfold keyLe in H1. lia.
Qed.

End CreationOrder.

Lemma snapshot_in_creation_order_witness :
  let g := desktop [winB1; winA2; winA1] 0 (Some winA1) in
  StronglySorted keyLe [itemOf g winA1; itemOf g winA2; itemOf g winB1]
  /\ (forall d,
         [itemOf g winA1; itemOf g winA2; itemOf g winB1] <> [] ->
         maxKeyOf [itemOf g winA1; itemOf g winA2; itemOf g winB1]
         = Item.key (last [itemOf g winA1; itemOf g winA2; itemOf g winB1] d)).
Proof.
  intros g.
  exact (snapshot_in_creation_order codeUnitCompare g
           [itemOf g winA1; itemOf g winA2; itemOf g winB1] eq_refl).
Defined.

(* ===================================================================== *)
(** ** Further properties of the window control operations               *)
(* ===================================================================== *)

Section Addressing.
Variable lc : string -> string -> Z.

Lemma findWindowById_unlisted g id all :
  _listWindowsItems lc g = ret all ->
  (forall it, In it all -> _normalizeIdString id <> Some (Item.id it)) ->
  _findWindowById g id = ret None.
Proof.
  intros Hl Hno. apply listWindowsItems_inv in Hl. destruct Hl as (_ & actors & Ea & ->).
  unfold _findWindowById. destruct (_normalizeIdString id) as [norm|] eqn:En; [|reflexivity].
  rewrite Ea. simpl. destruct (findActor g norm actors) as [w|] eqn:Ef; [|reflexivity].
  exfalso. apply findActor_Some in Ef. destruct Ef as (Hin & Ht & Eid).
  apply (Hno (itemOf g w)); [|simpl; now rewrite Eid].
  apply (Permutation_in _ (sort_perm (compareItems lc) _)).
  apply collectItems_In. now exists w.
Qed.

Lemma findWindowById_failing g id :
  (forall actors, get_window_actors g <> Returns actors) ->
  _findWindowById g id = ret None \/ _findWindowById g id = throw.
Proof.
  intros H. unfold _findWindowById. destruct (_normalizeIdString id); [|now left].
  destruct (get_window_actors g) as [| |actors]; [now right|now right|now elim (H actors)].
Qed.

(** X7 (_findWindowById and the by-id operations).  An id that is the
    normal form of no listed window addresses nothing: [ActivateById],
    [ResizeById] and [MoveToWorkspaceById] answer false without calling any
    primitive.  The same holds when the window enumeration fails. *)
Theorem unlisted_id_is_refused :
  (forall g id all width height index,
      _listWindowsItems lc g = ret all ->
      (forall it, In it all -> _normalizeIdString id <> Some (Item.id it)) ->
      ActivateById g id = ret false
      /\ ResizeById g id width height = ret false
      /\ MoveToWorkspaceById g id index = ret false)
  /\ (forall g id width height index,
         (forall actors, get_window_actors g <> Returns actors) ->
         ActivateById g id = ret false
         /\ ResizeById g id width height = ret false
         /\ MoveToWorkspaceById g id index = ret false).
Proof.
  split.
  - intros g id all width height index Hl Hno.
    pose proof (findWindowById_unlisted g id all Hl Hno) as E.
    unfold ActivateById, ResizeById, MoveToWorkspaceById, _activateWindowById,
      _resizeWindowById, _moveWindowToWorkspaceById.
    rewrite E. repeat split; reflexivity.
  - intros g id width height index H.
    unfold ActivateById, ResizeById, MoveToWorkspaceById, _activateWindowById,
      _resizeWindowById, _moveWindowToWorkspaceById.
    destruct (findWindowById_failing g id H) as [E|E]; rewrite E;
      repeat split; reflexivity.
Qed.

Lemma findWindowById_normal g a b :
  _normalizeIdString a = _normalizeIdString b -> _findWindowById g a = _findWindowById g b.
Proof. intros E. unfold _findWindowById. now rewrite E. Qed.

(** X8 (_normalizeIdString, _findWindowById and the by-id operations).
    A listed window can be addressed by any spelling of its id, in either
    case of the letters and with the prefix [0x], [0X] or none: the spelling
    resolves to an eligible window carrying that id, and each by-id
    operation does with it exactly what it does with the id as listed. *)
Theorem any_spelling_addresses :
  forall (g : Global) (all : list Item.t) (it : Item.t) (input : string),
    _listWindowsItems lc g = ret all ->
    In it all ->
    spells input (Item.id it) ->
    (exists w, _findWindowById g input = ret (Some w)
               /\ _isTasklistWindow w = true /\ _toHexId g w = Item.id it)
    /\ ActivateById g input = ActivateById g (Item.id it)
    /\ (forall width height,
           ResizeById g input width height = ResizeById g (Item.id it) width height)
    /\ (forall index,
           MoveToWorkspaceById g input index = MoveToWorkspaceById g (Item.id it) index).
Proof.
  intros g all it input Hl Hin (n & pre & s & Eid & -> & Es & Hpre).
  assert (En : _normalizeIdString (pre ++ s) = _normalizeIdString (Item.id it)).
  { rewrite (normalize_variant n pre s Es Hpre), Eid. symmetry. apply normalize_canonical. }
  pose proof (findWindowById_normal g _ _ En) as Ef.
  split; [|split; [|split]].
  - rewrite Ef. exact (listed_id_resolves lc g all it Hl Hin).
  - unfold ActivateById, _activateWindowById. now rewrite Ef.
  - intros. unfold ResizeById, _resizeWindowById. now rewrite Ef.
  - intros. unfold MoveToWorkspaceById, _moveWindowToWorkspaceById. now rewrite Ef.
Qed.

End Addressing.

Lemma unlisted_id_is_refused_witness :
  ActivateById (desktop [winB1; winA1; winPanel] 0 (Some winA1)) "0x109" = ret false
  /\ ResizeById (desktop [winB1; winA1; winPanel] 0 (Some winA1)) "0x109" 800 600 = ret false
  /\ MoveToWorkspaceById (desktop [winB1; winA1; winPanel] 0 (Some winA1)) "0x109" 1
     = ret false.
Proof.
  apply (proj1 (unlisted_id_is_refused codeUnitCompare)
           (desktop [winB1; winA1; winPanel] 0 (Some winA1)) "0x109"
           [itemOf (desktop [winB1; winA1; winPanel] 0 (Some winA1)) winA1;
            itemOf (desktop [winB1; winA1; winPanel] 0 (Some winA1)) winB1]).
  - reflexivity.
  - intros it [<-|[<-|[]]]; vm_compute; discriminate.
Defined.

Lemma any_spelling_addresses_witness :
  let g := desktop [winB1; winA1] 0 (Some winA1) in
  (exists w, _findWindowById g "0X103" = ret (Some w)
             /\ _isTasklistWindow w = true /\ _toHexId g w = Item.id (itemOf g winB1))
  /\ ActivateById g "0X103" = ActivateById g (Item.id (itemOf g winB1))
  /\ (forall width height,
         ResizeById g "0X103" width height
         = ResizeById g (Item.id (itemOf g winB1)) width height)
  /\ (forall index,
         MoveToWorkspaceById g "0X103" index
         = MoveToWorkspaceById g (Item.id (itemOf g winB1)) index).
Proof.
  intros g.
  apply (any_spelling_addresses codeUnitCompare g [itemOf g winA1; itemOf g winB1]
           (itemOf g winB1) "0X103").
  - reflexivity.
  - right. left. reflexivity.
  - exists 259, "0X", "103". repeat split; try reflexivity. right. right. reflexivity.
Defined.

Section Placement.

(** X9 (_moveWindowToWorkspaceById).  With the window and the target
    workspace resolved, a window pinned to all workspaces is left alone and
    the answer is true; any other window is moved by one call of
    [change_workspace_by_index(index, false)], and the answer is true
    exactly when that call returns.  The workspace is resolved first: where
    no workspace stands at the index the answer is false, pinned or not. *)
Theorem move_to_workspace_behaviour :
  (forall g id w wm ws index,
      isInt32 index ->
      _findWindowById g id = ret (Some w) ->
      workspaceManagerObject g = Some wm ->
      workspaceByIndex wm index = Some ws ->
      is_on_all_workspaces w = Returns true ->
      MoveToWorkspaceById g id index = ret true)
  /\ (forall g id w wm ws index,
         isInt32 index ->
         _findWindowById g id = ret (Some w) ->
         workspaceManagerObject g = Some wm ->
         workspaceByIndex wm index = Some ws ->
         is_on_all_workspaces w = Returns false \/ is_on_all_workspaces w = Absent ->
         isFunction (change_workspace_by_index w) = true ->
         exists b,
           MoveToWorkspaceById g id index
           = ([ChangeWorkspaceByIndex (win_ref w) index false], Ret b)
           /\ (b = true <-> change_workspace_by_index w = Returns tt))
  /\ (forall g id w wm index,
         isInt32 index ->
         _findWindowById g id = ret (Some w) ->
         workspaceManagerObject g = Some wm ->
         workspaceByIndex wm index = None ->
         MoveToWorkspaceById g id index = ret false).
Proof.
  split; [|split].
  - intros g id w wm ws index Hi Ef Ewm Ews Es.
    unfold MoveToWorkspaceById, _moveWindowToWorkspaceById.
    rewrite Ef, bind_ret, Ewm, (toInt32_id index Hi), Ews, Es. reflexivity.
  - intros g id w wm ws index Hi Ef Ewm Ews Es Hf.
    unfold MoveToWorkspaceById, _moveWindowToWorkspaceById.
    rewrite Ef, bind_ret, Ewm, (toInt32_id index Hi), Ews.
    destruct (change_workspace_by_index w) as [| |[]] eqn:Ec; [discriminate| |].
    + exists false. destruct Es as [-> | ->]; simpl;
        (split; [reflexivity|split; discriminate]).
    + exists true. destruct Es as [-> | ->]; simpl;
        (split; [reflexivity|split; reflexivity]).
  - intros g id w wm index Hi Ef Ewm Ews.
    unfold MoveToWorkspaceById, _moveWindowToWorkspaceById.
    rewrite Ef, bind_ret, Ewm, (toInt32_id index Hi), Ews. reflexivity.
Qed.

(** X10 (_switchWorkspace).  A negative index is refused, and so is an
    index at which no workspace stands; for a
    workspace that has [activate], that method is called once with the
    event timestamp and the answer is true exactly when it returns; the
    display's [activate_workspace] is the fallback only for a workspace
    without [activate]. *)
Theorem switch_workspace_behaviour :
  (forall g index, isInt32 index -> index < 0 -> SwitchWorkspace g index = ret false)
  /\ (forall g wm index,
         isInt32 index -> 0 <= index ->
         workspaceManagerObject g = Some wm ->
         workspaceByIndex wm index = None ->
         SwitchWorkspace g index = ret false)
  /\ (forall g wm ws index,
         isInt32 index -> 0 <= index ->
         workspaceManagerObject g = Some wm ->
         workspaceByIndex wm index = Some ws ->
         isFunction (ws_activate ws) = true ->
         exists b,
           SwitchWorkspace g index = ([WsActivate (ws_ref ws) (eventTimestamp g)], Ret b)
           /\ (b = true <-> ws_activate ws = Returns tt))
  /\ (forall g wm ws d index,
         isInt32 index -> 0 <= index ->
         workspaceManagerObject g = Some wm ->
         workspaceByIndex wm index = Some ws ->
         ws_activate ws = Absent ->
         display g = Some d ->
         isFunction (activate_workspace d) = true ->
         exists b,
           SwitchWorkspace g index
           = ([DisplayActivateWorkspace (ws_ref ws) (eventTimestamp g)], Ret b)
           /\ (b = true <-> activate_workspace d = Returns tt)).
Proof.
  split; [|split; [|split]].
  - intros g index Hi Hneg. unfold SwitchWorkspace, _switchWorkspace.
    rewrite (toInt32_id index Hi).
    destruct (workspaceManagerObject g); [|reflexivity].
    destruct (0 <=? index) eqn:L; [lia|reflexivity].
  - intros g wm index Hi Hpos Ewm Ews. unfold SwitchWorkspace, _switchWorkspace.
    rewrite (toInt32_id index Hi), Ewm, Ews.
    destruct (0 <=? index) eqn:L; [reflexivity|lia].
  - intros g wm ws index Hi Hpos Ewm Ews Hf. unfold SwitchWorkspace, _switchWorkspace.
    rewrite (toInt32_id index Hi), Ewm, Ews.
    destruct (0 <=? index) eqn:L; [|lia]. cbv zeta. simpl negb. cbv iota.
    destruct (ws_activate ws) as [| |[]] eqn:Ea; [discriminate| |].
    + exists false. simpl. split; [reflexivity|split; discriminate].
    + exists true. simpl. split; [reflexivity|split; reflexivity].
  - intros g wm ws d index Hi Hpos Ewm Ews Ea Ed Hf.
    unfold SwitchWorkspace, _switchWorkspace.
    rewrite (toInt32_id index Hi), Ewm, Ews, Ea, Ed.
    destruct (0 <=? index) eqn:L; [|lia]. cbv zeta. simpl negb. cbv iota.
    destruct (activate_workspace d) as [| |[]] eqn:Eaw; [discriminate| |].
    + exists false. simpl. split; [reflexivity|split; discriminate].
    + exists true. simpl. split; [reflexivity|split; reflexivity].
Qed.

(** X11 (_activateWindowById).  Activation follows the window to its
    workspace: for a window that is not pinned and whose workspace index
    differs from the active one, the workspace is activated first, with the
    timestamp the window is then activated with; on the active workspace,
    and for a pinned window, no workspace is switched.  A workspace switch
    that raises does not stop the activation. *)
Theorem activation_follows_workspace :
  (forall g id w ws a i j,
      _findWindowById g id = ret (Some w) ->
      is_on_all_workspaces w = Returns false ->
      get_workspace w = Returns (Some ws) ->
      activeWorkspaceObject g = Returns (Some a) ->
      ws_index a = Returns i -> ws_index ws = Returns j ->
      isFunction (ws_activate ws) = true ->
      isFunction (activate w) = true ->
      exists mid b,
        ActivateById g id
        = (((if i =? j then [] else [WsActivate (ws_ref ws) (eventTimestamp g)])
            ++ mid ++ [Activate (win_ref w) (eventTimestamp g)])%list, Ret b)
        /\ (mid = [] \/ mid = [Unminimize (win_ref w)])
        /\ (b = true <-> activate w = Returns tt))
  /\ (forall g id w,
         _findWindowById g id = ret (Some w) ->
         is_on_all_workspaces w = Returns true ->
         isFunction (activate w) = true ->
         exists mid b,
           ActivateById g id
           = ((mid ++ [Activate (win_ref w) (eventTimestamp g)])%list, Ret b)
           /\ (mid = [] \/ mid = [Unminimize (win_ref w)])
           /\ (b = true <-> activate w = Returns tt)).
Proof.
  split.
  - intros g id w ws a i j Ef Es Ew Ea Ei Ej Hwa Hact.
    destruct (ensureUnminimized_log w) as (mid & Em & Hmid).
    unfold ActivateById, _activateWindowById. rewrite Ef, bind_ret. cbv zeta.
    assert (Efw : followWorkspace g w (eventTimestamp g)
                  = (if i =? j then [] else [WsActivate (ws_ref ws) (eventTimestamp g)],
                     Ret tt)).
    { unfold followWorkspace, activateWorkspace. rewrite Es, Ew, Ea. simpl.
      rewrite Ei, Ej, Hwa. simpl.
      destruct (i =? j); simpl; [reflexivity|].
      destruct (ws_activate ws) as [| |[]]; [discriminate| |]; reflexivity. }
    rewrite Efw, Em.
    destruct (activate w) as [| |[]] eqn:Eact; [discriminate| |].
    + exists mid, false. simpl. rewrite ?app_nil_r.
      split; [reflexivity|]. split; [exact Hmid|split; discriminate].
    + exists mid, true. simpl. rewrite ?app_nil_r.
      split; [reflexivity|]. split; [exact Hmid|split; reflexivity].
  - intros g id w Ef Es Hact.
    destruct (ensureUnminimized_log w) as (mid & Em & Hmid).
    unfold ActivateById, _activateWindowById. rewrite Ef, bind_ret. cbv zeta.
    assert (Efw : followWorkspace g w (eventTimestamp g) = ([], Ret tt)).
    { unfold followWorkspace. rewrite Es. simpl.
      destruct (isFunction (get_workspace w)); [|reflexivity].
      destruct (get_workspace w) as [| |[ws|]]; reflexivity. }
    rewrite Efw, Em.
    destruct (activate w) as [| |[]] eqn:Eact; [discriminate| |].
    + exists mid, false. simpl. rewrite ?app_nil_r.
      split; [reflexivity|]. split; [exact Hmid|split; discriminate].
    + exists mid, true. simpl. rewrite ?app_nil_r.
      split; [reflexivity|]. split; [exact Hmid|split; reflexivity].
Qed.

End Placement.

Lemma move_to_workspace_behaviour_witness :
  exists b,
    MoveToWorkspaceById (desktop [winB1; winA1] 0 (Some winA1)) "0x101" 1
    = ([ChangeWorkspaceByIndex (win_ref winA1) 1 false], Ret b)
    /\ (b = true <-> change_workspace_by_index winA1 = Returns tt).
Proof.
  apply (proj1 (proj2 move_to_workspace_behaviour)
           (desktop [winB1; winA1] 0 (Some winA1)) "0x101" winA1 (managerAt 0)
           (workspaceAt 1) 1).
  - unfold isInt32. lia.
  - reflexivity.
  - reflexivity.
  - reflexivity.
  - left. reflexivity.
  - reflexivity.
Defined.

Lemma switch_workspace_behaviour_witness :
  SwitchWorkspace (desktop [winB1; winA1] 0 (Some winA1)) (-1) = ret false.
Proof.
  apply (proj1 switch_workspace_behaviour).
  - unfold isInt32. lia.
  - lia.
Defined.

Lemma activation_follows_workspace_witness :
  let g := desktop [winB2; winA1] 0 (Some winA1) in
  exists mid b,
    ActivateById g "0x107"
    = (((if 0 =? 1 then [] else [WsActivate (ws_ref (workspaceAt 1)) (eventTimestamp g)])
        ++ mid ++ [Activate (win_ref winB2) (eventTimestamp g)])%list, Ret b)
    /\ (mid = [] \/ mid = [Unminimize (win_ref winB2)])
    /\ (b = true <-> activate winB2 = Returns tt).
Proof.
  intros g.
  apply (proj1 activation_follows_workspace g "0x107" winB2 (workspaceAt 1)
           (workspaceAt 0) 0 1); reflexivity.
Defined.

(* ===================================================================== *)
(** ** Further properties of the focus operations                        *)
(* ===================================================================== *)

Section FocusByClass.
Variable lc : string -> string -> Z.

Lemma snapshot_cls_lower g all it :
  _listWindowsItems lc g = ret all ->
  In it all -> JS.toLowerCase (Item.cls it) = Item.cls it.
Proof.
  intros Hl Hin. destruct (snapshot_In lc g all it Hl Hin) as (w & _ & ->).
  apply classInstance_lower.
Qed.

Lemma filter_none_negb {A : Type} (p : A -> bool) l :
  filter p l = [] -> filter (fun x => negb (p x)) l = l.
Proof.
  induction l as [|x r IH]; simpl; [reflexivity|].
  destruct (p x); [discriminate|]. intros E. simpl. now rewrite IH.
Qed.

Lemma pick_preferred wsIdx (matches : list Item.t) :
  match filter (onWorkspace wsIdx) matches with
  | it :: _ => Some it
  | [] =>
      match filter (fun it => negb (onWorkspace wsIdx it)) matches with
      | it :: _ => Some it
      | [] => None
      end
  end = preferred wsIdx matches.
Proof.
  unfold preferred.
  destruct (filter (onWorkspace wsIdx) matches) as [|it r] eqn:E; [|reflexivity].
  rewrite (filter_none_negb _ _ E). now destruct matches.
Qed.

Lemma focusByCls_run g cls all :
  JS.trim cls <> "" ->
  _listWindowsItems lc g = ret all ->
  _focusByCls lc g cls
  = match preferred (_activeWorkspaceIndex g)
            (filter (fun it => String.eqb (Item.cls it) (JS.toLowerCase (JS.trim cls))) all)
    with
    | None => ret 1
    | Some pick =>
        let '(l, r) := _activateWindowById g (Item.id pick) in
        (l, match r with Ret true => Ret 0 | _ => Ret 2 end)
    end.
Proof.
  intros Hne Hl. unfold _focusByCls.
  rewrite (activeId_nonempty _ Hne), Hl, bind_ret.
  assert (Ef : filter (fun it => String.eqb (JS.toLowerCase (Item.cls it))
                                   (JS.toLowerCase (JS.trim cls))) all
               = filter (fun it => String.eqb (Item.cls it)
                                     (JS.toLowerCase (JS.trim cls))) all).
  { apply filter_ext_in. intros it Hin. now rewrite (snapshot_cls_lower g all it Hl Hin). }
  destruct all as [|a0 all']; [reflexivity|].
  cbv zeta. rewrite Ef.
  set (matches := filter _ (a0 :: all')).
  destruct matches as [|m0 ms] eqn:Em; [reflexivity|].
  rewrite pick_preferred.
  destruct (preferred (_activeWorkspaceIndex g) (m0 :: ms)) as [pick|]; [|reflexivity].
  destruct (activateWindowById_returns g (Item.id pick)) as (l & b & E).
  rewrite E. simpl. rewrite app_nil_r. now destruct b.
Qed.

(** X12 (_focusByCls).  [FocusByCls] answers 1, and calls nothing, for a
    blank class and for a class that no listed window has (the argument
    is trimmed and compared in lower case); when the window enumeration
    fails the answer is 2, the code of a failed activation. *)
Theorem focusByCls_no_match :
  (forall g cls, JS.trim cls = "" -> FocusByCls lc g cls = ret 1)
  /\ (forall g cls all,
         _listWindowsItems lc g = ret all ->
         (forall it, In it all -> Item.cls it <> JS.toLowerCase (JS.trim cls)) ->
         FocusByCls lc g cls = ret 1)
  /\ (forall g cls,
         JS.trim cls <> "" ->
         (forall actors, get_window_actors g <> Returns actors) ->
         FocusByCls lc g cls = ret 2).
Proof.
  split; [|split].
  - intros g cls E. unfold FocusByCls, _focusByCls. now rewrite E.
  - intros g cls all Hl Hno. unfold FocusByCls.
    destruct (string_dec (JS.trim cls) "") as [E|Hne].
    { unfold _focusByCls. now rewrite E. }
    rewrite (focusByCls_run g cls all Hne Hl).
    assert (Em : filter (fun it => String.eqb (Item.cls it) (JS.toLowerCase (JS.trim cls))) all
                 = []).
    { clear Hl. induction all as [|a r IH]; [reflexivity|]. simpl.
      destruct (String.eqb_spec (Item.cls a) (JS.toLowerCase (JS.trim cls))) as [E|_].
      - exfalso. apply (Hno a); [now left|exact E].
      - apply IH. intros it I. apply Hno. now right. }
    rewrite Em. reflexivity.
  - intros g cls Hne H. unfold FocusByCls, _focusByCls, _listWindowsItems.
    rewrite (activeId_nonempty _ Hne).
    destruct (get_window_actors g) as [| |actors]; [reflexivity|reflexivity|].
    now elim (H actors).
Qed.

(** X13 (_focusByCls).  Among the listed windows of the requested class,
    [FocusByCls] activates the first one in snapshot order that is on the
    active workspace or pinned, and when there is none the first one on any
    workspace; it makes the calls of [ActivateById] on that window's id and
    answers 0 when the activation succeeded and 2 when it did not. *)
Theorem focusByCls_prefers_active_workspace :
  forall (g : Global) (cls : string) (all : list Item.t) (pick : Item.t),
    JS.trim cls <> "" ->
    _listWindowsItems lc g = ret all ->
    preferred (_activeWorkspaceIndex g)
      (filter (fun it => String.eqb (Item.cls it) (JS.toLowerCase (JS.trim cls))) all)
    = Some pick ->
    exists log ok,
      ActivateById g (Item.id pick) = (log, Ret ok)
      /\ FocusByCls lc g cls = (log, Ret (if ok then 0 else 2)).
Proof.
  intros g cls all pick Hne Hl Hp. unfold FocusByCls, ActivateById.
  rewrite (focusByCls_run g cls all Hne Hl), Hp.
  destruct (activateWindowById_returns g (Item.id pick)) as (l & b & E).
  exists l, b. rewrite E. split; [reflexivity|]. now destruct b.
Qed.

End FocusByClass.

Lemma focusByCls_no_match_witness :
  FocusByCls codeUnitCompare (desktop [winB1; winA1] 0 (Some winA1)) " C.C " = ret 1.
Proof.
  apply (proj1 (proj2 (focusByCls_no_match codeUnitCompare))
           (desktop [winB1; winA1] 0 (Some winA1)) " C.C "
           [itemOf (desktop [winB1; winA1] 0 (Some winA1)) winA1;
            itemOf (desktop [winB1; winA1] 0 (Some winA1)) winB1]).
  - reflexivity.
  - intros it [<-|[<-|[]]]; vm_compute; discriminate.
Defined.

Lemma focusByCls_prefers_active_workspace_witness :
  let g := desktop [winB2; winB1; winA1] 1 (Some winA1) in
  exists log ok,
    ActivateById g (Item.id (itemOf g winB2)) = (log, Ret ok)
    /\ FocusByCls codeUnitCompare g " B.B" = (log, Ret (if ok then 0 else 2)).
Proof.
  intros g.
  apply (focusByCls_prefers_active_workspace codeUnitCompare g " B.B"
           [itemOf g winA1; itemOf g winB1; itemOf g winB2] (itemOf g winB2)).
  - vm_compute. discriminate.
  - reflexivity.
  - reflexivity.
Defined.

Section FocusTargets.
Variable lc : string -> string -> Z.

Lemma listWindowsItems_cases g :
  _listWindowsItems lc g = throw \/ exists all, _listWindowsItems lc g = ret all.
Proof.
  unfold _listWindowsItems.
  destruct (get_window_actors g) as [| |actors]; [now left|now left|right].
  eexists. reflexivity.
Qed.

Lemma findWindowById_cases g id :
  _findWindowById g id = throw \/ exists ow, _findWindowById g id = ret ow.
Proof.
  unfold _findWindowById. destruct (_normalizeIdString id); [|right; now exists None].
  destruct (get_window_actors g) as [| |actors]; [now left|now left|right].
  eexists. reflexivity.
Qed.

Lemma try_catch_activate g id h :
  try_catch (_activateWindowById g id) h = _activateWindowById g id.
Proof.
  destruct (activateWindowById_returns g id) as (l & b & E). now rewrite E.
Qed.

Lemma scanFrom_target g skip inWs idx delta todo s :
  scanFrom g skip inWs idx delta todo s = ret false
  \/ exists cand,
       In cand inWs /\ skip cand = false
       /\ scanFrom g skip inWs idx delta todo s = _activateWindowById g (Item.id cand).
Proof.
  revert s. induction todo as [|todo IH]; intros s; simpl; [now left|].
  destruct (nth_error inWs _) as [cand|] eqn:En; [|apply IH].
  destruct (skip cand) eqn:Es; [apply IH|].
  right. exists cand. split; [eapply nth_error_In; eassumption|]. now split.
Qed.

Lemma find_sameId_listed g all act :
  _listWindowsItems lc g = ret all ->
  find (fun it => sameId (Item.id it) (_activeWindowId g)) all = Some act ->
  In act all /\ Item.id act = _activeWindowId g.
Proof.
  intros Hl Hf. apply find_some in Hf. destruct Hf as [Hin Hs]. split; [exact Hin|].
  apply sameId_lower in Hs; [exact Hs| |apply activeWindowId_lower].
  eapply snapshot_id_lower; eassumption.
Qed.

Lemma resolved_active_listed g all w :
  _activeWindowId g <> "" ->
  _listWindowsItems lc g = ret all ->
  _findWindowById g (_activeWindowId g) = ret (Some w) ->
  In (itemOf g w) all /\ Item.id (itemOf g w) = _activeWindowId g.
Proof.
  intros Hne Hl Hf. apply listWindowsItems_inv in Hl. destruct Hl as (_ & actors & Ea & ->).
  unfold _findWindowById in Hf. rewrite (normalize_activeWindowId g Hne), Ea in Hf.
  simpl in Hf. injection Hf as Hf. apply findActor_Some in Hf.
  destruct Hf as (Hin & Ht & Eid). split; [|exact Eid].
  apply (Permutation_in _ (sort_perm (compareItems lc) _)).
  apply collectItems_In. now exists w.
Qed.

(** Whom the same-class policy takes the class from. *)
Lemma sameApp_activeCls g all ow c :
  _activeWindowId g <> "" ->
  _listWindowsItems lc g = ret all ->
  _findWindowById g (_activeWindowId g) = ret ow ->
  match option_map _classInstance ow with
  | Some c => Some c
  | None => option_map Item.cls (find (fun it => sameId (Item.id it) (_activeWindowId g)) all)
  end = Some c ->
  exists act, In act all /\ Item.id act = _activeWindowId g /\ Item.cls act = c.
Proof.
  intros Hne Hl Hf Hc. destruct ow as [w|]; simpl in Hc.
  - injection Hc as <-. exists (itemOf g w).
    destruct (resolved_active_listed g all w Hne Hl Hf) as [Hin Eid]. now repeat split.
  - destruct (find _ all) as [act|] eqn:Efind; [|discriminate].
    injection Hc as <-. exists act.
    destruct (find_sameId_listed g all act Hl Efind). now repeat split.
Qed.

(** Whom the other-class policy takes the class from. *)
Lemma otherApp_activeCls g all :
  _activeWindowId g <> "" ->
  _listWindowsItems lc g = ret all ->
  (match find (fun it => sameId (Item.id it) (_activeWindowId g)) all with
   | Some activeFound => ret (Some (Item.cls activeFound))
   | None =>
       w <- _findWindowById g (_activeWindowId g) ;;
       ret (option_map _classInstance w)
   end) = ret None
  \/ exists act,
       In act all /\ Item.id act = _activeWindowId g
       /\ (match find (fun it => sameId (Item.id it) (_activeWindowId g)) all with
           | Some activeFound => ret (Some (Item.cls activeFound))
           | None =>
               w <- _findWindowById g (_activeWindowId g) ;;
               ret (option_map _classInstance w)
           end) = ret (Some (Item.cls act)).
Proof.
  intros Hne Hl.
  destruct (find _ all) as [act|] eqn:Efind.
  - right. exists act. destruct (find_sameId_listed g all act Hl Efind). now repeat split.
  - left. rewrite (unlisted_unresolved lc g all Hne Hl); [reflexivity|].
    intros it Hin E.
    rewrite find_none_iff in Efind. specialize (Efind it Hin).
    apply sameId_lower_false in Efind; [contradiction| |apply activeWindowId_lower].
    eapply snapshot_id_lower; eassumption.
Qed.

(** X14 (_focusRelativeSameAppWindow, _focusRelativeOtherAppWindow,
    _focusRelativeAnyAppWindow).  Whatever the state of the window system
    and whatever the step, a focus-cycle operation either answers false
    without calling anything, or does what [ActivateById] does on the id of
    one listed window that is on the active workspace or pinned.  For the
    same-class policy that window has the class of a listed window carrying
    the active id; for the other-class policy its class differs from that
    one and is not CopyQ's; for the any-class policy it is not CopyQ's and
    its id is not the active one. *)
Theorem focus_cycle_targets :
  forall (g : Global) (delta : Z),
    (_focusRelativeSameAppWindow lc g delta = ret false
     \/ exists all act it,
          _listWindowsItems lc g = ret all
          /\ In act all /\ Item.id act = _activeWindowId g
          /\ In it all /\ onWorkspace (_activeWorkspaceIndex g) it = true
          /\ Item.cls it = Item.cls act
          /\ _focusRelativeSameAppWindow lc g delta = ActivateById g (Item.id it))
    /\ (_focusRelativeOtherAppWindow lc g delta = ret false
        \/ exists all act it,
             _listWindowsItems lc g = ret all
             /\ In act all /\ Item.id act = _activeWindowId g
             /\ In it all /\ onWorkspace (_activeWorkspaceIndex g) it = true
             /\ Item.cls it <> Item.cls act /\ Item.cls it <> COPYQ_CLS
             /\ _focusRelativeOtherAppWindow lc g delta = ActivateById g (Item.id it))
    /\ (_focusRelativeAnyAppWindow lc g delta = ret false
        \/ exists all it,
             _listWindowsItems lc g = ret all
             /\ In it all /\ onWorkspace (_activeWorkspaceIndex g) it = true
             /\ Item.cls it <> COPYQ_CLS /\ Item.id it <> _activeWindowId g
             /\ _focusRelativeAnyAppWindow lc g delta = ActivateById g (Item.id it)).
Proof.
  intros g delta. unfold ActivateById. split; [|split].
  - unfold _focusRelativeSameAppWindow.
    destruct (String.eqb_spec (_activeWindowId g) "") as [E0|Hne]; [now left|].
    destruct (findWindowById_cases g (_activeWindowId g)) as [Ef|[ow Ef]];
      rewrite Ef; [now left|].
    rewrite bind_ret.
    destruct (listWindowsItems_cases g) as [El|[all El]]; rewrite El; [now left|].
    rewrite bind_ret.
    pose proof (sameApp_activeCls g all ow) as Hcls.
    destruct all as [|a0 all'] eqn:Eall; [now left|]. rewrite <- Eall in *.
    cbv zeta.
    destruct (match option_map _classInstance ow with
              | Some c => Some c
              | None => _
              end) as [c|] eqn:Ec; [|now left].
    destruct (Hcls c Hne El Ef eq_refl) as (act & Hact & Eid & Ecls).
    set (items := filter _ all).
    assert (Hitems : forall it, In it items ->
                       In it all /\ Item.cls it = Item.cls act
                       /\ onWorkspace (_activeWorkspaceIndex g) it = true).
    { intros it I. apply filter_In in I. destruct I as [I Hp].
      apply andb_true_iff in Hp. destruct Hp as [Hc Hw].
      apply String.eqb_eq in Hc. repeat split; congruence. }
    destruct items as [|i0 items'] eqn:Eitems; [now left|]. rewrite <- Eitems in *.
    destruct (nth_error items _) as [target|] eqn:Et; [|now left].
    right. exists all, act, target.
    destruct (Hitems target (nth_error_In _ _ Et)) as (H1 & H2 & H3).
    repeat split; try assumption. apply try_catch_activate.
  - unfold _focusRelativeOtherAppWindow.
    destruct (String.eqb_spec (_activeWindowId g) "") as [E0|Hne]; [now left|].
    destruct (listWindowsItems_cases g) as [El|[all El]]; rewrite El; [now left|].
    rewrite bind_ret.
    pose proof (otherApp_activeCls g all Hne El) as Hcls.
    destruct all as [|a0 all'] eqn:Eall; [now left|]. rewrite <- Eall in *.
    destruct Hcls as [Ec|(act & Hact & Eid & Ec)]; rewrite Ec, bind_ret; [now left|].
    cbv zeta.
    set (inWs := filter _ all).
    assert (HinWs : forall it, In it inWs ->
                      In it all /\ onWorkspace (_activeWorkspaceIndex g) it = true).
    { intros it I. apply filter_In in I. exact I. }
    destruct inWs as [|only [|i1 rest]] eqn:EinWs; [now left| |].
    + destruct (String.eqb_spec (Item.cls only) (Item.cls act)) as [E1|E1];
        simpl; [now left|].
      destruct (String.eqb_spec (Item.cls only) COPYQ_CLS) as [E2|E2];
        simpl; [now left|].
      right. exists all, act, only.
      destruct (HinWs only (or_introl eq_refl)) as [H1 H2].
      repeat split; try assumption. apply try_catch_activate.
    + rewrite <- EinWs in *.
      destruct (scanFrom_target g (skipOther (Item.cls act)) inWs
                  (startIndex (_activeWindowId g) delta inWs) delta
                  (List.length inWs) 1) as [E|(cand & Hin & Hs & E)];
        rewrite E; [now left|].
      right. exists all, act, cand.
      destruct (HinWs cand Hin) as [H1 H2]. apply skipOther_false in Hs.
      destruct Hs as [Hs1 Hs2].
      repeat split; try assumption. apply try_catch_activate.
  - unfold _focusRelativeAnyAppWindow.
    destruct (String.eqb_spec (_activeWindowId g) "") as [E0|Hne]; [now left|].
    destruct (listWindowsItems_cases g) as [El|[all El]]; rewrite El; [now left|].
    rewrite bind_ret.
    destruct all as [|a0 all'] eqn:Eall; [now left|]. rewrite <- Eall in *.
    cbv zeta.
    set (inWs := filter _ all).
    assert (HinWs : forall it, In it inWs ->
                      In it all /\ onWorkspace (_activeWorkspaceIndex g) it = true).
    { intros it I. apply filter_In in I. exact I. }
    destruct inWs as [|i0 rest] eqn:EinWs; [now left|]. rewrite <- EinWs in *.
    destruct (scanFrom_target g (skipAny (_activeWindowId g)) inWs
                (startIndex (_activeWindowId g) delta inWs) delta
                (List.length inWs) 1) as [E|(cand & Hin & Hs & E)];
      rewrite E; [now left|].
    right. exists all, cand.
    destruct (HinWs cand Hin) as [H1 H2].
    apply skipAny_false in Hs;
      [|apply activeWindowId_lower|eapply snapshot_id_lower; eassumption].
    destruct Hs as [Hs1 Hs2].
    repeat split; try assumption. apply try_catch_activate.
Qed.

End FocusTargets.

Section SameClassAlone.
Variable lc : string -> string -> Z.

(** X15 (_focusRelativeSameAppWindow).  When the focused window's class
    has a single window on the active workspace, the same-class operations
    do not answer false: forward and backward alike they do what
    [ActivateById] does on that single window, which is the focused window
    itself when that one is on the active workspace. *)
Theorem sameApp_single_window :
  forall (g : Global) (delta : Z) (all : list Item.t) (activeWin : MetaWindow)
         (only : Item.t),
    _activeWindowId g <> "" ->
    _findWindowById g (_activeWindowId g) = ret (Some activeWin) ->
    _listWindowsItems lc g = ret all ->
    filter (fun it => String.eqb (Item.cls it) (_classInstance activeWin)
                      && onWorkspace (_activeWorkspaceIndex g) it) all = [only] ->
    _focusRelativeSameAppWindow lc g delta = ActivateById g (Item.id only)
    /\ (onWorkspace (_activeWorkspaceIndex g) (itemOf g activeWin) = true ->
        Item.id only = _activeWindowId g).
Proof.
  intros g delta all activeWin only Hne Hf Hl Hitems. split.
  - pose proof (sameApp_step lc g delta all activeWin
                  (startIndex (_activeWindowId g) delta [only]) Hne Hf Hl) as H.
    cbv zeta in H. rewrite Hitems in H.
    destruct H as (target & Ht & E).
    + discriminate.
    + apply startIndex_activePosition; [apply activeWindowId_lower|].
      intros it I. apply (filter_In_lower lc g all
        (fun it => String.eqb (Item.cls it) (_classInstance activeWin)
                   && onWorkspace (_activeWorkspaceIndex g) it) it Hl).
      now rewrite Hitems.
    + simpl List.length in Ht. change (Z.of_nat 1) with 1 in Ht.
      rewrite Z.mod_1_r in Ht. simpl in Ht. injection Ht as <-. exact E.
  - intros Hw.
    destruct (resolved_active_listed lc g all activeWin Hne Hl Hf) as [Hin Eid].
    assert (I : In (itemOf g activeWin) [only]).
    { rewrite <- Hitems. apply filter_In. split; [exact Hin|].
      rewrite Hw, andb_true_r. apply String.eqb_refl. }
    destruct I as [E|[]]. rewrite E. exact Eid.
Qed.

End SameClassAlone.

Lemma sameApp_single_window_witness :
  let g := desktop [winB1; winA1] 0 (Some winA1) in
  _focusRelativeSameAppWindow codeUnitCompare g (-1)
  = ActivateById g (Item.id (itemOf g winA1))
  /\ (onWorkspace (_activeWorkspaceIndex g) (itemOf g winA1) = true ->
      Item.id (itemOf g winA1) = _activeWindowId g).
Proof.
  intros g.
  apply (sameApp_single_window codeUnitCompare g (-1)
           [itemOf g winA1; itemOf g winB1] winA1 (itemOf g winA1)).
  - vm_compute. discriminate.
  - reflexivity.
  - reflexivity.
  - reflexivity.
Defined.



Section CircuitComplete.
Variable lc : string -> string -> Z.

Lemma circuit_reaches (inWs : list Item.t) idx delta p c :
  delta = 1 \/ delta = -1 ->
  nth_error inWs p = Some c ->
  exists k, 1 <= k <= Z.of_nat (List.length inWs) /\ around inWs idx delta k = Some c.
Proof.
  intros Hd Hp.
  assert (Hlt : (p < List.length inWs)%nat) by (apply nth_error_Some; congruence).
  set (len := Z.of_nat (List.length inWs)).
  assert (Hlen : 0 < len) by (unfold len; lia).
  destruct Hd as [-> | ->].
  - exists ((Z.of_nat p - idx - 1) mod len + 1). split.
    + pose proof (Z.mod_pos_bound (Z.of_nat p - idx - 1) len Hlen). lia.
    + unfold around. fold len.
      replace (idx + 1 * ((Z.of_nat p - idx - 1) mod len + 1))
        with ((idx + 1) + (Z.of_nat p - idx - 1) mod len) by lia.
      rewrite Zplus_mod_idemp_r.
      replace (idx + 1 + (Z.of_nat p - idx - 1)) with (Z.of_nat p) by lia.
      rewrite Z.mod_small by (unfold len; lia).
      now rewrite Nat2Z.id.
  - exists ((idx - Z.of_nat p - 1) mod len + 1). split.
    + pose proof (Z.mod_pos_bound (idx - Z.of_nat p - 1) len Hlen). lia.
    + unfold around. fold len.
      replace (idx + -1 * ((idx - Z.of_nat p - 1) mod len + 1))
        with ((idx - 1) - (idx - Z.of_nat p - 1) mod len) by lia.
      rewrite Zminus_mod_idemp_r.
      replace (idx - 1 - (idx - Z.of_nat p - 1)) with (Z.of_nat p) by lia.
      rewrite Z.mod_small by (unfold len; lia).
      now rewrite Nat2Z.id.
Qed.

Lemma firstCandidate_complete (inWs : list Item.t) idx delta (ok : Item.t -> Prop) r c :
  delta = 1 \/ delta = -1 ->
  firstCandidate inWs idx delta ok r ->
  In c inWs -> ok c ->
  exists cand, r = Some cand /\ In cand inWs /\ ok cand.
Proof.
  intros Hd Hr Hin Hok. destruct r as [cand|].
  - destruct Hr as (k & _ & Hk & Hc & _). exists cand.
    split; [reflexivity|]. split; [|exact Hc].
    unfold around in Hk. eapply nth_error_In; eassumption.
  - exfalso. apply In_nth_error in Hin. destruct Hin as [p Hp].
    destruct (circuit_reaches inWs idx delta p c Hd Hp) as (k & Hk & Ek).
    exact (Hr k c Hk Ek Hok).
Qed.

(** X16 (_focusRelativeAnyAppWindow, _focusRelativeOtherAppWindow).  With
    the steps the exported methods use, +1 and -1, the circuit passes every
    window of the workspace list, so an operation does not give up while a
    window qualifies: if some listed window on the active workspace (or
    pinned) is neither CopyQ's nor the active one, the any-class operation
    does what [ActivateById] does on such a window; if some such window
    differs in class from the listed active window and is not CopyQ's, so
    does the other-class operation. *)
Theorem focus_cycle_never_gives_up :
  forall (g : Global) (delta : Z) (all : list Item.t) (c : Item.t),
    delta = 1 \/ delta = -1 ->
    _activeWindowId g <> "" ->
    _listWindowsItems lc g = ret all ->
    In c all ->
    onWorkspace (_activeWorkspaceIndex g) c = true ->
    (Item.cls c <> COPYQ_CLS -> Item.id c <> _activeWindowId g ->
     exists cand,
       In cand all /\ onWorkspace (_activeWorkspaceIndex g) cand = true
       /\ Item.cls cand <> COPYQ_CLS /\ Item.id cand <> _activeWindowId g
       /\ _focusRelativeAnyAppWindow lc g delta = ActivateById g (Item.id cand))
    /\ (forall act,
           find (fun it => sameId (Item.id it) (_activeWindowId g)) all = Some act ->
           Item.cls c <> Item.cls act -> Item.cls c <> COPYQ_CLS ->
           exists cand,
             In cand all /\ onWorkspace (_activeWorkspaceIndex g) cand = true
             /\ Item.cls cand <> Item.cls act /\ Item.cls cand <> COPYQ_CLS
             /\ _focusRelativeOtherAppWindow lc g delta = ActivateById g (Item.id cand)).
Proof.
  intros g delta all c Hd Hne Hl Hin Hw.
  set (inWs := filter (onWorkspace (_activeWorkspaceIndex g)) all).
  assert (HcIn : In c inWs) by (apply filter_In; now split).
  assert (HinWs : inWs <> []) by (intros E; rewrite E in HcIn; exact HcIn).
  assert (La : JS.toLowerCase (_activeWindowId g) = _activeWindowId g)
    by apply activeWindowId_lower.
  assert (Li : forall it, In it inWs -> JS.toLowerCase (Item.id it) = Item.id it).
  { intros it I. eapply filter_In_lower; eassumption. }
  pose proof (startIndex_activePosition (_activeWindowId g) delta inWs La Li) as Hpos.
  split.
  - intros Hc1 Hc2.
    destruct (anyApp_scan lc g delta all _ Hne Hl HinWs Hpos) as (r & Hr & E).
    destruct (firstCandidate_complete inWs _ delta _ r c Hd Hr HcIn (conj Hc1 Hc2))
      as (cand & -> & Hcand & Hok1 & Hok2).
    exists cand. apply filter_In in Hcand. destruct Hcand as [H1 H2].
    repeat split; try assumption.
  - intros act Hfind Hc1 Hc2.
    destruct (otherApp_scan lc g delta all act _ Hne Hl Hfind HinWs Hpos) as (r & Hr & E).
    destruct (firstCandidate_complete inWs _ delta _ r c Hd Hr HcIn (conj Hc1 Hc2))
      as (cand & -> & Hcand & Hok1 & Hok2).
    exists cand. apply filter_In in Hcand. destruct Hcand as [H1 H2].
    repeat split; try assumption.
Qed.

End CircuitComplete.

Lemma focus_cycle_never_gives_up_witness :
  let g := desktop [winCopyQ; winB1; winA1] 0 (Some winA1) in
  (Item.cls (itemOf g winB1) <> COPYQ_CLS ->
   Item.id (itemOf g winB1) <> _activeWindowId g ->
   exists cand,
     In cand [itemOf g winA1; itemOf g winB1; itemOf g winCopyQ]
     /\ onWorkspace (_activeWorkspaceIndex g) cand = true
     /\ Item.cls cand <> COPYQ_CLS /\ Item.id cand <> _activeWindowId g
     /\ _focusRelativeAnyAppWindow codeUnitCompare g (-1) = ActivateById g (Item.id cand))
  /\ (forall act,
         find (fun it => sameId (Item.id it) (_activeWindowId g))
              [itemOf g winA1; itemOf g winB1; itemOf g winCopyQ] = Some act ->
         Item.cls (itemOf g winB1) <> Item.cls act ->
         Item.cls (itemOf g winB1) <> COPYQ_CLS ->
         exists cand,
           In cand [itemOf g winA1; itemOf g winB1; itemOf g winCopyQ]
           /\ onWorkspace (_activeWorkspaceIndex g) cand = true
           /\ Item.cls cand <> Item.cls act /\ Item.cls cand <> COPYQ_CLS
           /\ _focusRelativeOtherAppWindow codeUnitCompare g (-1)
              = ActivateById g (Item.id cand)).
Proof.
  intros g.
  apply (focus_cycle_never_gives_up codeUnitCompare g (-1)
           [itemOf g winA1; itemOf g winB1; itemOf g winCopyQ] (itemOf g winB1)).
  - right. reflexivity.
  - vm_compute. discriminate.
  - reflexivity.
  - right. left. reflexivity.
  - reflexivity.
Defined.

(* ===================================================================== *)
(** ** Further properties of the launch tracker                          *)
(* ===================================================================== *)

Lemma moveWindowToWorkspaceById_returns g id index :
  exists l b, _moveWindowToWorkspaceById g id index = (l, Ret b).
Proof. apply try_catch_returns. Qed.

Lemma performActions_returns g p win :
  JS.includes KITTY_PATH p = false -> exists log, performActions g p win = (log, Ret tt).
Proof.
  intros Hk. unfold performActions. rewrite Hk.
  destruct (activateWindowById_returns g (_toHexId g win)) as (l2 & b2 & E2).
  destruct (negb (_workspaceIndex win =? _activeWorkspaceIndex g)
            && negb (_workspaceIndex win =? -1)).
  - destruct (moveWindowToWorkspaceById_returns g (_toHexId g win)
                (_activeWorkspaceIndex g)) as (l1 & b1 & E1).
    rewrite E1, E2. simpl. eexists. reflexivity.
  - rewrite E2. simpl. eexists. reflexivity.
Qed.



Lemma emitWmClass_idle g win ids lw :
  (forall n s, In n ids -> nth_error (notifies lw) n = Some s ->
               notifyWin s = win_ref win -> notifyConnected s = true ->
               _classInstance win <> JS.toLowerCase (appId lw)) ->
  emitWmClass g win ids lw = (lw, []).
Proof.
  induction ids as [|n rest IH]; intros H; simpl; [reflexivity|].
  assert (E1 : match nth_error (notifies lw) n with
               | Some s =>
                   if Nat.eqb (notifyWin s) (win_ref win) && notifyConnected s
                   then onNotifyWmClass g win n lw
                   else (lw, [])
               | None => (lw, [])
               end = (lw, [])).
  { destruct (nth_error (notifies lw) n) as [s|] eqn:En; [|reflexivity].
    destruct (Nat.eqb_spec (notifyWin s) (win_ref win)) as [Ew|]; [|reflexivity].
    destruct (notifyConnected s) eqn:Ec; [|reflexivity]. simpl.
    unfold onNotifyWmClass.
    destruct (String.eqb_spec (_classInstance win) (JS.toLowerCase (appId lw))) as [E|];
      [|reflexivity].
    exfalso. exact (H n s (or_introl eq_refl) En Ew Ec E). }
  rewrite E1, IH; [reflexivity|].
  intros m s I. apply H. now right.
Qed.

(** X18 (_launchHere, the notify::wm-class callback).  A change of class
    does nothing to a watch unless a still-connected class-change
    subscription on that very window sees the expected class: a window the
    watch holds no connected subscription on (never subscribed, matched, or
    past its 5-second timer) is ignored whatever its class, and a
    subscribed window is ignored as long as its class is not the expected
    one. *)
Theorem class_change_ignored :
  (forall lw g win,
      (forall s, In s (notifies lw) -> notifyWin s = win_ref win ->
                 notifyConnected s = false) ->
      step lw (WmClassChanged g win) = (lw, []))
  /\ (forall lw g win,
         _classInstance win <> JS.toLowerCase (appId lw) ->
         step lw (WmClassChanged g win) = (lw, [])).
Proof.
  split.
  - intros lw g win H. simpl. apply emitWmClass_idle.
    intros n s _ En Ew Ec. apply nth_error_In in En.
    rewrite (H s En Ew) in Ec. discriminate.
  - intros lw g win Hne. simpl. apply emitWmClass_idle. intros; assumption.
Qed.

Lemma class_change_ignored_witness :
  let g := desktop [winSlow; winA1] 0 (Some winA1) in
  let lw := fst (run watchB [WindowCreated g winSlow; SubTimeout 0]) in
  step lw (WmClassChanged g winSlowRenamed) = (lw, []).
Proof.
  intros g lw.
  apply (proj1 class_change_ignored lw g winSlowRenamed).
  intros s [<-|[]] _. reflexivity.
Defined.

Section LaunchOutcome.
Variable lc : string -> string -> Z.

(** X19 (_launchHere).  With the snapshot taken, [LaunchHere] answers
    false exactly when spawning the command fails, and then registers
    nothing: no subscription and no timer.  When the command is spawned it
    connects the window-creation subscription, adds the 10-second timer and
    answers true at once, before any window has appeared; the answer says
    that the command was started, not that a window was focused. *)
Theorem launchHere_outcome :
  forall (g : Global) (p a : string) (all : list Item.t),
    _listWindowsItems lc g = ret all ->
    (spawn_command_line_async g p <> Returns tt ->
     exists log,
       _launchHere lc g p a = (log, Ret (false, None))
       /\ (log = [] \/ log = [Spawn p])
       /\ LaunchHere lc g p a = (log, Ret false))
    /\ (forall d,
           spawn_command_line_async g p = Returns tt ->
           display g = Some d ->
           connect_window_created d = Returns tt ->
           _launchHere lc g p a
           = ([Spawn p; ConnectWindowCreated; TimeoutAddSeconds 10],
              Ret (true,
                   Some {| path := p; appId := a; maxKey := maxKeyOf all;
                           handlerConnected := true; timeoutPending := true;
                           notifies := [] |}))
           /\ LaunchHere lc g p a
              = ([Spawn p; ConnectWindowCreated; TimeoutAddSeconds 10], Ret true)).
Proof.
  intros g p a all Hl. split.
  - intros Hs. unfold LaunchHere, _launchHere. rewrite Hl, bind_ret.
    destruct (spawn_command_line_async g p) as [| |[]] eqn:E; [| |congruence].
    + exists []. simpl. repeat split; try reflexivity. now left.
    + exists [Spawn p]. simpl. repeat split; try reflexivity. now right.
  - intros d Hs Hd Hc. unfold LaunchHere, _launchHere.
    rewrite Hl, bind_ret, Hs, Hd, Hc. simpl. split; reflexivity.
Qed.

End LaunchOutcome.

Lemma launchHere_outcome_witness :
  let g := desktop [winB1; winA2; winA1] 0 (Some winA1) in
  _launchHere codeUnitCompare g "xterm" "b.b"
  = ([Spawn "xterm"; ConnectWindowCreated; TimeoutAddSeconds 10], Ret (true, Some watchB))
  /\ LaunchHere codeUnitCompare g "xterm" "b.b"
     = ([Spawn "xterm"; ConnectWindowCreated; TimeoutAddSeconds 10], Ret true).
Proof.
  intros g.
  destruct (display g) as [d|] eqn:Ed; [|discriminate].
  apply (proj2 (launchHere_outcome codeUnitCompare g "xterm" "b.b"
                  [itemOf g winA1; itemOf g winA2; itemOf g winB1] eq_refl) d).
  - reflexivity.
  - exact Ed.
  - injection Ed as <-. reflexivity.
Defined.

(* ===================================================================== *)
(** ** The life cycle                                                    *)
(* ===================================================================== *)

(** X20 (enable, disable, constructor).  [disable] always leaves the
    extension as the constructor made it, so disabling twice, or disabling
    what was never enabled, calls nothing on the bus.  After an [enable]
    that returned, [disable] unexports the object and then releases the
    name [enable] acquired, the second even when the first raises; and a
    bus-acquired callback that arrives after [disable] exports nothing. *)
Theorem disable_releases_what_enable_acquired :
  (forall gio e, fst (disable gio e) = constructor)
  /\ (forall gio, disable gio constructor = (constructor, []))
  /\ (forall gio e, snd (disable gio (fst (disable gio e))) = [])
  /\ (forall gio e calls,
         enable gio constructor = (e, calls, false) ->
         calls = [BusOwnName]
         /\ exists impl nameId,
              wrapJSObject gio = Returns impl /\ bus_own_name gio = Returns nameId
              /\ e = {| _nameId := nameId; _impl := Some impl |}
              /\ (nameId <> 0 -> unexport impl <> Absent ->
                  bus_unown_name gio nameId <> Absent ->
                  disable gio e
                  = (constructor, [Unexport (impl_ref impl); BusUnownName nameId])))
  /\ (forall gio e, onBusAcquired (fst (disable gio e)) = [LogError]).
Proof.
  assert (H1 : forall gio e, fst (disable gio e) = constructor).
  { intros gio [n [impl|]]; unfold disable; simpl;
      destruct (Z.eqb_spec n 0) as [->|]; reflexivity. }
  split; [exact H1|]. split; [reflexivity|]. split; [|split].
  - intros gio e. rewrite H1. reflexivity.
  - intros gio e calls He. unfold enable in He.
    destruct (new_for_xml gio); try discriminate.
    destruct (wrapJSObject gio) as [| |impl] eqn:Ew; try discriminate.
    destruct (bus_own_name gio) as [| |nameId] eqn:Eb; try discriminate.
    simpl in He. injection He as <- <-. split; [reflexivity|].
    exists impl, nameId. repeat split.
    intros Hn Hu Hb. unfold disable. simpl.
    destruct (Z.eqb_spec nameId 0) as [|_]; [contradiction|]. simpl.
    destruct (unexport impl); [contradiction| |];
      (destruct (bus_unown_name gio nameId); [contradiction| |]); reflexivity.
  - intros gio e. rewrite H1. reflexivity.
Qed.

Lemma disable_releases_what_enable_acquired_witness :
  disable sessionBus (fst (fst (enable sessionBus constructor)))
  = (constructor, [Unexport 1; BusUnownName 42]).
Proof.
  destruct (proj1 (proj2 (proj2 (proj2 disable_releases_what_enable_acquired)))
              sessionBus (fst (fst (enable sessionBus constructor))) [BusOwnName] eq_refl)
    as (_ & impl & nameId & Ew & Eb & _ & H).
  simpl in Ew, Eb. injection Ew as <-. injection Eb as <-.
  apply H; discriminate.
Defined.
